(** * Document-processing tool of metis-mcp-demo

    A shallow embedding of [src/tools/document-processing-tool.js]: the three
    text operations [chunk_document], [extract_code] and
    [analyze_document_structure], and [load_document]; of the handlers of
    [src/tools/database-tool.js]; and of the handlers of the vector store
    tool of [src/tools/vector-store-tool.js].

    Conventions of the embedding.
    - A JavaScript string is a list of code units.  The code units modelled
      are those below 256 (the type [ascii]), read as Latin-1; [\s], [.],
      [trim] and [toLowerCase] are given on that range.
    - A JavaScript number is modelled by an integer ([Z]).
    - The regular expressions of the source are kept as syntax trees and run
      by a backtracking matcher that follows the ECMAScript matcher
      (continuation passing, ordered alternation, greedy and lazy
      quantifiers, capture groups, [^] and [$] under the [m] flag).
    - A handler body is a computation that returns, throws or fails to
      terminate ([Outcome]); [try]/[catch] is [try_catch].
    - The splitter of the langchain package, which [chunk_document] calls
      and the repository does not contain, is a parameter of the handler
      ([TextSplitterLib]); what the specification says of it is stated as
      predicates on that parameter, and [spec_splitter] is an instance
      written from the specification.
    - The path and file-system modules of Node and the loaders of the
      langchain package, which [load_document] calls, are a parameter of
      that handler ([FileLib]).
    - The database and vector store tools keep module variables and call
      the pg and chromadb packages.  A handler of theirs is a function from
      the state of the module and of the world outside to a result and a
      state; the packages are parameters ([PgLib], [ChromaLib]); requests
      are handled one after the other. *)

From Stdlib Require Import ZArith Lia Ascii DecimalString.
From stdpp Require Import gmap strings list fin_maps.

Local Open Scope nat_scope.

(** ** Strings *)

Definition JsString := list ascii.

Definition js (s : string) : JsString := String.list_ascii_of_string s.

Definition LF : ascii := "010"%char.
Definition TAB : ascii := "009"%char.
Definition SP : ascii := " "%char.

Definition code (c : ascii) : N := N_of_ascii c.

Definition in_range (lo hi : N) (c : ascii) : bool :=
  (lo <=? code c)%N && (code c <=? hi)%N.

(** LineTerminator of ECMAScript, on the modelled range: LF and CR. *)
Definition is_line_terminator (c : ascii) : bool :=
  (code c =? 10)%N || (code c =? 13)%N.

(** [\s]: WhiteSpace and LineTerminator; on the modelled range these are
    TAB, LF, VT, FF, CR, SPACE and NO-BREAK SPACE. *)
Definition is_space (c : ascii) : bool :=
  in_range 9 13 c || (code c =? 32)%N || (code c =? 160)%N.

Definition is_digit (c : ascii) : bool := in_range 48 57 c.
Definition is_upper (c : ascii) : bool := in_range 65 90 c.
Definition is_lower (c : ascii) : bool := in_range 97 122 c.
Definition is_alnum (c : ascii) : bool := is_lower c || is_upper c || is_digit c.

Definition is_char (a c : ascii) : bool := Ascii.eqb a c.
Definition any_char (c : ascii) : bool := true.
(** [.] without the [s] flag. *)
Definition dot (c : ascii) : bool := negb (is_line_terminator c).
Definition one_of (l : list ascii) (c : ascii) : bool := existsb (Ascii.eqb c) l.
Definition none_of (l : list ascii) (c : ascii) : bool := negb (one_of l c).

(** [String.prototype.toLowerCase] on the modelled range: A-Z and the
    Latin-1 capitals U+00C0..U+00DE other than U+00D7 move up by 32. *)
Definition lower_char (c : ascii) : ascii :=
  if is_upper c || (in_range 192 222 c && negb (code c =? 215)%N)
  then ascii_of_N (code c + 32) else c.

Definition toLowerCase (s : JsString) : JsString := map lower_char s.

Fixpoint trimStart (s : JsString) : JsString :=
  match s with
  | c :: s' => if is_space c then trimStart s' else s
  | [] => []
  end.

Definition trimEnd (s : JsString) : JsString := rev (trimStart (rev s)).

Definition trim (s : JsString) : JsString := trimEnd (trimStart s).

Definition js_eqb (a b : JsString) : bool := bool_decide (a = b).

(** Truthiness of a string value that may be [undefined]. *)
Definition truthy_string (v : option JsString) : bool :=
  match v with
  | Some (_ :: _) => true
  | _ => false
  end.

(** ** Regular expressions *)

Inductive regex : Type :=
| Eps
| Cls (p : ascii -> bool)
| Cat (r1 r2 : regex)
| Alt (r1 r2 : regex)
| Rep (min : nat) (max : option nat) (greedy : bool) (r : regex)
| Grp (n : nat) (r : regex)
| Bol
| Eol.

Definition chr (c : ascii) : regex := Cls (is_char c).
Definition star (r : regex) : regex := Rep 0 None true r.
Definition plus (r : regex) : regex := Rep 1 None true r.
Definition opt (r : regex) : regex := Rep 0 (Some 1) true r.
Definition lazy_star (r : regex) : regex := Rep 0 None false r.
Definition range (lo hi : nat) (r : regex) : regex := Rep lo (Some hi) true r.

Fixpoint lit (s : JsString) : regex :=
  match s with
  | [] => Eps
  | [c] => chr c
  | c :: s' => Cat (chr c) (lit s')
  end.

Fixpoint cat (rs : list regex) : regex :=
  match rs with
  | [] => Eps
  | [r] => r
  | r :: rs' => Cat r (cat rs')
  end.

(** The capture groups inside a regex: a quantifier clears them before each
    iteration. *)
Fixpoint group_ids (r : regex) : list nat :=
  match r with
  | Cat r1 r2 | Alt r1 r2 => group_ids r1 ++ group_ids r2
  | Rep _ _ _ r' => group_ids r'
  | Grp n r' => n :: group_ids r'
  | _ => []
  end.

(** The matcher state: the input read so far (most recent first), the input
    still to read, and the captures by group number (groups count from 1;
    a group that took no part is [None], the [undefined] of the source). *)
Record mstate : Type := MState {
  consumed : list ascii;
  remaining : list ascii;
  captures : list (option JsString)
}.

Definition endIndex (x : mstate) : nat := length (consumed x).

Definition set_capture (n : nat) (v : option JsString) (x : mstate) : mstate :=
  MState (consumed x) (remaining x)
         (<[n := v]> (captures x ++ replicate (S n - length (captures x)) None)).

Definition get_capture (n : nat) (x : mstate) : option JsString :=
  match captures x !! n with
  | Some v => v
  | None => None
  end.

Definition clear_captures (ns : list nat) (x : mstate) : mstate :=
  foldr (fun n y => set_capture n None y) x ns.

(** The input read between two states of one run. *)
Definition between (x y : mstate) : JsString :=
  rev (take (endIndex y - endIndex x) (consumed y)).

(** [^] under the [m] flag. *)
Definition at_bol (x : mstate) : bool :=
  match consumed x with
  | [] => true
  | c :: _ => is_line_terminator c
  end.

(** [$] under the [m] flag. *)
Definition at_eol (x : mstate) : bool :=
  match remaining x with
  | [] => true
  | c :: _ => is_line_terminator c
  end.

Definition cont : Type := mstate -> option mstate.

(** RepeatMatcher of ECMAScript.  An iteration that reads nothing once [min]
    is reached is refused, so [min] falls or the input shrinks at each turn;
    [fuel] bounds the turns. *)
Fixpoint repeat_matcher (m : cont -> mstate -> option mstate) (parens : list nat)
    (greedy : bool) (fuel min : nat) (max : option nat) (c : cont) (x : mstate)
    : option mstate :=
  match fuel with
  | 0 => None
  | S fuel' =>
    match max with
    | Some 0 => c x
    | _ =>
      let d := fun y =>
        if (min =? 0) && (length (remaining y) =? length (remaining x)) then None
        else repeat_matcher m parens greedy fuel' (pred min) (pred <$> max) c y in
      let xr := clear_captures parens x in
      if negb (min =? 0) then m d xr
      else if greedy then
        match m d xr with
        | Some z => Some z
        | None => c x
        end
      else
        match c x with
        | Some z => Some z
        | None => m d xr
        end
    end
  end.

Definition repeat_fuel (min : nat) (x : mstate) : nat :=
  S (min + length (remaining x)).

Fixpoint rmatch (r : regex) (c : cont) (x : mstate) {struct r} : option mstate :=
  match r with
  | Eps => c x
  | Cls p =>
    match remaining x with
    | a :: rest =>
      if p a then c (MState (a :: consumed x) rest (captures x)) else None
    | [] => None
    end
  | Cat r1 r2 => rmatch r1 (rmatch r2 c) x
  | Alt r1 r2 =>
    match rmatch r1 c x with
    | Some z => Some z
    | None => rmatch r2 c x
    end
  | Rep min max greedy r' =>
    repeat_matcher (rmatch r') (group_ids r') greedy (repeat_fuel min x) min max c x
  | Grp n r' => rmatch r' (fun y => c (set_capture n (Some (between x y)) y)) x
  | Bol => if at_bol x then c x else None
  | Eol => if at_eol x then c x else None
  end.

(** One match attempt at the position of [x], captures undefined. *)
Definition match_at (r : regex) (pre rest : list ascii) : option mstate :=
  rmatch r Some (MState pre rest []).

(** The result of a successful [exec]: [match.index], [match[0]] and the
    final state, which holds [match[1]], [match[2]], ... and [lastIndex]. *)
Record MatchResult : Type := MkMatch {
  index : nat;
  matched : JsString;
  last : mstate
}.

Definition group (n : nat) (m : MatchResult) : option JsString :=
  match n with
  | 0 => Some (matched m)
  | _ => get_capture n (last m)
  end.

Definition mk_match (pre : list ascii) (e : mstate) : MatchResult :=
  MkMatch (length pre) (rev (take (length (consumed e) - length pre) (consumed e))) e.

(** RegExpBuiltinExec without the sticky flag: the first position at or
    after [lastIndex] where the regex matches. *)
Fixpoint search (r : regex) (pre rest : list ascii) {struct rest} : option MatchResult :=
  match match_at r pre rest with
  | Some e => Some (mk_match pre e)
  | None =>
    match rest with
    | [] => None
    | a :: rest' => search r (a :: pre) rest'
    end
  end.

(** ** Computations *)

(** An [Error] object, read through [error.message]. *)
Record JsError : Type := MkError { message : JsString }.

(** How a computation ends: with a value, with an exception, or not at all
    (a loop that outruns its fuel). *)
Inductive Outcome (A : Type) : Type :=
| Returns (a : A)
| Throws (e : JsError)
| Diverges.

Arguments Returns {A} a.
Arguments Throws {A} e.
Arguments Diverges {A}.

(** Sequencing: an exception or a loop without end passes through. *)
Definition bind {A B : Type} (c : Outcome A) (k : A -> Outcome B) : Outcome B :=
  match c with
  | Returns a => k a
  | Throws e => Throws e
  | Diverges => Diverges
  end.

Notation "'let!' x ':=' c 'in' k" := (bind c (fun x => k))
  (at level 10, x name, c at level 100, k at level 200).

(** [try { body } catch (error) { handler }] *)
Definition try_catch {A : Type} (body : Outcome A) (handler : JsError -> Outcome A)
    : Outcome A :=
  match body with
  | Throws e => handler e
  | o => o
  end.

(** A method call or property read on a value that may be [undefined]. *)
Definition TypeError_undefined (prop : string) : JsError :=
  MkError (js "Cannot read properties of undefined (reading '" ++ js prop ++ js "')").

Definition member {A : Type} (v : option A) (prop : string) : Outcome A :=
  match v with
  | Some a => Returns a
  | None => Throws (TypeError_undefined prop)
  end.

(** ToString of a value that is a string or [undefined]. *)
Definition ToString (v : option JsString) : JsString :=
  match v with
  | Some s => s
  | None => js "undefined"
  end.

(** ** Built-ins driven by a regex *)

(** [while ((match = regex.exec(text)) !== null) body], for a regex with the
    [g] flag created with [lastIndex = 0].  [pre] and [rest] are the text
    before and after [lastIndex]. *)
Fixpoint exec_while {A : Type} (fuel : nat) (r : regex) (pre rest : list ascii)
    (body : MatchResult -> A -> Outcome A) (a : A) : Outcome A :=
  match fuel with
  | 0 => Diverges
  | S fuel' =>
    match search r pre rest with
    | None => Returns a
    | Some m =>
      let! a' := body m a in
      exec_while fuel' r (consumed (last m)) (remaining (last m)) body a'
    end
  end.

(** The loop from the start of the text; a turn for each character and one
    for the [null] that ends it. *)
Definition exec_loop {A : Type} (r : regex) (text : JsString)
    (body : MatchResult -> A -> Outcome A) (a : A) : Outcome A :=
  exec_while (S (length text)) r [] text body a.

(** [text.match(regex)] for a regex with the [g] flag: every match in turn,
    the position moved one further after an empty match. *)
Fixpoint match_from (fuel : nat) (r : regex) (pre rest : list ascii)
    (A : list JsString) : Outcome (list JsString) :=
  match fuel with
  | 0 => Diverges
  | S fuel' =>
    match search r pre rest with
    | None => Returns A
    | Some m =>
      let e := last m in
      match matched m, remaining e with
      | [], [] => Returns (A ++ [matched m])
      | [], a :: rest' => match_from fuel' r (a :: consumed e) rest' (A ++ [matched m])
      | _, _ => match_from fuel' r (consumed e) (remaining e) (A ++ [matched m])
      end
    end
  end.

(** [text.match(regex) || []] *)
Definition match_all (r : regex) (text : JsString) : Outcome (list JsString) :=
  match_from (S (length text)) r [] text [].

(** [text.split(regex)] for a regex without capture groups: [p] is the start
    of the piece being built, [cur] the piece read so far (most recent
    first), [pre] and [rest] the text before and after the position [q]. *)
Fixpoint split_from (fuel : nat) (r : regex) (p : nat) (cur pre rest : list ascii)
    (A : list JsString) : Outcome (list JsString) :=
  match fuel with
  | 0 => Diverges
  | S fuel' =>
    match rest with
    | [] => Returns (A ++ [rev cur])
    | a :: rest' =>
      match match_at r pre rest with
      | None => split_from fuel' r p (a :: cur) (a :: pre) rest' A
      | Some z =>
        if endIndex z =? p then split_from fuel' r p (a :: cur) (a :: pre) rest' A
        else split_from fuel' r (endIndex z) [] (consumed z) (remaining z) (A ++ [rev cur])
      end
    end
  end.

(** [text.split(regex)]; the empty text is a case of its own. *)
Definition split (r : regex) (text : JsString) : Outcome (list JsString) :=
  match text with
  | [] =>
    match match_at r [] [] with
    | Some _ => Returns []
    | None => Returns [text]
    end
  | _ => split_from (S (2 * length text)) r 0 [] [] text []
  end.

(** ** Data model *)

(** The values a metadata object holds. *)
Inductive JsValue : Type :=
| JNull
| JBool (b : bool)
| JNum (n : Z)
| JStr (s : string).

Global Instance JsValue_eq_dec : EqDecision JsValue.
Proof. solve_decision. Defined.

(** A metadata object: string keys, values read by value. *)
Abbreviation Metadata := (gmap string JsValue).

(** The request parameters, each one possibly absent ([undefined]). *)
Module Params.
Record t : Type := Make {
  text : option JsString;
  chunkSize : option Z;
  chunkOverlap : option Z;
  metadata : option Metadata;
  language : option JsString
}.
End Params.

(** What langchain's splitter yields. *)
Module Document.
Record t : Type := Make {
  pageContent : JsString;
  metadata : Metadata
}.
End Document.

Module TextChunk.
Record t : Type := Make {
  text : JsString;
  metadata : Metadata
}.
End TextChunk.

Module CodeBlock.
Record t : Type := Make {
  language : JsString;
  code : JsString
}.
End CodeBlock.

Module Heading.
Record t : Type := Make {
  level : nat;
  text : JsString;
  position : nat
}.
End Heading.

Module StructureReport.
Record t : Type := Make {
  headings : list Heading.t;
  paragraphCount : nat;
  bulletListItemCount : nat;
  numberedListItemCount : nat;
  tableRowCount : nat;
  totalLength : nat;
  wordCount : nat
}.
End StructureReport.

(** The object a handler returns: [{success: true, ...payload}] or
    [{success: false, error}]. *)
Inductive ToolResult : Type :=
| ChunkResult (chunks : list TextChunk.t) (count : nat)
| CodeResult (codeBlocks : list CodeBlock.t) (count : nat)
| StructureResult (structure : StructureReport.t)
| Failure (error : JsString).

Definition success (r : ToolResult) : bool :=
  match r with
  | Failure _ => false
  | _ => true
  end.

(** [catch (error) { return { success: false, error: error.message }; }] *)
Definition report_failure (error : JsError) : Outcome ToolResult :=
  Returns (Failure (message error)).

(** ** extract_code *)

(** [```(?:([a-zA-Z0-9]+)\n)?([\s\S]*?)```]: a fenced block. *)
Definition fencedBlock : regex :=
  cat [lit (js "```");
       opt (Cat (Grp 1 (plus (Cls is_alnum))) (chr LF));
       Grp 2 (lazy_star (Cls any_char));
       lit (js "```")].

(** [(?:^[ \t]*\n)?(?:(?:[ \t]+[^\n]*\n)+)]: an indented block. *)
Definition indentedBlock : regex :=
  cat [opt (cat [Bol; star (Cls (one_of [SP; TAB])); chr LF]);
       plus (cat [plus (Cls (one_of [SP; TAB])); star (Cls (none_of [LF])); chr LF])].

(** [/```(?:([a-zA-Z0-9]+)\n)?([\s\S]*?)```|(?:^[ \t]*\n)?(?:(?:[ \t]+[^\n]*\n)+)/gm] *)
Definition codeBlockRegex : regex := Alt fencedBlock indentedBlock.

(** [params.language ? params.language.toLowerCase() : null] *)
Definition requested_language (params : Params.t) : option JsString :=
  if truthy_string (Params.language params)
  then toLowerCase <$> Params.language params
  else None.

(** [match[1] ? match[1].toLowerCase() : 'unknown'] *)
Definition blockLanguage (m : MatchResult) : JsString :=
  if truthy_string (group 1 m) then toLowerCase (default [] (group 1 m))
  else js "unknown".

(** [match[2] ? match[2].trim() : match[0].trim()] *)
Definition block_code (m : MatchResult) : JsString :=
  if truthy_string (group 2 m) then trim (default [] (group 2 m))
  else trim (matched m).

(** [!language || blockLanguage === language] *)
Definition wanted (language : option JsString) (blockLanguage : JsString) : bool :=
  negb (truthy_string language) || js_eqb blockLanguage (default [] language).

Definition block_of_match (m : MatchResult) : CodeBlock.t :=
  CodeBlock.Make (blockLanguage m) (block_code m).

(** The body of the [while] loop of the handler. *)
Definition collect_block (language : option JsString) (m : MatchResult)
    (codeBlocks : list CodeBlock.t) : Outcome (list CodeBlock.t) :=
  if wanted language (blockLanguage m)
  then Returns (codeBlocks ++ [block_of_match m])
  else Returns codeBlocks.

Definition extract_code_body (params : Params.t) : Outcome ToolResult :=
  let text := Params.text params in
  let language := requested_language params in
  let! codeBlocks :=
    exec_loop codeBlockRegex (ToString text) (collect_block language) [] in
  Returns (CodeResult codeBlocks (length codeBlocks)).

Definition extract_code (params : Params.t) : Outcome ToolResult :=
  try_catch (extract_code_body params) report_failure.

(** ** analyze_document_structure *)

(** [/^(#{1,6})\s+(.+)$/gm] *)
Definition headingRegex : regex :=
  cat [Bol; Grp 1 (range 1 6 (chr "#")); plus (Cls is_space); Grp 2 (plus (Cls dot)); Eol].

(** [/\n\s*\n/] *)
Definition paragraphRegex : regex :=
  cat [chr LF; star (Cls is_space); chr LF].

(** [/^\s*[-*+]\s+.+/gm] *)
Definition bulletListRegex : regex :=
  cat [Bol; star (Cls is_space); Cls (one_of ["-"; "*"; "+"]%char);
       plus (Cls is_space); plus (Cls dot)].

(** [/^\s*\d+\.\s+.+/gm] *)
Definition numberedListRegex : regex :=
  cat [Bol; star (Cls is_space); plus (Cls is_digit); chr ".";
       plus (Cls is_space); plus (Cls dot)].

(** [/^\|(.+)\|\s*$/gm] *)
Definition tableRegex : regex :=
  cat [Bol; chr "|"; Grp 1 (plus (Cls dot)); chr "|"; star (Cls is_space); Eol].

(** [/\s+/] *)
Definition wordRegex : regex := plus (Cls is_space).

Definition nonempty (s : JsString) : bool := 0 <? length s.

(** The body of the heading loop. *)
Definition collect_heading (headingMatch : MatchResult) (headings : list Heading.t)
    : Outcome (list Heading.t) :=
  let! g1 := member (group 1 headingMatch) "length" in
  let! g2 := member (group 2 headingMatch) "trim" in
  Returns (headings ++ [Heading.Make (length g1) (trim g2) (index headingMatch)]).

Definition analyze_document_structure_body (params : Params.t) : Outcome ToolResult :=
  let text := Params.text params in
  let! headings := exec_loop headingRegex (ToString text) collect_heading [] in
  let! text_split := member text "split" in
  let! pieces := split paragraphRegex text_split in
  let paragraphs := filter (fun p => nonempty (trim p) = true) pieces in
  let! bulletListItems := match_all bulletListRegex text_split in
  let! numberedListItems := match_all numberedListRegex text_split in
  let! tableRows := match_all tableRegex text_split in
  let! tokens := split wordRegex text_split in
  Returns (StructureResult
    (StructureReport.Make headings (length paragraphs) (length bulletListItems)
       (length numberedListItems) (length tableRows) (length text_split)
       (length (filter (fun w => nonempty w = true) tokens)))).

Definition analyze_document_structure (params : Params.t) : Outcome ToolResult :=
  try_catch (analyze_document_structure_body params) report_failure.

(** Requests carrying only a text. *)
Definition text_only (s : JsString) : Params.t :=
  Params.Make (Some s) None None None None.

(** ** chunk_document *)

(** [await promise]: the value, or the rejection thrown. *)
Definition settle {A : Type} (r : JsError + A) : Outcome A :=
  match r with
  | inl e => Throws e
  | inr a => Returns a
  end.

(** The splitter of the langchain package, which the tool imports:
    [new RecursiveCharacterTextSplitter({chunkSize, chunkOverlap})] and
    [splitter.createDocuments(texts, metadatas)].  Each call settles: it
    gives its value or throws. *)
Record TextSplitterLib : Type := {
  Splitter : Type;
  RecursiveCharacterTextSplitter : Z -> Z -> JsError + Splitter;
  createDocuments :
    Splitter -> list (option JsString) -> list Metadata -> JsError + list Document.t
}.

(** [value || fallback] on a number that may be absent: 0 is falsy. *)
Definition or_number (value : option Z) (fallback : Z) : Z :=
  match value with
  | Some n => if (n =? 0)%Z then fallback else n
  | None => fallback
  end.

(** [params.chunkSize || 1000] *)
Definition effective_chunkSize (params : Params.t) : Z :=
  or_number (Params.chunkSize params) 1000.

(** [params.chunkOverlap || 200] *)
Definition effective_chunkOverlap (params : Params.t) : Z :=
  or_number (Params.chunkOverlap params) 200.

(** [params.metadata || {}] *)
Definition effective_metadata (params : Params.t) : Metadata :=
  default ∅ (Params.metadata params).

(** [chunk => ({text: chunk.pageContent, metadata: chunk.metadata})] *)
Definition to_chunk (chunk : Document.t) : TextChunk.t :=
  TextChunk.Make (Document.pageContent chunk) (Document.metadata chunk).

Section Handler.
Variable lib : TextSplitterLib.

(** Constructing the splitter and splitting one text with it. *)
Definition split_text (chunkSize chunkOverlap : Z) (text : option JsString)
    (metadata : Metadata) : Outcome (list Document.t) :=
  let! splitter := settle (RecursiveCharacterTextSplitter lib chunkSize chunkOverlap) in
  settle (createDocuments lib splitter [text] [metadata]).

(** The [try] block of the handler. *)
Definition chunk_document_body (params : Params.t) : Outcome ToolResult :=
  let text := Params.text params in
  let chunkSize := effective_chunkSize params in
  let chunkOverlap := effective_chunkOverlap params in
  let metadata := effective_metadata params in
  let! chunks := split_text chunkSize chunkOverlap text metadata in
  Returns (ChunkResult (map to_chunk chunks) (length chunks)).

(** The handler: the [try] block under its [catch]. *)
Definition chunk_document (params : Params.t) : Outcome ToolResult :=
  try_catch (chunk_document_body params) report_failure.
End Handler.

(** ** The splitter, from the specification *)

(** Modelled from the spec: the InvalidArgument error of section 7, as the
    splitter of the langchain package (not among the sources) is to raise it. *)
Definition InvalidArgument (why : string) : JsError :=
  MkError (js "InvalidArgument: " ++ js why).

(** [s] ends with the separator [sep]. *)
Definition ends_with (sep s : JsString) : bool :=
  bool_decide (drop (length s - length sep) s = sep).

(** The greatest [e'] with [lo < e' <= e] such that the first [e']
    characters of [s] end with [sep]. *)
Fixpoint last_boundary (sep s : JsString) (lo e : nat) : option nat :=
  match e with
  | 0 => None
  | S e' =>
    if (lo <? e) && ends_with sep (take e s) then Some e
    else last_boundary sep s lo e'
  end.

(** Modelled from the spec: where a window of at most [size] characters
    ends (section 4.1, "chunk boundaries prefer the largest available
    separator that keeps pieces within size limits"): after the last
    paragraph break in reach, else the last line break, else the last space,
    else at the size limit; always past the overlap carried in. *)
Definition cut_point (overlap size : nat) (s : JsString) : nat :=
  match last_boundary [LF; LF] s overlap size with
  | Some e => e
  | None =>
    match last_boundary [LF] s overlap size with
    | Some e => e
    | None =>
      match last_boundary [SP] s overlap size with
      | Some e => e
      | None => size
      end
    end
  end.

(** Modelled from the spec: the windows of section 4.1, each of at most
    [size] characters and each after the first starting with the last
    [overlap] characters of the one before. *)
Fixpoint windows (fuel size overlap : nat) (s : JsString) : list JsString :=
  if length s <=? size then [s]
  else
    match fuel with
    | 0 => [s]
    | S fuel' =>
      let e := cut_point overlap size s in
      take e s :: windows fuel' size overlap (drop (e - overlap) s)
    end.

(** Modelled from the spec: the chunks of a text; the empty text has none. *)
Definition spec_chunks (size overlap : nat) (text : JsString) : list JsString :=
  match text with
  | [] => []
  | _ => windows (length text) size overlap text
  end.

(** Modelled from the spec: the constructor of the splitter, absent from
    the sources; section 7 makes a non-positive chunk size and an overlap
    not smaller than the size invalid arguments. *)
Definition spec_constructor (chunkSize chunkOverlap : Z) : JsError + (nat * nat) :=
  if (chunkSize <=? 0)%Z then inl (InvalidArgument "chunkSize must be positive")
  else if (chunkSize <=? chunkOverlap)%Z
       then inl (InvalidArgument "chunkOverlap must be smaller than chunkSize")
       else inr (Z.to_nat chunkSize, Z.to_nat chunkOverlap).

(** Modelled from the spec: [createDocuments] of the splitter, absent from
    the sources; a missing text is an invalid argument (section 7) and every
    chunk of a text carries the metadata given for it (section 4.1). *)
Fixpoint spec_createDocuments (splitter : nat * nat) (texts : list (option JsString))
    (metadatas : list Metadata) : JsError + list Document.t :=
  match texts with
  | [] => inr []
  | text :: texts' =>
    match text with
    | None => inl (InvalidArgument "text is required")
    | Some s =>
      match spec_createDocuments splitter texts' (tail metadatas) with
      | inl e => inl e
      | inr docs =>
        inr (map (fun w => Document.Make w (default ∅ (head metadatas)))
                 (spec_chunks splitter.1 splitter.2 s) ++ docs)
      end
    end
  end.

(** Modelled from the spec: the RecursiveCharacterTextSplitter of the
    langchain package, which the repository imports and whose code is not
    among its sources.  From sections 4.1 and 7: a non-positive chunk size,
    an overlap not smaller than the size and a missing text are invalid
    arguments; the text is cut into windows of at most [chunkSize]
    characters, a boundary preferring the largest separator in reach
    (paragraph break, line break, space, any position); each window after
    the first starts with the last [chunkOverlap] characters of the one
    before; every chunk carries the metadata given. *)
Definition spec_splitter : TextSplitterLib :=
  {| Splitter := nat * nat;
     RecursiveCharacterTextSplitter := spec_constructor;
     createDocuments := spec_createDocuments |}.


(** * Vocabulary of the properties *)

(** [reads n x y]: state [y] is [x] after reading [n] more characters. *)
Definition reads (n : nat) (x y : mstate) : Prop :=
  exists w, length w = n /\ remaining x = w ++ remaining y /\
            consumed y = rev w ++ consumed x.

(** The least number of characters a match of the regex reads. *)
Fixpoint min_len (r : regex) : nat :=
  match r with
  | Eps | Bol | Eol => 0
  | Cls _ => 1
  | Cat r1 r2 => min_len r1 + min_len r2
  | Alt r1 r2 => min_len r1 `min` min_len r2
  | Rep mn mx _ r' =>
    match mx with
    | Some m => (mn `min` m) * min_len r'
    | None => mn * min_len r'
    end
  | Grp _ r' => min_len r'
  end.

(** What a successful run of a matcher guarantees: the continuation was
    entered at least [k] characters further on and gave the result. *)
Definition advances (k : nat) (m : cont -> mstate -> option mstate) : Prop :=
  forall c x z, m c x = Some z ->
    exists y n, reads n x y /\ k <= n /\ c y = Some z.

(** [keeps ns x y]: the captures of [y] are those of [x] except at [ns]. *)
Definition keeps (ns : list nat) (x y : mstate) : Prop :=
  forall k, k ∉ ns -> get_capture k y = get_capture k x.

(** The groups that have a value after every successful match. *)
Fixpoint sure_groups (r : regex) : list nat :=
  match r with
  | Cat r1 r2 => filter (fun k => k ∉ group_ids r2) (sure_groups r1) ++ sure_groups r2
  | Grp n r' => n :: sure_groups r'
  | _ => []
  end.

(** What a successful run of a matcher guarantees of the captures: those
    outside [ids] are kept and those of [sure] have a value. *)
Definition captures_ok (ids sure : list nat) (m : cont -> mstate -> option mstate)
    : Prop :=
  forall c x z, m c x = Some z ->
    exists y, keeps ids x y /\
      (forall k, k ∈ sure -> is_Some (get_capture k y)) /\ c y = Some z.

(** A matcher is local when it consults its continuation only at states
    with no more input left than the state it starts from. *)
Definition local (m : cont -> mstate -> option mstate) : Prop :=
  forall c c' x,
    (forall y, length (remaining y) <= length (remaining x) -> c y = c' y) ->
    m c x = m c' x.

(** Every character of the modelled range. *)
Definition all_chars : list ascii := map ascii_of_nat (seq 0 256).

(** [only a p]: the class [p] holds the character [a] and no other. *)
Definition only (a : ascii) (p : ascii -> bool) : bool :=
  forallb (fun c => implb (p c) (Ascii.eqb c a)) all_chars.

(** [must_read a r]: every match of [r] reads the character [a]. *)
Fixpoint must_read (a : ascii) (r : regex) : bool :=
  match r with
  | Cls p => only a p
  | Cat r1 r2 => must_read a r1 || must_read a r2
  | Alt r1 r2 => must_read a r1 && must_read a r2
  | Rep mn mx _ r' =>
    negb (mn =? 0) && negb (bool_decide (mx = Some 0)) && must_read a r'
  | Grp _ r' => must_read a r'
  | _ => false
  end.

(** [reads_text w x y]: state [y] is [x] after reading [w]. *)
Definition reads_text (w : list ascii) (x y : mstate) : Prop :=
  remaining x = w ++ remaining y /\ consumed y = rev w ++ consumed x.

(** The matches [exec] yields in turn, from [lastIndex] on. *)
Fixpoint matches_from (fuel : nat) (r : regex) (pre rest : list ascii)
    : option (list MatchResult) :=
  match fuel with
  | 0 => None
  | S fuel' =>
    match search r pre rest with
    | None => Some []
    | Some m => cons m <$> matches_from fuel' r (consumed (last m)) (remaining (last m))
    end
  end.

(** The matches of the loop over [exec] from the start of the text. *)
Definition all_matches (r : regex) (text : JsString) : option (list MatchResult) :=
  matches_from (S (length text)) r [] text.

(** The request with another [language]. *)
Definition with_language (language : option JsString) (params : Params.t) : Params.t :=
  Params.Make (Params.text params) (Params.chunkSize params)
    (Params.chunkOverlap params) (Params.metadata params) language.

(** A text with a [js] block and a [Python] block. *)
Definition two_blocks : JsString :=
  js "```js" ++ [LF] ++ js "f()" ++ [LF] ++ js "```" ++ [LF] ++
  js "```Python" ++ [LF] ++ js "g()" ++ [LF] ++ js "```".

(** [p+], [p*] and [p{n,}] read the longest run of [p] first and give
    characters back one at a time. *)
Fixpoint greedy_class (p : ascii -> bool) (mn : nat) (c : cont)
    (pre rest : list ascii) (caps : list (option JsString)) : option mstate :=
  match rest with
  | a :: rest' =>
    if p a then
      match greedy_class p (pred mn) c (a :: pre) rest' caps with
      | Some z => Some z
      | None => if mn =? 0 then c (MState pre rest caps) else None
      end
    else if mn =? 0 then c (MState pre rest caps) else None
  | [] => if mn =? 0 then c (MState pre rest caps) else None
  end.

(** The run of [p] ends where [tail] begins. *)
Definition stops (p : ascii -> bool) (tail : list ascii) : Prop :=
  match tail with
  | [] => True
  | a :: _ => p a = false
  end.

(** White space that does not end a line. *)
Definition blank (c : ascii) : Prop :=
  is_space c = true /\ is_line_terminator c = false.

(** A line of the form [| a | b |]: two cells between bars, the cells free
    of line terminators, and blanks after the last bar. *)
Definition table_row (l : JsString) : Prop :=
  exists a b w,
    l = "|"%char :: a ++ "|"%char :: b ++ "|"%char :: w /\
    Forall (fun c => dot c = true) a /\
    Forall (fun c => dot c = true) b /\
    Forall blank w.

(** The same with the cells taken together. *)
Definition bar_line (l : JsString) : Prop :=
  exists body w,
    l = "|"%char :: body ++ "|"%char :: w /\
    body <> [] /\ Forall (fun c => dot c = true) body /\ Forall blank w.

(** What may follow a row: the end of the text, or a line break and a bar. *)
Definition row_tail (tail : list ascii) : Prop :=
  tail = [] \/ exists t, tail = LF :: "|"%char :: t.

(** [lines.join("\n")] *)
Fixpoint join_lines (lines : list JsString) : JsString :=
  match lines with
  | [] => []
  | [l] => l
  | l :: ls => l ++ LF :: join_lines ls
  end.



(** Modelled from the spec: the splitter of the langchain package is not
    among the sources; section 7 lists "overlap >= size" as an invalid
    argument, reported as an error. *)
Definition rejects_overlap (lib : TextSplitterLib) : Prop :=
  forall size overlap text metadata,
    (size <= overlap)%Z -> exists e, split_text lib size overlap text metadata = Throws e.




(** A request with a text and sizes only. *)
Definition chunk_params (text : JsString) (chunkSize chunkOverlap : option Z) : Params.t :=
  Params.Make (Some text) chunkSize chunkOverlap None None.


(** * Vocabulary of the further properties *)

(** ** What a match reads and captures *)

(** The greatest number of characters a match of the regex reads, when
    there is one. *)
Fixpoint max_len (r : regex) : option nat :=
  match r with
  | Eps | Bol | Eol => Some 0
  | Cls _ => Some 1
  | Cat r1 r2 =>
    match max_len r1, max_len r2 with
    | Some a, Some b => Some (a + b)
    | _, _ => None
    end
  | Alt r1 r2 =>
    match max_len r1, max_len r2 with
    | Some a, Some b => Some (a `max` b)
    | _, _ => None
    end
  | Rep _ mx _ r' =>
    match mx, max_len r' with
    | Some b, Some m => Some (b * m)
    | _, _ => None
    end
  | Grp _ r' => max_len r'
  end.

(** Every character of the class [q] is in the class [p]. *)
Definition subclass (q p : ascii -> bool) : bool :=
  forallb (fun c => implb (q c) (p c)) all_chars.

(** [reads_only p r]: a match of [r] reads characters of [p] only. *)
Fixpoint reads_only (p : ascii -> bool) (r : regex) : bool :=
  match r with
  | Cls q => subclass q p
  | Cat r1 r2 | Alt r1 r2 => reads_only p r1 && reads_only p r2
  | Rep _ _ _ r' | Grp _ r' => reads_only p r'
  | _ => true
  end.

(** What is known of the text [w] a match of [r] read. *)
Definition run_facts (r : regex) (w : list ascii) : Prop :=
  min_len r <= length w /\
  (forall b, max_len r = Some b -> length w <= b) /\
  (forall p, reads_only p r = true -> Forall (fun c => p c = true) w).

(** [cap_ok k P x]: group [k], when it has a value in [x], has one of [P]. *)
Definition cap_ok (k : nat) (P : JsString -> Prop) (x : mstate) : Prop :=
  forall v, get_capture k x = Some v -> P v.

(** [groups_ok k P r]: whatever group [k] captures inside [r] is of [P]. *)
Fixpoint groups_ok (k : nat) (P : JsString -> Prop) (r : regex) : Prop :=
  match r with
  | Cat r1 r2 | Alt r1 r2 => groups_ok k P r1 /\ groups_ok k P r2
  | Rep _ _ _ r' => groups_ok k P r'
  | Grp n r' => groups_ok k P r' /\ (n = k -> forall w, run_facts r' w -> P w)
  | _ => True
  end.

(** What a successful run of a matcher guarantees, with the text read. *)
Definition traces (R : list ascii -> Prop) (inv : mstate -> Prop)
    (m : cont -> mstate -> option mstate) : Prop :=
  forall c x z, m c x = Some z -> inv x ->
    exists y w, reads_text w x y /\ R w /\ inv y /\ c y = Some z.

(** [ordered R l]: every element of [l] is in relation [R] with every later
    one. *)
Fixpoint ordered {A : Type} (R : A -> A -> Prop) (l : list A) : Prop :=
  match l with
  | [] => True
  | a :: l' => Forall (R a) l' /\ ordered R l'
  end.

(** ** Headings *)

(** The heading the loop body adds for a match. *)
Definition heading_of (m : MatchResult) : Heading.t :=
  Heading.Make (length (default [] (group 1 m))) (trim (default [] (group 2 m)))
    (index m).

(** [heading_in text h]: the heading [h] as it lies in [text]: at the start
    of a line, 1 to 6 hash marks, white space, and a body that runs to the
    end of its line. *)
Definition heading_in (text : JsString) (h : Heading.t) : Prop :=
  exists before spaces body after,
    text = before ++ replicate (Heading.level h) "#"%char ++ spaces ++ body ++ after /\
    Heading.position h = length before /\
    1 <= Heading.level h <= 6 /\
    at_bol (MState (rev before) [] []) = true /\
    spaces <> [] /\ Forall (fun c => is_space c = true) spaces /\
    body <> [] /\ Forall (fun c => dot c = true) body /\
    at_eol (MState [] after []) = true /\
    Heading.text h = trim body.

(** ** Code blocks *)

(** The language of a block: ["unknown"], or lower-case letters and digits;
    its code: without white space at either end. *)
Definition well_formed_block (b : CodeBlock.t) : Prop :=
  (CodeBlock.language b = js "unknown" \/
   (CodeBlock.language b <> [] /\
    Forall (fun c => is_lower c || is_digit c = true) (CodeBlock.language b))) /\
  (forall c, head (CodeBlock.code b) = Some c -> is_space c = false) /\
  (forall c, head (rev (CodeBlock.code b)) = Some c -> is_space c = false).

(** ** Words *)

(** The number of maximal runs of characters other than white space;
    [inside] tells whether the character before [s] belongs to such a run. *)
Fixpoint count_words (inside : bool) (s : JsString) : nat :=
  match s with
  | [] => 0
  | c :: s' =>
    if is_space c then count_words false s'
    else (if inside then 0 else 1) + count_words true s'
  end.

(** [pieces.filter(w => w.length > 0).length] *)
Definition count_nonempty (l : list JsString) : nat :=
  length (filter (fun w => nonempty w = true) l).

(** ** Paragraphs *)

(** The pieces of a split with the separators between them. *)
Fixpoint weave (pieces seps : list JsString) : JsString :=
  match pieces, seps with
  | p :: ps, s :: ss => p ++ s ++ weave ps ss
  | p :: _, [] => p
  | [], _ => []
  end.

(** [pieces.filter(p => p.trim().length > 0).length] *)
Definition count_paragraphs (pieces : list JsString) : nat :=
  length (filter (fun p => nonempty (trim p) = true) pieces).

(** ** Lines and the items that open them *)

(** The lines of a text: one more than its line terminators. *)
Definition line_count (text : JsString) : nat :=
  S (length (filter (fun c => is_line_terminator c = true) text)).

(** [opens p pre rest]: 1 when the position between [pre] and [rest] is the
    start of a line and the first character other than white space from
    there on is one of [p]; 0 otherwise. *)
Definition opens (p : ascii -> bool) (pre rest : list ascii) : nat :=
  if at_bol (MState pre [] []) then
    match head (trimStart rest) with
    | Some c => if p c then 1 else 0
    | None => 0
    end
  else 0.

(** The sum of [f] over the positions from [pre | rest] to the end. *)
Fixpoint total (f : list ascii -> list ascii -> nat) (pre rest : list ascii) : nat :=
  f pre rest +
  match rest with
  | [] => 0
  | a :: rest' => total f (a :: pre) rest'
  end.

(** ** Where code blocks come from *)

Definition fence : JsString := js "```".

(** An indented line: blanks or tabs, at least one; the rest of the line;
    the line feed. *)
Definition indented_line (l : JsString) : Prop :=
  exists indent content,
    l = indent ++ content ++ [LF] /\ indent <> [] /\
    Forall (fun c => one_of [SP; TAB] c = true) indent /\
    Forall (fun c => none_of [LF] c = true) content.

(** A line of blanks and tabs only, from the start of a line. *)
Definition blank_lead (pre lead : list ascii) : Prop :=
  at_bol (MState pre [] []) = true /\
  exists indent, lead = indent ++ [LF] /\
    Forall (fun c => one_of [SP; TAB] c = true) indent.

(** [block_in text b]: the code block [b] as it lies in [text]: a fenced
    block with a tag, a fenced block without one, or a run of indented
    lines.  A fenced block with nothing between the tag and the closing
    fence has the whole of its text for code. *)
Definition block_in (text : JsString) (b : CodeBlock.t) : Prop :=
  (exists before name body after,
     text = before ++ fence ++ name ++ LF :: body ++ fence ++ after /\
     name <> [] /\ Forall (fun c => is_alnum c = true) name /\
     CodeBlock.language b = toLowerCase name /\
     CodeBlock.code b =
       trim (if body is [] then fence ++ name ++ LF :: fence else body)) \/
  (exists before body after,
     text = before ++ fence ++ body ++ fence ++ after /\
     CodeBlock.language b = js "unknown" /\
     CodeBlock.code b = trim (if body is [] then fence ++ fence else body)) \/
  (exists before lead lines after,
     text = before ++ lead ++ concat lines ++ after /\
     lines <> [] /\ Forall indented_line lines /\
     (lead = [] \/ blank_lead (rev before) lead) /\
     CodeBlock.language b = js "unknown" /\
     CodeBlock.code b = trim (lead ++ concat lines)).

(** ** Paragraphs, counted *)

(** Where a reader of the text stands: [Between] paragraphs (at the start,
    or after white space with two line feeds), [Within] a paragraph, or
    within one and [AfterLF], a line feed with white space only since. *)
Inductive par_state : Type := Between | Within | AfterLF.

Definition par_step (st : par_state) (c : ascii) : par_state :=
  if is_char LF c then
    match st with
    | Between => Between
    | Within => AfterLF
    | AfterLF => Between
    end
  else if is_space c then st else Within.

(** The paragraphs that start in [s], for a reader in state [st]. *)
Fixpoint par_count (st : par_state) (s : JsString) : nat :=
  match s with
  | [] => 0
  | c :: s' =>
    (if is_space c then 0 else match st with Between => 1 | _ => 0 end) +
    par_count (par_step st c) s'
  end.

Definition inline_space (c : ascii) : Prop := is_space c = true /\ is_char LF c = false.

(** No line feed in the white space ahead. *)
Definition line_goes_on (rest : list ascii) : Prop :=
  exists ws tail, rest = ws ++ tail /\ Forall inline_space ws /\ stops is_space tail.

Definition counts_one (st : par_state) : nat :=
  match st with Between => 0 | _ => 1 end.

(** Whether a string holds a character other than white space. *)
Definition has_text (s : list ascii) : bool := existsb (fun c => negb (is_space c)) s.

(** ** load_document *)

(** The request of [load_document]. *)
Module LoadParams.
Record t : Type := Make {
  filePath : option JsString
}.
End LoadParams.

(** The [document] of a successful [load_document]. *)
Module LoadedDocument.
Record t : Type := Make {
  pageContent : JsString;
  metadata : Metadata;
  fileName : JsString;
  fileType : JsString
}.
End LoadedDocument.

(** What [load_document] returns: [{success: true, document}] or
    [{success: false, error}]. *)
Inductive LoadResult : Type :=
| Loaded (document : LoadedDocument.t)
| NotLoaded (error : JsString).

(** What the handler requires from outside: [path.extname] and
    [path.basename] on strings, [fs.existsSync], and for each loader of the
    langchain package [new Loader(filePath)] followed by [await
    loader.load()], which gives the documents or throws. *)
Record FileLib : Type := {
  extname : JsString -> JsString;
  basename : JsString -> JsString;
  existsSync : JsString -> bool;
  PDFLoader : JsString -> JsError + list Document.t;
  DocxLoader : JsString -> JsError + list Document.t;
  TextLoader : JsString -> JsError + list Document.t
}.

Definition DQUOTE : ascii := "034"%char.

(** [path.extname(undefined)] throws. *)
Definition TypeError_path : JsError :=
  MkError (js "The " ++ [DQUOTE] ++ js "path" ++ [DQUOTE] ++
           js " argument must be of type string. Received undefined").

Definition path_argument (v : option JsString) : Outcome JsString :=
  match v with
  | Some s => Returns s
  | None => Throws TypeError_path
  end.

(** [pieces.join(sep)] *)
Fixpoint join (sep : JsString) (pieces : list JsString) : JsString :=
  match pieces with
  | [] => []
  | [p] => p
  | p :: ps => p ++ sep ++ join sep ps
  end.

(** [docs.length > 0 ? docs[0].metadata : {}] *)
Definition first_metadata (docs : list Document.t) : Metadata :=
  match docs with
  | doc :: _ => Document.metadata doc
  | [] => ∅
  end.

Section LoadDocument.
Variable lib : FileLib.

(** The [switch]: the loader for an extension, if it has one. *)
Definition loader_for (fileExtension : JsString)
    : option (JsString -> JsError + list Document.t) :=
  if js_eqb fileExtension (js ".pdf") then Some (PDFLoader lib)
  else if js_eqb fileExtension (js ".docx") then Some (DocxLoader lib)
  else if js_eqb fileExtension (js ".txt") || js_eqb fileExtension (js ".md")
  then Some (TextLoader lib)
  else None.

(** The [try] block of the handler. *)
Definition load_document_body (params : LoadParams.t) : Outcome LoadResult :=
  let filePath := LoadParams.filePath params in
  let! path := path_argument filePath in
  let fileExtension := toLowerCase (extname lib path) in
  if negb (existsSync lib path)
  then Returns (NotLoaded (js "File not found: " ++ path))
  else
    match loader_for fileExtension with
    | None => Returns (NotLoaded (js "Unsupported file type: " ++ fileExtension))
    | Some load =>
      let! docs := settle (load path) in
      Returns (Loaded (LoadedDocument.Make
        (join [LF; LF] (map Document.pageContent docs))
        (first_metadata docs)
        (basename lib path)
        (drop 1 fileExtension)))
    end.

(** [catch (error) { return { success: false, error: error.message }; }] *)
Definition load_failure (error : JsError) : Outcome LoadResult :=
  Returns (NotLoaded (message error)).

Definition load_document (params : LoadParams.t) : Outcome LoadResult :=
  try_catch (load_document_body params) load_failure.
End LoadDocument.

(** The documents the loader gave for a request that loads. *)
Definition pages_of (lib : FileLib) (params : LoadParams.t) (pages : list Document.t) : Prop :=
  exists path load,
    LoadParams.filePath params = Some path /\
    loader_for lib (toLowerCase (extname lib path)) = Some load /\
    load path = inr pages.

(** The word count of a text, as [analyze_document_structure] reports it. *)
Definition reports_words (text : JsString) (n : nat) : Prop :=
  exists report,
    analyze_document_structure (text_only text) = Returns (StructureResult report) /\
    StructureReport.wordCount report = n.

(** A file system with one kind of file: every path exists, has the
    extension [.MD] and loads as two pages. *)
Definition two_page_lib : FileLib := {|
  extname := fun _ => js ".MD";
  basename := fun path => path;
  existsSync := fun _ => true;
  PDFLoader := fun _ => inl (MkError (js "not a PDF"));
  DocxLoader := fun _ => inl (MkError (js "not a DOCX"));
  TextLoader := fun _ =>
    inr [Document.Make (js "one two") ∅; Document.Make (js "three") ∅]
|}.

Definition notes_request : LoadParams.t := LoadParams.Make (Some (js "notes.MD")).

Definition notes_document : LoadedDocument.t :=
  LoadedDocument.Make (js "one two" ++ [LF; LF] ++ js "three") ∅ (js "notes.MD") (js "md").

(** ** A fenced block, extracted *)

Definition no_backtick (s : list ascii) : Prop :=
  Forall (fun c => is_char "`" c = false) s.

(** ** Lists in a document *)

(** What follows a line: nothing, or a line feed. *)
Definition line_tail (tail : list ascii) : Prop :=
  tail = [] \/ exists t, tail = LF :: t.

(** A line of a document with a list: an item of the list, or another
    line. *)
Inductive ListLine : Type :=
| ItemLine (l : JsString)
| OtherLine (l : JsString).

Definition list_line_text (line : ListLine) : JsString :=
  match line with
  | ItemLine l | OtherLine l => l
  end.

Fixpoint count_items (doc : list ListLine) : nat :=
  match doc with
  | [] => 0
  | ItemLine _ :: rest => S (count_items rest)
  | OtherLine _ :: rest => count_items rest
  end.

(** A bullet item on a line of its own: blanks, a mark, blanks, and text
    that starts with a character other than white space and holds no line
    terminator. *)
Definition bullet_line (l : JsString) : Prop :=
  exists indent mark spaces b body,
    l = indent ++ mark :: spaces ++ b :: body /\
    Forall blank indent /\ one_of ["-"; "*"; "+"]%char mark = true /\
    spaces <> [] /\ Forall blank spaces /\
    is_space b = false /\ Forall (fun c => dot c = true) (b :: body).

(** A numbered item on a line of its own: blanks, digits, a full stop,
    blanks, and text as for a bullet item. *)
Definition numbered_line (l : JsString) : Prop :=
  exists indent digits spaces b body,
    l = indent ++ digits ++ "."%char :: spaces ++ b :: body /\
    Forall blank indent /\ digits <> [] /\ Forall (fun c => is_digit c = true) digits /\
    spaces <> [] /\ Forall blank spaces /\
    is_space b = false /\ Forall (fun c => dot c = true) (b :: body).

(** A line that is no item: it holds no line terminator, and its first
    character other than white space, if it has one, is not of [mark]. *)
Definition other_line (mark : ascii -> bool) (l : JsString) : Prop :=
  Forall (fun c => dot c = true) l /\
  match head (trimStart l) with
  | Some c => mark c = false
  | None => True
  end.

Definition well_formed_list_line (item : JsString -> Prop) (mark : ascii -> bool)
    (line : ListLine) : Prop :=
  match line with
  | ItemLine l => item l
  | OtherLine l => other_line mark l
  end.

(** What the first character of the rest of the text has to be for no item
    to start in the white space before it. *)
Definition no_mark_ahead (mark : ascii -> bool) (rest : list ascii) : Prop :=
  match rest with
  | [] => True
  | c :: _ => is_space c = false /\ mark c = false
  end.

(** A shopping list with a title, a blank line and two bullet items. *)
Definition shopping_list : list ListLine :=
  [OtherLine (js "To buy:"); OtherLine []; ItemLine (js "- milk");
   ItemLine (js "  * two eggs")].

(** The same with numbered items. *)
Definition numbered_list : list ListLine :=
  [OtherLine (js "To buy:"); OtherLine []; ItemLine (js "1. milk");
   ItemLine (js " 12. two eggs")].

(** ** The database tool *)

(** The configuration [init_database_connection] passes to [new Pool]. *)
Module PoolConfig.
Record t : Type := Make {
  host : option JsString;
  port : Z;
  database : option JsString;
  user : option JsString;
  password : option JsString
}.
End PoolConfig.

(** The request of [init_database_connection]. *)
Module InitParams.
Record t : Type := Make {
  host : option JsString;
  port : option Z;
  database : option JsString;
  user : option JsString;
  password : option JsString
}.
End InitParams.

(** The request of [execute_query]. *)
Module QueryParams.
Record t : Type := Make {
  query : option JsString;
  params : option (list JsString)
}.
End QueryParams.

(** The request of [get_table_schema]. *)
Module SchemaParams.
Record t : Type := Make {
  table : option JsString;
  schema : option JsString
}.
End SchemaParams.

(** The request of [list_tables]. *)
Module ListParams.
Record t : Type := Make {
  schema : option JsString
}.
End ListParams.

(** A row of a query result: column names to values. *)
Abbreviation Row := (gmap string JsValue).

(** What [pool.query] resolves to. *)
Module QueryResult.
Record t : Type := Make {
  rows : list Row;
  rowCount : option Z
}.
End QueryResult.

(** The pg package and the databases behind it: [World] is all that a call
    can read or change.  [new Pool(config)], [pool.connect()],
    [client.release()] and [pool.query(text, values)] each give a value or
    throw, and leave a world. *)
Record PgLib : Type := {
  World : Type;
  Pool : Type;
  Client : Type;
  new_Pool : PoolConfig.t -> World -> (JsError + Pool) * World;
  pool_connect : Pool -> World -> (JsError + Client) * World;
  client_release : Client -> World -> (JsError + unit) * World;
  pool_query :
    Pool -> option JsString -> list (option JsString) -> World ->
    (JsError + QueryResult.t) * World
}.

(** What the handlers of the database tool return. *)
Inductive DbResult : Type :=
| InitOk (message : JsString)
| QueryOk (data : list Row) (rowCount : option Z)
| SchemaOk (schema : list Row)
| TablesOk (tables : list (option JsValue))
| DbFailure (error : JsString).

(** [value || fallback] on a string that may be absent: the empty string is
    falsy. *)
Definition or_string (value : option JsString) (fallback : JsString) : JsString :=
  match value with
  | Some (c :: s) => c :: s
  | _ => fallback
  end.

(** The query of [get_table_schema], as the template literal spells it. *)
Definition schema_query : JsString :=
  join_lines
    [js "";
     js "        SELECT ";
     js "          column_name, ";
     js "          data_type, ";
     js "          is_nullable, ";
     js "          column_default";
     js "        FROM ";
     js "          information_schema.columns";
     js "        WHERE ";
     js "          table_schema = $1 AND table_name = $2";
     js "        ORDER BY ";
     js "          ordinal_position;";
     js "      "].

(** The query of [list_tables]. *)
Definition tables_query : JsString :=
  join_lines
    [js "";
     js "        SELECT ";
     js "          table_name";
     js "        FROM ";
     js "          information_schema.tables";
     js "        WHERE ";
     js "          table_schema = $1";
     js "        ORDER BY ";
     js "          table_name;";
     js "      "].

Definition not_initialized : JsString := js "Database connection not initialized".

(** A piece of a handler that works on the variables of its module and on
    the world outside: from a state to a value or an exception, and a
    state. *)
Definition Act (S A : Type) : Type := S -> (JsError + A) * S.

Definition act_ret {S A : Type} (a : A) : Act S A := fun s => (inr a, s).

Definition act_bind {S A B : Type} (c : Act S A) (k : A -> Act S B) : Act S B :=
  fun s =>
    match c s with
    | (inr a, s') => k a s'
    | (inl e, s') => (inl e, s')
    end.

(** Reading a member of a value that may be [undefined]. *)
Definition act_member {S A : Type} (v : option A) (prop : string) : Act S A :=
  fun s =>
    match v with
    | Some a => (inr a, s)
    | None => (inl (TypeError_undefined prop), s)
    end.

(** [try { body } catch (error) { return { success: false, error:
    error.message }; }] *)
Definition guarded {S R : Type} (failure : JsString -> R) (body : Act S R) : S -> R * S :=
  fun s =>
    match body s with
    | (inr r, s') => (r, s')
    | (inl e, s') => (failure (message e), s')
    end.

Section DatabaseTool.
Variable pg : PgLib.

(** The state of the module: the variable [pool], [undefined] at first, and
    the world outside. *)
Record DbState : Type := MkDbState {
  pool : option (Pool pg);
  world : World pg
}.

(** A call into the package. *)
Definition call {A : Type} (f : World pg -> (JsError + A) * World pg) : Act DbState A :=
  fun s => let (r, w) := f (world s) in (r, MkDbState (pool s) w).

(** [pool = value] *)
Definition set_pool (p : Pool pg) : Act DbState unit :=
  fun s => (inr tt, MkDbState (Some p) (world s)).

Definition config_of (params : InitParams.t) : PoolConfig.t :=
  PoolConfig.Make (InitParams.host params) (or_number (InitParams.port params) 5432)
    (InitParams.database params) (InitParams.user params) (InitParams.password params).

Definition init_database_connection (params : InitParams.t)
    : DbState -> DbResult * DbState :=
  guarded DbFailure
    (act_bind (call (new_Pool pg (config_of params))) (fun p =>
     act_bind (set_pool p) (fun _ =>
     act_bind (call (pool_connect pg p)) (fun client =>
     act_bind (call (client_release pg client)) (fun _ =>
     act_ret (InitOk (js "Database connection initialized successfully"))))))).

(** [if (!pool) return {success: false, error: ...}], then the rest. *)
Definition with_pool (rest : Pool pg -> Act DbState DbResult) : Act DbState DbResult :=
  fun s =>
    match pool s with
    | None => (inr (DbFailure not_initialized), s)
    | Some p => rest p s
    end.

Definition execute_query (params : QueryParams.t) : DbState -> DbResult * DbState :=
  guarded DbFailure (with_pool (fun p =>
    act_bind (call (pool_query pg p (QueryParams.query params)
                      (map Some (default [] (QueryParams.params params))))) (fun result =>
    act_ret (QueryOk (QueryResult.rows result) (QueryResult.rowCount result))))).

Definition get_table_schema (params : SchemaParams.t) : DbState -> DbResult * DbState :=
  guarded DbFailure (with_pool (fun p =>
    let schema := or_string (SchemaParams.schema params) (js "public") in
    act_bind (call (pool_query pg p (Some schema_query)
                      [Some schema; SchemaParams.table params])) (fun result =>
    act_ret (SchemaOk (QueryResult.rows result))))).

Definition list_tables (params : ListParams.t) : DbState -> DbResult * DbState :=
  guarded DbFailure (with_pool (fun p =>
    let schema := or_string (ListParams.schema params) (js "public") in
    act_bind (call (pool_query pg p (Some tables_query) [Some schema])) (fun result =>
    act_ret (TablesOk (map (fun row : Row => row !! "table_name"%string)
                         (QueryResult.rows result)))))).

(** A request to the tool. *)
Inductive DbRequest : Type :=
| InitDatabaseConnection (params : InitParams.t)
| ExecuteQuery (params : QueryParams.t)
| GetTableSchema (params : SchemaParams.t)
| ListTables (params : ListParams.t).

Definition handle (request : DbRequest) : DbState -> DbResult * DbState :=
  match request with
  | InitDatabaseConnection params => init_database_connection params
  | ExecuteQuery params => execute_query params
  | GetTableSchema params => get_table_schema params
  | ListTables params => list_tables params
  end.

(** Requests handled one after the other. *)
Fixpoint serve (requests : list DbRequest) (s : DbState) : list DbResult * DbState :=
  match requests with
  | [] => ([], s)
  | request :: rest =>
    let (r, s') := handle request s in
    let (rs, s'') := serve rest s' in
    (r :: rs, s'')
  end.

Definition is_init (request : DbRequest) : bool :=
  match request with
  | InitDatabaseConnection _ => true
  | _ => false
  end.
End DatabaseTool.

(** A package that cannot reach its server: every pool is built, no
    connection is made.  The world counts the calls. *)
Definition unreachable_pg : PgLib := {|
  World := nat;
  Pool := PoolConfig.t;
  Client := unit;
  new_Pool := fun config w => (inr config, S w);
  pool_connect := fun _ w => (inl (MkError (js "connect ECONNREFUSED")), S w);
  client_release := fun _ w => (inr tt, S w);
  pool_query := fun _ _ _ w => (inl (MkError (js "connect ECONNREFUSED")), S w)
|}.

Definition two_queries : list DbRequest :=
  [ExecuteQuery (QueryParams.Make (Some (js "SELECT 1")) None);
   ListTables (ListParams.Make None)].

Definition local_database : InitParams.t :=
  InitParams.Make (Some (js "localhost")) None (Some (js "metis")) (Some (js "metis"))
    (Some (js "secret")).

(** ** The vector store tool *)

(** The request of [init_vector_store]. *)
Module StoreParams.
Record t : Type := Make {
  host : option JsString;
  port : option Z
}.
End StoreParams.

(** The request of [get_or_create_collection]; its [embeddingFunction] is
    not read. *)
Module CollectionParams.
Record t : Type := Make {
  name : option JsString;
  metadata : option Metadata
}.
End CollectionParams.

(** The request of [add_documents]. *)
Module AddParams.
Record t : Type := Make {
  documents : option (list JsString);
  metadatas : option (list Metadata);
  ids : option (list JsString)
}.
End AddParams.

(** The request of [query_collection]. *)
Module SearchParams.
Record t : Type := Make {
  queryTexts : option (list JsString);
  nResults : option Z;
  filter : option Metadata
}.
End SearchParams.

(** The request of [delete_documents]. *)
Module DeleteParams.
Record t : Type := Make {
  ids : option (list JsString)
}.
End DeleteParams.

(** The chromadb package and the server behind it.  [new
    ChromaClient({path})], [client.heartbeat()],
    [client.getOrCreateCollection({name, metadata})], [collection.add],
    [collection.query] and [collection.delete] each give a value or throw,
    and leave a world. *)
Record ChromaLib : Type := {
  Store : Type;
  ChromaClient : Type;
  Collection : Type;
  QueryResults : Type;
  new_ChromaClient : JsString -> Store -> (JsError + ChromaClient) * Store;
  heartbeat : ChromaClient -> Store -> (JsError + unit) * Store;
  getOrCreateCollection :
    ChromaClient -> option JsString -> Metadata -> Store -> (JsError + Collection) * Store;
  collection_add :
    Collection -> option (list JsString) -> list Metadata -> option (list JsString) ->
    Store -> (JsError + unit) * Store;
  collection_query :
    Collection -> option (list JsString) -> Z -> option Metadata ->
    Store -> (JsError + QueryResults) * Store;
  collection_delete :
    Collection -> option (list JsString) -> Store -> (JsError + unit) * Store
}.

(** A whole number in a template literal: its decimal digits. *)
Definition number_text (n : Z) : JsString :=
  js (NilZero.string_of_int (Z.to_int n)).

(** [`http://${params.host}:${params.port || 8000}`] *)
Definition store_path (params : StoreParams.t) : JsString :=
  js "http://" ++ ToString (StoreParams.host params) ++ js ":" ++
  number_text (or_number (StoreParams.port params) 8000).

Definition collection_not_initialized : JsString := js "Collection not initialized".

Section VectorStoreTool.
Variable chroma : ChromaLib.

(** What the handlers of the vector store tool return. *)
Inductive StoreResult : Type :=
| StoreOk (message : JsString)
| CollectionOk (message : JsString) (collectionName : option JsString)
| CountOk (message : JsString) (count : nat)
| ResultsOk (results : QueryResults chroma)
| StoreFailure (error : JsString).

(** The state of the module: the variables [client] and [collection], both
    [undefined] at first, and the world outside. *)
Record StoreState : Type := MkStoreState {
  client : option (ChromaClient chroma);
  collection : option (Collection chroma);
  store : Store chroma
}.

(** A call into the package. *)
Definition store_call {A : Type} (f : Store chroma -> (JsError + A) * Store chroma)
    : Act StoreState A :=
  fun s => let (r, w) := f (store s) in (r, MkStoreState (client s) (collection s) w).

(** [client = value] *)
Definition set_client (c : ChromaClient chroma) : Act StoreState unit :=
  fun s => (inr tt, MkStoreState (Some c) (collection s) (store s)).

(** [collection = value] *)
Definition set_collection (c : Collection chroma) : Act StoreState unit :=
  fun s => (inr tt, MkStoreState (client s) (Some c) (store s)).

Definition init_vector_store (params : StoreParams.t)
    : StoreState -> StoreResult * StoreState :=
  guarded StoreFailure
    (act_bind (store_call (new_ChromaClient chroma (store_path params))) (fun c =>
     act_bind (set_client c) (fun _ =>
     act_bind (store_call (heartbeat chroma c)) (fun _ =>
     act_ret (StoreOk (js "Vector store connection initialized successfully")))))).

Definition get_or_create_collection (params : CollectionParams.t)
    : StoreState -> StoreResult * StoreState :=
  guarded StoreFailure (fun s =>
    match client s with
    | None => (inr (StoreFailure (js "Vector store connection not initialized")), s)
    | Some c =>
      act_bind (store_call (getOrCreateCollection chroma c (CollectionParams.name params)
                              (default ∅ (CollectionParams.metadata params)))) (fun col =>
      act_bind (set_collection col) (fun _ =>
      act_ret (CollectionOk
        (js "Collection '" ++ ToString (CollectionParams.name params) ++
         js "' retrieved or created successfully")
        (CollectionParams.name params)))) s
    end).

(** [if (!collection) return {success: false, error: ...}], then the rest. *)
Definition with_collection (rest : Collection chroma -> Act StoreState StoreResult)
    : Act StoreState StoreResult :=
  fun s =>
    match collection s with
    | None => (inr (StoreFailure collection_not_initialized), s)
    | Some col => rest col s
    end.

(** [params.metadatas || Array(params.documents.length).fill({})] *)
Definition metadatas_or_empty (params : AddParams.t) : Act StoreState (list Metadata) :=
  match AddParams.metadatas params with
  | Some metadatas => act_ret metadatas
  | None =>
    act_bind (act_member (AddParams.documents params) "length") (fun documents =>
    act_ret (replicate (length documents) ∅))
  end.

Definition add_documents (params : AddParams.t) : StoreState -> StoreResult * StoreState :=
  guarded StoreFailure (with_collection (fun col =>
    act_bind (metadatas_or_empty params) (fun metadatas =>
    act_bind (store_call (collection_add chroma col (AddParams.documents params) metadatas
                            (AddParams.ids params))) (fun _ =>
    act_bind (act_member (AddParams.documents params) "length") (fun documents =>
    act_ret (CountOk
      (number_text (Z.of_nat (length documents)) ++ js " documents added to the collection")
      (length documents))))))).

Definition query_collection (params : SearchParams.t)
    : StoreState -> StoreResult * StoreState :=
  guarded StoreFailure (with_collection (fun col =>
    act_bind (store_call (collection_query chroma col (SearchParams.queryTexts params)
                            (or_number (SearchParams.nResults params) 10)
                            (SearchParams.filter params))) (fun results =>
    act_ret (ResultsOk results)))).

Definition delete_documents (params : DeleteParams.t)
    : StoreState -> StoreResult * StoreState :=
  guarded StoreFailure (with_collection (fun col =>
    act_bind (store_call (collection_delete chroma col (DeleteParams.ids params))) (fun _ =>
    act_bind (act_member (DeleteParams.ids params) "length") (fun ids =>
    act_ret (CountOk
      (number_text (Z.of_nat (length ids)) ++ js " documents deleted from the collection")
      (length ids)))))).

(** A request to the tool. *)
Inductive StoreRequest : Type :=
| InitVectorStore (params : StoreParams.t)
| GetOrCreateCollection (params : CollectionParams.t)
| AddDocuments (params : AddParams.t)
| QueryCollection (params : SearchParams.t)
| DeleteDocuments (params : DeleteParams.t).

Definition store_handle (request : StoreRequest) : StoreState -> StoreResult * StoreState :=
  match request with
  | InitVectorStore params => init_vector_store params
  | GetOrCreateCollection params => get_or_create_collection params
  | AddDocuments params => add_documents params
  | QueryCollection params => query_collection params
  | DeleteDocuments params => delete_documents params
  end.

(** Requests handled one after the other. *)
Fixpoint store_serve (requests : list StoreRequest) (s : StoreState)
    : list StoreResult * StoreState :=
  match requests with
  | [] => ([], s)
  | request :: rest =>
    let (r, s') := store_handle request s in
    let (rs, s'') := store_serve rest s' in
    (r :: rs, s'')
  end.

(** The requests that set [collection]. *)
Definition opens_collection (request : StoreRequest) : bool :=
  match request with
  | GetOrCreateCollection _ => true
  | _ => false
  end.

(** The requests that work on the documents. *)
Definition on_documents (request : StoreRequest) : bool :=
  match request with
  | AddDocuments _ | QueryCollection _ | DeleteDocuments _ => true
  | _ => false
  end.
End VectorStoreTool.

(** A server kept in memory: a client is its path, a collection the path
    of its client and its name; the world counts the calls. *)
Definition memory_chroma : ChromaLib := {|
  Store := nat;
  ChromaClient := JsString;
  Collection := JsString * option JsString;
  QueryResults := unit;
  new_ChromaClient := fun path w => (inr path, S w);
  heartbeat := fun _ w => (inr tt, S w);
  getOrCreateCollection := fun c name _ w => (inr (c, name), S w);
  collection_add := fun _ _ _ _ w => (inr tt, S w);
  collection_query := fun _ _ _ _ w => (inr tt, S w);
  collection_delete := fun _ _ w => (inr tt, S w)
|}.

Definition notes_collection : CollectionParams.t :=
  CollectionParams.Make (Some (js "notes")) None.

Definition other_server : StoreParams.t :=
  StoreParams.Make (Some (js "backup")) (Some 9000%Z).

Definition move_and_add : list StoreRequest :=
  [InitVectorStore other_server;
   AddDocuments (AddParams.Make (Some [js "a note"]) None (Some [js "n1"]))].

Definition first_server : StoreState memory_chroma :=
  MkStoreState memory_chroma (Some (js "http://main:8000")) None 0.

(** ** Headings, line by line *)

(** A line of a document: a heading with its level, the blanks after the
    hash marks and its body, or another line. *)
Inductive Line : Type :=
| HeadingLine (level : nat) (spaces body : JsString)
| PlainLine (l : JsString).

Definition line_text (line : Line) : JsString :=
  match line with
  | HeadingLine level spaces body => replicate level "#"%char ++ spaces ++ body
  | PlainLine l => l
  end.

(** A heading line has 1 to 6 hash marks, blanks, and a body that starts
    with a character other than white space; another line does not start
    with a hash mark.  No line holds a line terminator. *)
Definition well_formed_line (line : Line) : Prop :=
  match line with
  | HeadingLine level spaces body =>
    1 <= level <= 6 /\ spaces <> [] /\ Forall blank spaces /\
    (exists b rest, body = b :: rest /\ is_space b = false) /\
    Forall (fun c => dot c = true) body
  | PlainLine l => stops (is_char "#") l /\ Forall (fun c => dot c = true) l
  end.

(** The headings of a document whose first line starts at [position]. *)
Fixpoint headings_of_lines (position : nat) (lines : list Line) : list Heading.t :=
  match lines with
  | [] => []
  | line :: rest =>
    match line with
    | HeadingLine level _ body => [Heading.Make level (trim body) position]
    | PlainLine _ => []
    end ++ headings_of_lines (position + length (line_text line) + 1) rest
  end.

Definition readme : list Line :=
  [HeadingLine 1 (js " ") (js "Metis tools");
   PlainLine [];
   PlainLine (js "Tools for the Metis application.");
   HeadingLine 2 (js "  ") (js "Usage  ")].

(** ** An indented block, extracted *)

(** The regex of one indented line. *)
Definition indentedLine : regex :=
  Cat (plus (Cls (one_of [SP; TAB])))
      (Cat (star (Cls (none_of [LF]))) (chr LF)).

(** The regex of the blank line that may lead an indented block. *)
Definition blankLead : regex :=
  Cat Bol (Cat (star (Cls (one_of [SP; TAB]))) (chr LF)).

(** * Examples of the specification *)

(** Section 8: ["one  two\nthree"] has three words. *)
Example word_count_example :
  exists report,
    analyze_document_structure (text_only (js "one  two" ++ [LF] ++ js "three")) =
      Returns (StructureResult report) /\
    StructureReport.wordCount report = 3.
Proof. eexists. split; [vm_compute; reflexivity|reflexivity]. Qed.

(** Section 8: a fenced [js] block gives one block with its code trimmed. *)
Example code_extraction_example :
  extract_code (text_only (js "```js" ++ [LF] ++ js "console.log(1)" ++ [LF] ++ js "```")) =
  Returns (CodeResult [CodeBlock.Make (js "js") (js "console.log(1)")] 1).
Proof. vm_compute. reflexivity. Qed.

(** A request without text: [extract_code] scans the string ["undefined"]
    and succeeds; [analyze_document_structure] fails on [text.split]. *)
Example missing_text_example :
  let params := Params.Make None None None None None in
  extract_code params = Returns (CodeResult [] 0) /\
  analyze_document_structure params =
    Returns (Failure (message (TypeError_undefined "split"))).
Proof. split; vm_compute; reflexivity. Qed.

(** [\s+] of the heading regex runs over line breaks: a heading mark alone
    on its line takes the next line for its text. *)
Example heading_across_lines_example :
  exists report,
    analyze_document_structure (text_only (js "#" ++ [LF] ++ js "next")) =
      Returns (StructureResult report) /\
    StructureReport.headings report = [Heading.Make 1 (js "next") 0].
Proof. eexists. split; [vm_compute; reflexivity|reflexivity]. Qed.

(** * Properties of the matcher *)

Lemma set_capture_consumed n v x : consumed (set_capture n v x) = consumed x.
Proof. reflexivity. Qed.

Lemma set_capture_remaining n v x : remaining (set_capture n v x) = remaining x.
Proof. reflexivity. Qed.

Lemma clear_captures_consumed ns x : consumed (clear_captures ns x) = consumed x.
Proof. induction ns as [|n ns IH]; simpl; [reflexivity | exact IH]. Qed.

Lemma clear_captures_remaining ns x : remaining (clear_captures ns x) = remaining x.
Proof. induction ns as [|n ns IH]; simpl; [reflexivity | exact IH]. Qed.

Lemma reads_refl x : reads 0 x x.
Proof. exists []. simpl. auto. Qed.

Lemma reads_trans n1 n2 x y z : reads n1 x y -> reads n2 y z -> reads (n1 + n2) x z.
Proof.
  intros (w1 & L1 & R1 & C1) (w2 & L2 & R2 & C2).
  exists (w1 ++ w2). rewrite length_app, R1, R2, C2, C1, rev_app_distr.
  rewrite <- !app_assoc. auto with lia.
Qed.

Lemma reads_same_position n x x' y y' :
  consumed x' = consumed x -> remaining x' = remaining x ->
  consumed y' = consumed y -> remaining y' = remaining y ->
  reads n x y -> reads n x' y'.
Proof.
  intros Hc Hr Hc' Hr' (w & L & R & C). exists w.
  rewrite Hc, Hr, Hc', Hr'. auto.
Qed.

Lemma reads_lengths n x y :
  reads n x y ->
  length (remaining x) = n + length (remaining y) /\
  length (consumed y) = n + length (consumed x).
Proof.
  intros (w & L & R & C). rewrite R, C, !length_app, length_rev. lia.
Qed.

Lemma repeat_matcher_advances m parens greedy k :
  advances k m ->
  forall fuel mn mx c x z,
    repeat_matcher m parens greedy fuel mn mx c x = Some z ->
    exists y n, reads n x y /\
      match mx with Some b => (mn `min` b) * k | None => mn * k end <= n /\
      c y = Some z.
Proof.
  intros Hm. induction fuel as [|fuel IH]; intros mn mx c x z H; [discriminate|].
  simpl in H.
  assert (Hstop : c x = Some z ->
    exists y n, reads n x y /\ 0 <= n /\ c y = Some z).
  { intros Hc. exists x, 0. auto using reads_refl with lia. }
  assert (Hturn : forall d,
    d = (fun y => if (mn =? 0) && (length (remaining y) =? length (remaining x))
                  then None
                  else repeat_matcher m parens greedy fuel (pred mn) (pred <$> mx) c y) ->
    (forall b, mx = Some b -> 0 < b) ->
    m d (clear_captures parens x) = Some z ->
    exists y n, reads n x y /\
      match mx with Some b => (mn `min` b) * k | None => mn * k end <= n /\
      c y = Some z).
  { intros d -> Hpos Hd. apply Hm in Hd as (y1 & n1 & R1 & K1 & Hd).
    destruct ((mn =? 0) && _) eqn:E; [discriminate|].
    apply IH in Hd as (y2 & n2 & R2 & K2 & Hc).
    exists y2, (n1 + n2). split.
    - eapply reads_trans; [|exact R2].
      eapply reads_same_position; [..|exact R1];
        auto using clear_captures_consumed, clear_captures_remaining.
    - split; [|exact Hc].
      destruct mx as [b|]; simpl in K2.
      + specialize (Hpos b eq_refl).
        destruct mn as [|mn'], b as [|b']; simpl in *; lia.
      + destruct mn; simpl in *; lia. }
  destruct mx as [[|b]|].
  - apply Hstop in H as (y & n & ? & ? & ?). exists y, n. split_and!; auto; lia.
  - destruct (negb (mn =? 0)) eqn:E.
    + eapply Hturn; eauto. intros ? [= <-]. lia.
    + apply negb_false_iff, Nat.eqb_eq in E. subst mn.
      destruct greedy.
      * destruct (m _ (clear_captures parens x)) eqn:E1.
        -- injection H as ->. eapply Hturn; eauto. intros ? [= <-]. lia.
        -- apply Hstop in H as (y & n & ? & ? & ?). exists y, n. split_and!; auto; lia.
      * destruct (c x) eqn:E1.
        -- injection H as ->. destruct (Hstop eq_refl) as (y & n & ? & ? & ?).
           exists y, n. split_and!; auto; lia.
        -- eapply Hturn; eauto. intros ? [= <-]. lia.
  - destruct (negb (mn =? 0)) eqn:E.
    + eapply Hturn; eauto. intros ? [=].
    + apply negb_false_iff, Nat.eqb_eq in E. subst mn.
      destruct greedy.
      * destruct (m _ (clear_captures parens x)) eqn:E1.
        -- injection H as ->. eapply Hturn; eauto. intros ? [=].
        -- apply Hstop in H as (y & n & ? & ? & ?). exists y, n. split_and!; auto; lia.
      * destruct (c x) eqn:E1.
        -- injection H as ->. destruct (Hstop eq_refl) as (y & n & ? & ? & ?).
           exists y, n. split_and!; auto; lia.
        -- eapply Hturn; eauto. intros ? [=].
Qed.

Lemma rmatch_advances r : advances (min_len r) (rmatch r).
Proof.
  induction r as [|p|r1 IH1 r2 IH2|r1 IH1 r2 IH2|mn mx g r IH|n r IH| |];
    intros c x z H; cbn [rmatch] in H.
  - exists x, 0. auto using reads_refl.
  - destruct (remaining x) as [|a rest] eqn:E; [discriminate|].
    destruct (p a); [|discriminate].
    eexists _, 1. split_and!; [|reflexivity|exact H].
    exists [a]. simpl. auto.
  - apply IH1 in H as (y1 & n1 & R1 & K1 & H).
    apply IH2 in H as (y2 & n2 & R2 & K2 & H).
    exists y2, (n1 + n2). simpl. split_and!; [eapply reads_trans; eauto|lia|exact H].
  - destruct (rmatch r1 c x) eqn:E.
    + injection H as ->. apply IH1 in E as (y & n & ? & ? & ?).
      exists y, n. simpl. split_and!; auto; lia.
    + apply IH2 in H as (y & n & ? & ? & ?).
      exists y, n. simpl. split_and!; auto; lia.
  - eapply repeat_matcher_advances in H as (y & n & ? & ? & ?); [|exact IH].
    exists y, n. simpl. destruct mx; auto.
  - apply IH in H as (y & k & R & K & H).
    exists (set_capture n (Some (between x y)) y), k. split_and!; auto.
  - destruct (at_bol x); [|discriminate]. exists x, 0. auto using reads_refl.
  - destruct (at_eol x); [|discriminate]. exists x, 0. auto using reads_refl.
Qed.

Lemma match_at_reads r pre rest z :
  match_at r pre rest = Some z ->
  exists w, min_len r <= length w /\ rest = w ++ remaining z /\
            consumed z = rev w ++ pre.
Proof.
  intros H. apply rmatch_advances in H as (y & n & (w & L & R & C) & K & [= ->]).
  exists w. simpl in *. subst n. auto.
Qed.

Lemma take_rev_app (w pre : list ascii) :
  rev (take (length (rev w ++ pre) - length pre) (rev w ++ pre)) = w.
Proof.
  rewrite length_app, length_rev.
  replace (length w + length pre - length pre) with (length (rev w))
    by (rewrite length_rev; lia).
  rewrite take_app_length. apply rev_involutive.
Qed.

(** What [exec] found: the text skipped, the text matched and the text left. *)
Lemma search_spec r rest : forall pre m,
  search r pre rest = Some m ->
  exists skipped,
    rest = skipped ++ matched m ++ remaining (last m) /\
    consumed (last m) = rev (matched m) ++ rev skipped ++ pre /\
    index m = length pre + length skipped /\
    min_len r <= length (matched m).
Proof.
  induction rest as [|a rest IH]; intros pre m H; simpl in H.
  - destruct (match_at r pre []) as [e|] eqn:E; [|discriminate].
    injection H as <-. apply match_at_reads in E as (w & K & R & C).
    exists []. simpl. rewrite C, take_rev_app. auto with lia.
  - destruct (match_at r pre (a :: rest)) as [e|] eqn:E.
    + injection H as <-. apply match_at_reads in E as (w & K & R & C).
      exists []. simpl. rewrite C, take_rev_app. auto with lia.
    + apply IH in H as (skipped & R & C & I & K).
      exists (a :: skipped). simpl. rewrite <- R, C, I, <- !app_assoc. simpl.
      auto with lia.
Qed.

Lemma search_remaining r pre rest m :
  search r pre rest = Some m ->
  length (matched m) + length (remaining (last m)) <= length rest /\
  min_len r <= length (matched m).
Proof.
  intros H. apply search_spec in H as (skipped & R & _ & _ & K).
  split; [|exact K]. rewrite R, !length_app. lia.
Qed.

(** The [while] loop over [exec] ends when no match of the regex is empty. *)
Lemma exec_while_terminates {A : Type} r (body : MatchResult -> A -> Outcome A) :
  1 <= min_len r ->
  (forall m a, body m a <> Diverges) ->
  forall fuel pre rest a,
    length rest < fuel -> exec_while fuel r pre rest body a <> Diverges.
Proof.
  intros Hr Hbody. induction fuel as [|fuel IH]; intros pre rest a Hf; [lia|].
  simpl. destruct (search r pre rest) as [m|] eqn:E; [|discriminate].
  apply search_remaining in E as [E1 E2].
  specialize (Hbody m a). destruct (body m a) as [a'| |]; simpl; try done.
  apply IH. lia.
Qed.

Lemma exec_loop_terminates {A : Type} r text (body : MatchResult -> A -> Outcome A) a :
  1 <= min_len r ->
  (forall m a, body m a <> Diverges) ->
  exec_loop r text body a <> Diverges.
Proof. intros. apply exec_while_terminates; auto. Qed.

(** [match] with the [g] flag returns, whatever the regex. *)
Lemma match_from_returns r : forall fuel pre rest A,
  length rest < fuel -> exists l, match_from fuel r pre rest A = Returns l.
Proof.
  induction fuel as [|fuel IH]; intros pre rest A Hf; [lia|].
  simpl. destruct (search r pre rest) as [m|] eqn:E; [|eauto].
  apply search_remaining in E as [E1 _].
  destruct (matched m) as [|b w] eqn:Ew.
  - destruct (remaining (last m)) as [|a rest'] eqn:Er; [eauto|].
    apply IH. simpl in E1. lia.
  - apply IH. simpl in E1. lia.
Qed.

Lemma match_all_returns r text : exists l, match_all r text = Returns l.
Proof. apply match_from_returns. lia. Qed.

(** [split] returns, whatever the regex. *)
Lemma split_from_returns r : forall fuel p cur pre rest A,
  2 * length rest + (if p =? length pre then 0 else 1) < fuel ->
  exists l, split_from fuel r p cur pre rest A = Returns l.
Proof.
  induction fuel as [|fuel IH]; intros p cur pre rest A Hf; [lia|].
  simpl. destruct rest as [|a rest']; [eauto|].
  assert (Hnext : exists l,
    split_from fuel r p (a :: cur) (a :: pre) rest' A = Returns l).
  { apply IH. simpl in *. destruct (p =? S (length pre)); lia. }
  destruct (match_at r pre (a :: rest')) as [z|] eqn:E; [|exact Hnext].
  destruct (endIndex z =? p) eqn:Ep; [exact Hnext|].
  apply IH. unfold endIndex in *. rewrite Nat.eqb_refl.
  apply match_at_reads in E as (w & _ & R & C).
  apply Nat.eqb_neq in Ep. rewrite C, length_app, length_rev in Ep.
  apply (f_equal length) in R. rewrite length_app in R. simpl in *.
  destruct (p =? length pre) eqn:Epp; [apply Nat.eqb_eq in Epp|]; lia.
Qed.

Lemma split_returns r text : exists l, split r text = Returns l.
Proof.
  unfold split. destruct text as [|a text].
  - destruct (match_at r [] []); eauto.
  - apply split_from_returns. simpl. lia.
Qed.

(** ** Captures *)

Lemma get_set_capture k n v x :
  get_capture k (set_capture n v x) = if decide (k = n) then v else get_capture k x.
Proof.
  unfold get_capture, set_capture. simpl.
  set (l := captures x ++ replicate (S n - length (captures x)) None).
  assert (Hl : n < length l).
  { unfold l. rewrite length_app, length_replicate. lia. }
  case_decide as E.
  - subst k. rewrite list_lookup_insert_eq by exact Hl. reflexivity.
  - rewrite list_lookup_insert_ne by congruence. unfold l.
    destruct (decide (k < length (captures x))) as [Hk|Hk].
    + rewrite lookup_app_l by exact Hk. reflexivity.
    + rewrite lookup_app_r by lia.
      rewrite (lookup_ge_None_2 (captures x)) by lia.
      destruct (replicate _ _ !! _) as [o|] eqn:Er; [|reflexivity].
      apply lookup_replicate in Er as [-> _]. reflexivity.
Qed.

Lemma keeps_refl ns x : keeps ns x x.
Proof. intros k _. reflexivity. Qed.

Lemma keeps_trans ns x y z : keeps ns x y -> keeps ns y z -> keeps ns x z.
Proof. intros H1 H2 k Hk. rewrite H2, H1; auto. Qed.

Lemma keeps_weaken ns ns' x y : ns ⊆ ns' -> keeps ns x y -> keeps ns' x y.
Proof. intros Hs H k Hk. apply H. intros Hin. apply Hk, Hs, Hin. Qed.

Lemma keeps_clear_captures ns x : keeps ns x (clear_captures ns x).
Proof.
  intros k Hk. induction ns as [|n ns IH]; simpl; [reflexivity|].
  rewrite get_set_capture. apply not_elem_of_cons in Hk as [Hn Hk].
  case_decide; [congruence|]. apply IH, Hk.
Qed.

Lemma repeat_matcher_captures m parens greedy sure :
  captures_ok parens sure m ->
  forall fuel mn mx, captures_ok parens [] (repeat_matcher m parens greedy fuel mn mx).
Proof.
  intros Hm. induction fuel as [|fuel IH]; intros mn mx c x z H; [discriminate|].
  simpl in H.
  assert (Hstop : forall o, o = c x -> o = Some z ->
    exists y, keeps parens x y /\
      (forall k, k ∈ [] -> is_Some (get_capture k y)) /\ c y = Some z).
  { intros o -> Hc. exists x. split_and!; auto using keeps_refl. intros k Hk.
    inversion Hk. }
  assert (Hturn : forall d,
    d = (fun y => if (mn =? 0) && (length (remaining y) =? length (remaining x))
                  then None
                  else repeat_matcher m parens greedy fuel (pred mn) (pred <$> mx) c y) ->
    m d (clear_captures parens x) = Some z ->
    exists y, keeps parens x y /\
      (forall k, k ∈ [] -> is_Some (get_capture k y)) /\ c y = Some z).
  { intros d -> Hd. apply Hm in Hd as (y1 & K1 & _ & Hd).
    destruct ((mn =? 0) && _); [discriminate|].
    apply IH in Hd as (y2 & K2 & S2 & Hc).
    exists y2. split_and!; auto.
    eapply keeps_trans; [apply keeps_clear_captures|].
    eapply keeps_trans; eauto. }
  destruct mx as [[|b]|]; [eapply Hstop; eauto| |].
  all: destruct (negb (mn =? 0)); [eapply Hturn; eauto|].
  all: destruct greedy.
  all: match type of H with
       | match ?o with _ => _ end = _ => destruct o eqn:E1
       end.
  all: try (injection H as ->).
  all: first [ eapply Hturn; solve [eauto] | eapply Hstop; solve [eauto] ].
Qed.

Lemma rmatch_captures r : captures_ok (group_ids r) (sure_groups r) (rmatch r).
Proof.
  induction r as [|p|r1 IH1 r2 IH2|r1 IH1 r2 IH2|mn mx g r IH|n r IH| |];
    intros c x z H; cbn [rmatch] in H; simpl.
  - exists x. split_and!; auto using keeps_refl. intros k Hk. inversion Hk.
  - destruct (remaining x) as [|a rest]; [discriminate|].
    destruct (p a); [|discriminate].
    eexists. split_and!; [|intros k Hk; inversion Hk|exact H].
    intros k _. reflexivity.
  - apply IH1 in H as (y1 & K1 & S1 & H). apply IH2 in H as (y2 & K2 & S2 & H).
    exists y2. split_and!; [| |exact H].
    + apply keeps_trans with y1;
        [apply (keeps_weaken (group_ids r1))|apply (keeps_weaken (group_ids r2))];
        auto; intros k; rewrite elem_of_app; tauto.
    + intros k [Hk|Hk]%elem_of_app; [|auto].
      apply list_elem_of_filter in Hk as [Hk2 Hk1].
      rewrite K2 by exact Hk2. auto.
  - destruct (rmatch r1 c x) eqn:E.
    + injection H as ->. apply IH1 in E as (y & K & _ & H).
      exists y. split_and!; [|intros k Hk; inversion Hk|exact H].
      apply (keeps_weaken (group_ids r1)); auto.
      intros k; rewrite elem_of_app; tauto.
    + apply IH2 in H as (y & K & _ & H).
      exists y. split_and!; [|intros k Hk; inversion Hk|exact H].
      apply (keeps_weaken (group_ids r2)); auto.
      intros k; rewrite elem_of_app; tauto.
  - eapply repeat_matcher_captures in H; [exact H|exact IH].
  - apply IH in H as (y & K & S & H).
    eexists. split_and!; [| |exact H].
    + intros k Hk. apply not_elem_of_cons in Hk as [Hn Hk].
      rewrite get_set_capture. case_decide; [congruence|]. apply K, Hk.
    + intros k Hk. rewrite get_set_capture. case_decide; [eauto|].
      apply elem_of_cons in Hk as [?|Hk]; [congruence|]. auto.
  - destruct (at_bol x); [|discriminate].
    exists x. split_and!; auto using keeps_refl. intros k Hk. inversion Hk.
  - destruct (at_eol x); [|discriminate].
    exists x. split_and!; auto using keeps_refl. intros k Hk. inversion Hk.
Qed.

Lemma search_captures r rest : forall pre m,
  search r pre rest = Some m ->
  forall k, k ∈ sure_groups r -> is_Some (get_capture k (last m)).
Proof.
  assert (Hat : forall pre rest e, match_at r pre rest = Some e ->
    forall k, k ∈ sure_groups r -> is_Some (get_capture k e)).
  { intros pre rest' e H. apply rmatch_captures in H as (y & _ & S & [= ->]).
    exact S. }
  induction rest as [|a rest IH]; intros pre m H; simpl in H.
  - destruct (match_at r pre []) eqn:E; [|discriminate].
    injection H as <-. eauto.
  - destruct (match_at r pre (a :: rest)) eqn:E; [|eauto].
    injection H as <-. eauto.
Qed.

(** ** The fuel of a quantifier *)

Lemma repeat_matcher_local m parens greedy :
  local m -> forall fuel mn mx, local (repeat_matcher m parens greedy fuel mn mx).
Proof.
  intros Hm. induction fuel as [|fuel IH]; intros mn mx c c' x H; [reflexivity|].
  simpl. rewrite (H x) by lia.
  assert (Hd : m (fun y =>
      if (mn =? 0) && (length (remaining y) =? length (remaining x)) then None
      else repeat_matcher m parens greedy fuel (pred mn) (pred <$> mx) c y)
      (clear_captures parens x) =
    m (fun y =>
      if (mn =? 0) && (length (remaining y) =? length (remaining x)) then None
      else repeat_matcher m parens greedy fuel (pred mn) (pred <$> mx) c' y)
      (clear_captures parens x)).
  { apply Hm. intros y Hy. rewrite clear_captures_remaining in Hy.
    destruct ((mn =? 0) && _); [reflexivity|].
    apply IH. intros z Hz. apply H. lia. }
  rewrite Hd. reflexivity.
Qed.

Lemma rmatch_local r : local (rmatch r).
Proof.
  induction r as [|p|r1 IH1 r2 IH2|r1 IH1 r2 IH2|mn mx g r IH|n r IH| |];
    intros c c' x H; cbn [rmatch].
  - apply H. lia.
  - destruct (remaining x) as [|a rest] eqn:E; [reflexivity|].
    destruct (p a); [|reflexivity]. apply H. simpl. lia.
  - apply IH1. intros y Hy. apply IH2. intros z Hz. apply H. lia.
  - rewrite (IH1 c c' x H), (IH2 c c' x H). reflexivity.
  - apply repeat_matcher_local; [exact IH|exact H].
  - apply IH. intros y Hy. apply H. rewrite set_capture_remaining. exact Hy.
  - rewrite (H x) by lia. reflexivity.
  - rewrite (H x) by lia. reflexivity.
Qed.

(** Past [repeat_fuel] the fuel of a quantifier plays no part: no match is
    lost to it. *)
Lemma repeat_matcher_fuel m parens greedy :
  local m ->
  forall fuel fuel' mn mx c x,
    mn + length (remaining x) < fuel -> mn + length (remaining x) < fuel' ->
    repeat_matcher m parens greedy fuel mn mx c x =
    repeat_matcher m parens greedy fuel' mn mx c x.
Proof.
  intros Hm. induction fuel as [|fuel IH]; intros fuel' mn mx c x Hf Hf'; [lia|].
  destruct fuel' as [|fuel']; [lia|]. simpl.
  assert (Hd : m (fun y =>
      if (mn =? 0) && (length (remaining y) =? length (remaining x)) then None
      else repeat_matcher m parens greedy fuel (pred mn) (pred <$> mx) c y)
      (clear_captures parens x) =
    m (fun y =>
      if (mn =? 0) && (length (remaining y) =? length (remaining x)) then None
      else repeat_matcher m parens greedy fuel' (pred mn) (pred <$> mx) c y)
      (clear_captures parens x)).
  { apply Hm. intros y Hy. rewrite clear_captures_remaining in Hy.
    destruct (mn =? 0) eqn:E0; simpl.
    - apply Nat.eqb_eq in E0. subst mn.
      destruct (length (remaining y) =? length (remaining x)) eqn:E; [reflexivity|].
      apply Nat.eqb_neq in E. apply IH; simpl in *; lia.
    - apply Nat.eqb_neq in E0. apply IH; lia. }
  rewrite Hd. reflexivity.
Qed.

Lemma rmatch_rep_fuel mn mx greedy r c x fuel :
  mn + length (remaining x) < fuel ->
  rmatch (Rep mn mx greedy r) c x =
  repeat_matcher (rmatch r) (group_ids r) greedy fuel mn mx c x.
Proof.
  intros Hf. cbn [rmatch]. apply repeat_matcher_fuel; [apply rmatch_local| |exact Hf].
  unfold repeat_fuel. lia.
Qed.

(** ** What a match has to read *)

Lemma all_chars_complete c : c ∈ all_chars.
Proof.
  unfold all_chars. rewrite <- (ascii_nat_embedding c).
  apply list_elem_of_fmap. exists (nat_of_ascii c). split; [reflexivity|].
  apply elem_of_seq. pose proof (nat_ascii_bounded c). lia.
Qed.

Lemma only_spec a p c : only a p = true -> p c = true -> c = a.
Proof.
  unfold only. rewrite forallb_forall. intros H Hp.
  specialize (H c (proj1 (list_elem_of_In _ _) (all_chars_complete c))).
  rewrite Hp in H. simpl in H. apply Ascii.eqb_eq, H.
Qed.

Lemma reads_reads_text n x y : reads n x y -> exists w, reads_text w x y.
Proof. intros (w & _ & R & C). exists w. split; assumption. Qed.

Lemma reads_text_trans w1 w2 x y z :
  reads_text w1 x y -> reads_text w2 y z -> reads_text (w1 ++ w2) x z.
Proof.
  intros [R1 C1] [R2 C2]. split.
  - rewrite R1, R2, app_assoc. reflexivity.
  - rewrite C2, C1, rev_app_distr, app_assoc. reflexivity.
Qed.

Lemma rmatch_must_read a r :
  must_read a r = true ->
  forall c x z, rmatch r c x = Some z ->
    exists y w, reads_text w x y /\ a ∈ w /\ c y = Some z.
Proof.
  induction r as [|p|r1 IH1 r2 IH2|r1 IH1 r2 IH2|mn mx g r IH|n r IH| |];
    intros Hr c x z H; cbn [rmatch must_read] in *; try discriminate.
  - destruct (remaining x) as [|b rest] eqn:E; [discriminate|].
    destruct (p b) eqn:Ep; [|discriminate].
    apply (only_spec _ _ _ Hr) in Ep. subst b.
    eexists _, [a]. split; [|split; [set_solver|exact H]].
    split; [exact E|reflexivity].
  - apply orb_true_iff in Hr as [Hr|Hr].
    + apply (IH1 Hr) in H as (y1 & w1 & R1 & Ha & H).
      apply rmatch_advances in H as (y2 & n2 & [w2 R2]%reads_reads_text & _ & H).
      exists y2, (w1 ++ w2). split; [|split; [set_solver|exact H]].
      eapply reads_text_trans; eauto.
    + apply rmatch_advances in H as (y1 & n1 & [w1 R1]%reads_reads_text & _ & H).
      apply (IH2 Hr) in H as (y2 & w2 & R2 & Ha & H).
      exists y2, (w1 ++ w2). split; [|split; [set_solver|exact H]].
      eapply reads_text_trans; eauto.
  - apply andb_true_iff in Hr as [Hr1 Hr2].
    destruct (rmatch r1 c x) eqn:E.
    + injection H as ->. exact (IH1 Hr1 _ _ _ E).
    + exact (IH2 Hr2 _ _ _ H).
  - apply andb_true_iff in Hr as [[Hmn Hmx]%andb_true_iff Hr].
    apply negb_true_iff in Hmn. apply negb_true_iff, bool_decide_eq_false in Hmx.
    unfold repeat_fuel in H. simpl in H.
    assert (Hgo : rmatch r (fun y =>
        if (mn =? 0) && (length (remaining y) =? length (remaining x)) then None
        else repeat_matcher (rmatch r) (group_ids r) g (mn + length (remaining x))
               (pred mn) (pred <$> mx) c y) (clear_captures (group_ids r) x) = Some z).
    { destruct mx as [[|b]|]; [done| |]; rewrite Hmn in H |- *; exact H. }
    apply (IH Hr) in Hgo as (y1 & w1 & [R1 C1] & Ha & Hgo).
    rewrite Hmn in Hgo. simpl in Hgo.
    eapply repeat_matcher_advances in Hgo
      as (y2 & n2 & [w2 R2]%reads_reads_text & _ & Hgo); [|apply rmatch_advances].
    exists y2, (w1 ++ w2). split; [|split; [set_solver|exact Hgo]].
    eapply reads_text_trans; [|exact R2].
    rewrite clear_captures_remaining in R1. rewrite clear_captures_consumed in C1.
    split; assumption.
  - apply (IH Hr) in H as (y & w & R & Ha & H).
    exists (set_capture n (Some (between x y)) y), w.
    split; [exact R|split; [exact Ha|exact H]].
Qed.

(** A match attempt fails on a text that lacks a character every match has
    to read. *)
Lemma match_at_must_read a r pre rest :
  must_read a r = true -> a ∉ rest -> match_at r pre rest = None.
Proof.
  intros Hr Ha. destruct (match_at r pre rest) as [z|] eqn:E; [|reflexivity].
  apply (rmatch_must_read a r Hr) in E as (y & w & [R _] & Hw & _).
  simpl in R. exfalso. apply Ha. rewrite R. set_solver.
Qed.

(** ** The loop over [exec] *)

Lemma matches_from_is_Some r :
  1 <= min_len r ->
  forall fuel pre rest, length rest < fuel -> is_Some (matches_from fuel r pre rest).
Proof.
  intros Hr. induction fuel as [|fuel IH]; intros pre rest Hf; [lia|].
  simpl. destruct (search r pre rest) as [m|] eqn:E; [|eauto].
  apply search_remaining in E as [E1 E2].
  destruct (IH (consumed (last m)) (remaining (last m))) as [ms ->]; [lia|].
  simpl. eauto.
Qed.

(** A loop whose body cannot fail is a fold over the matches. *)
Lemma exec_while_fold {A : Type} r (f : MatchResult -> A -> A) :
  forall fuel pre rest a,
    exec_while fuel r pre rest (fun m a => Returns (f m a)) a =
    match matches_from fuel r pre rest with
    | Some ms => Returns (foldl (fun a m => f m a) a ms)
    | None => Diverges
    end.
Proof.
  induction fuel as [|fuel IH]; intros pre rest a; [reflexivity|].
  simpl. destruct (search r pre rest) as [m|]; [|reflexivity].
  simpl. rewrite IH. destruct (matches_from fuel r _ _); reflexivity.
Qed.

Lemma exec_while_ext {A : Type} r (body body' : MatchResult -> A -> Outcome A) :
  (forall m a, body m a = body' m a) ->
  forall fuel pre rest a,
    exec_while fuel r pre rest body a = exec_while fuel r pre rest body' a.
Proof.
  intros Hb. induction fuel as [|fuel IH]; intros pre rest a; [reflexivity|].
  simpl. destruct (search r pre rest) as [m|]; [|reflexivity].
  rewrite Hb. destruct (body' m a); simpl; auto.
Qed.

(** A loop whose body returns on every match [exec] can yield returns. *)
Lemma exec_while_returns {A : Type} r (body : MatchResult -> A -> Outcome A) :
  1 <= min_len r ->
  (forall pre rest m a, search r pre rest = Some m -> exists a', body m a = Returns a') ->
  forall fuel pre rest a,
    length rest < fuel -> exists a', exec_while fuel r pre rest body a = Returns a'.
Proof.
  intros Hr Hbody. induction fuel as [|fuel IH]; intros pre rest a Hf; [lia|].
  simpl. destruct (search r pre rest) as [m|] eqn:E; [|eauto].
  destruct (Hbody _ _ _ a E) as [a' ->]. simpl.
  apply search_remaining in E as [E1 E2]. apply IH. lia.
Qed.

(** * extract_code *)

Lemma codeBlockRegex_min_len : min_len codeBlockRegex = 2.
Proof. reflexivity. Qed.

Lemma collect_block_fold language ms : forall codeBlocks,
  foldl (fun bs m =>
           if wanted language (blockLanguage m) then bs ++ [block_of_match m] else bs)
        codeBlocks ms =
  codeBlocks ++
    map block_of_match (filter (fun m => wanted language (blockLanguage m) = true) ms).
Proof.
  induction ms as [|m ms IH]; intros bs; simpl.
  - rewrite app_nil_r. reflexivity.
  - rewrite IH. rewrite filter_cons.
    destruct (wanted language (blockLanguage m)) eqn:E.
    + rewrite decide_True by reflexivity. simpl. rewrite <- app_assoc. reflexivity.
    + rewrite decide_False by discriminate. reflexivity.
Qed.

(** What [extract_code] returns, from the matches of the regex. *)
Lemma extract_code_matches (params : Params.t) :
  exists ms,
    all_matches codeBlockRegex (ToString (Params.text params)) = Some ms /\
    let codeBlocks :=
      map block_of_match
        (filter (fun m => wanted (requested_language params) (blockLanguage m) = true) ms) in
    extract_code params = Returns (CodeResult codeBlocks (length codeBlocks)).
Proof.
  destruct (matches_from_is_Some codeBlockRegex ltac:(rewrite codeBlockRegex_min_len; lia)
              (S (length (ToString (Params.text params)))) []
              (ToString (Params.text params)) ltac:(lia)) as [ms Hms].
  exists ms. split; [exact Hms|].
  unfold extract_code, extract_code_body, exec_loop.
  rewrite (exec_while_ext _ _
    (fun m bs => Returns
       (if wanted (requested_language params) (blockLanguage m)
        then bs ++ [block_of_match m] else bs))).
  - rewrite exec_while_fold. unfold all_matches in Hms. rewrite Hms.
    rewrite collect_block_fold. reflexivity.
  - intros m bs. unfold collect_block. destruct (wanted _ _); reflexivity.
Qed.

Lemma lower_char_idempotent c : lower_char (lower_char c) = lower_char c.
Proof. destruct c as [[] [] [] [] [] [] [] []]; reflexivity. Qed.

Lemma toLowerCase_idempotent s : toLowerCase (toLowerCase s) = toLowerCase s.
Proof.
  unfold toLowerCase. rewrite map_map. apply map_ext. intros c.
  apply lower_char_idempotent.
Qed.

Lemma toLowerCase_nil_inv s : toLowerCase s = [] -> s = [].
Proof. destruct s; [reflexivity|discriminate]. Qed.

(** The language of a block is in lower case. *)
Lemma blockLanguage_lower m : toLowerCase (blockLanguage m) = blockLanguage m.
Proof.
  unfold blockLanguage. destruct (truthy_string (group 1 m)).
  - apply toLowerCase_idempotent.
  - reflexivity.
Qed.

Lemma filter_wanted_none (ms : list MatchResult) :
  filter (fun m => wanted None (blockLanguage m) = true) ms = ms.
Proof.
  induction ms as [|m ms IH]; [reflexivity|].
  rewrite filter_cons, decide_True by reflexivity. rewrite IH. reflexivity.
Qed.

Lemma filter_wanted_some L (ms : list MatchResult) :
  L <> [] ->
  map block_of_match
    (filter (fun m => wanted (Some (toLowerCase L)) (blockLanguage m) = true) ms) =
  filter (fun b => toLowerCase (CodeBlock.language b) = toLowerCase L)
    (map block_of_match ms).
Proof.
  intros HL. induction ms as [|m ms IH]; [reflexivity|].
  simpl. rewrite !filter_cons. simpl. rewrite blockLanguage_lower.
  assert (Hw : wanted (Some (toLowerCase L)) (blockLanguage m) = true <->
               blockLanguage m = toLowerCase L).
  { unfold wanted, js_eqb. simpl.
    destruct (toLowerCase L) eqn:E; [apply toLowerCase_nil_inv in E; done|].
    simpl. rewrite bool_decide_eq_true. reflexivity. }
  destruct (decide (blockLanguage m = toLowerCase L)) as [Heq|Hne].
  - rewrite decide_True by (apply Hw, Heq). simpl. rewrite IH. reflexivity.
  - rewrite decide_False by (rewrite Hw; exact Hne). exact IH.
Qed.

(** C6, as amended.  For every text and every non-empty language argument
    [L], [extract_code] with [L] returns exactly the blocks of the unfiltered
    result whose language equals [L] without regard to case, in the same
    order; without a language argument, or with the empty one, it returns
    the block of every match of the regex. *)
Theorem extract_code_language_filter (params : Params.t) (L : JsString) :
  L <> [] ->
  exists ms,
    all_matches codeBlockRegex (ToString (Params.text params)) = Some ms /\
    let all := map block_of_match ms in
    let kept :=
      filter (fun b => toLowerCase (CodeBlock.language b) = toLowerCase L) all in
    extract_code (with_language None params) = Returns (CodeResult all (length all)) /\
    extract_code (with_language (Some []) params) = Returns (CodeResult all (length all)) /\
    extract_code (with_language (Some L) params) = Returns (CodeResult kept (length kept)).
Proof.
  intros HL.
  destruct (extract_code_matches (with_language None params)) as (ms & Hms & Hnone).
  destruct (extract_code_matches (with_language (Some L) params)) as (ms' & Hms' & Hsome).
  simpl in Hms, Hms'. rewrite Hms in Hms'. injection Hms' as <-.
  exists ms. split; [exact Hms|]. cbv zeta in *.
  assert (Hall : extract_code (with_language None params) =
                 Returns (CodeResult (map block_of_match ms)
                            (length (map block_of_match ms)))).
  { rewrite Hnone. unfold requested_language. simpl.
    rewrite filter_wanted_none. reflexivity. }
  split_and!.
  - exact Hall.
  - exact Hall.
  - rewrite Hsome. unfold requested_language. simpl.
    destruct L as [|a L]; [done|]. simpl truthy_string. cbv iota.
    change (Some (lower_char a :: map lower_char L)) with (Some (toLowerCase (a :: L))).
    rewrite filter_wanted_some by done. reflexivity.
Qed.

Lemma extract_code_language_filter_witness :
  js "JS" <> [] /\
  exists ms,
    all_matches codeBlockRegex (ToString (Params.text (text_only two_blocks))) = Some ms /\
    let all := map block_of_match ms in
    let kept :=
      filter (fun b => toLowerCase (CodeBlock.language b) = toLowerCase (js "JS")) all in
    extract_code (with_language None (text_only two_blocks)) =
      Returns (CodeResult all (length all)) /\
    extract_code (with_language (Some []) (text_only two_blocks)) =
      Returns (CodeResult all (length all)) /\
    extract_code (with_language (Some (js "JS")) (text_only two_blocks)) =
      Returns (CodeResult kept (length kept)).
Proof.
  split; [discriminate|].
  apply (extract_code_language_filter (text_only two_blocks) (js "JS")). discriminate.
Defined.

(** C6 as stated fails for the empty language argument: the handler takes it
    for no argument and returns every block, none of which has the empty
    language. *)
Lemma extract_code_empty_language_counterexample :
  let text := js "```js" ++ [LF] ++ js "f()" ++ [LF] ++ js "```" in
  let all := [CodeBlock.Make (js "js") (js "f()")] in
  extract_code (with_language None (text_only text)) = Returns (CodeResult all 1) /\
  filter (fun b => toLowerCase (CodeBlock.language b) = toLowerCase []) all = [] /\
  extract_code (with_language (Some []) (text_only text)) = Returns (CodeResult all 1).
Proof. vm_compute. auto. Qed.

(** ** A greedy quantifier over a character class *)

Lemma repeat_matcher_greedy_class p c caps rest : forall fuel mn pre,
  mn + length rest < fuel ->
  repeat_matcher (rmatch (Cls p)) [] true fuel mn None c (MState pre rest caps) =
  greedy_class p mn c pre rest caps.
Proof.
  induction rest as [|a rest IH]; intros fuel mn pre Hf;
    (destruct fuel as [|fuel]; [lia|]); simpl.
  - destruct mn; reflexivity.
  - destruct (p a) eqn:Ep.
    + destruct mn as [|mn]; simpl.
      * replace (length rest =? S (length rest)) with false
          by (symmetry; apply Nat.eqb_neq; lia).
        rewrite IH by (simpl in Hf; lia). reflexivity.
      * rewrite IH by (simpl in Hf; lia).
        destruct (greedy_class p mn c (a :: pre) rest caps); reflexivity.
    + destruct mn; reflexivity.
Qed.

Lemma rmatch_greedy_class p mn c pre rest caps :
  rmatch (Rep mn None true (Cls p)) c (MState pre rest caps) =
  greedy_class p mn c pre rest caps.
Proof.
  cbn [rmatch]. apply repeat_matcher_greedy_class. unfold repeat_fuel. simpl. lia.
Qed.

Lemma greedy_class_fails p c caps v : forall tail pre mn,
  Forall (fun a => p a = true) v -> stops p tail ->
  (forall v1 v2, v = v1 ++ v2 -> mn <= length v1 ->
     c (MState (rev v1 ++ pre) (v2 ++ tail) caps) = None) ->
  greedy_class p mn c pre (v ++ tail) caps = None.
Proof.
  induction v as [|b v IH]; intros tail pre mn Hv Hstop Hc; simpl.
  - assert (H0 : (mn =? 0) = true -> c (MState pre tail caps) = None).
    { intros E%Nat.eqb_eq. apply (Hc [] []); simpl; [reflexivity|lia]. }
    destruct tail as [|a tail]; simpl in *.
    + destruct (mn =? 0); auto.
    + rewrite Hstop. destruct (mn =? 0); auto.
  - inversion Hv as [|? ? Hb Hv']; subst. rewrite Hb.
    rewrite IH; auto.
    + destruct (mn =? 0) eqn:E; [|reflexivity].
      apply Nat.eqb_eq in E. apply (Hc [] (b :: v)); simpl; [reflexivity|lia].
    + intros v1 v2 -> Hlen. specialize (Hc (b :: v1) v2).
      simpl in Hc. rewrite <- app_assoc in Hc. apply Hc; [reflexivity|lia].
Qed.

Lemma greedy_class_found p c caps u : forall v tail pre mn z,
  Forall (fun a => p a = true) (u ++ v) -> stops p tail ->
  mn <= length u ->
  c (MState (rev u ++ pre) (v ++ tail) caps) = Some z ->
  (forall v1 v2, v = v1 ++ v2 -> v1 <> [] ->
     c (MState (rev v1 ++ rev u ++ pre) (v2 ++ tail) caps) = None) ->
  greedy_class p mn c pre (u ++ v ++ tail) caps = Some z.
Proof.
  induction u as [|a u IH]; intros v tail pre mn z Huv Hstop Hmn Hz Hlonger.
  - simpl in *. assert (mn = 0) as -> by lia.
    destruct v as [|b v]; simpl.
    + destruct tail as [|a tail]; simpl in *; [exact Hz|]. rewrite Hstop. exact Hz.
    + inversion Huv as [|? ? Hb Hv']; subst. rewrite Hb.
      rewrite greedy_class_fails; auto.
      intros v1 v2 -> _. specialize (Hlonger (b :: v1) v2).
      simpl in Hlonger. rewrite <- app_assoc in Hlonger. apply Hlonger; done.
  - simpl in *. inversion Huv as [|? ? Ha Huv']; subst. rewrite Ha.
    erewrite IH; eauto.
    + lia.
    + rewrite <- app_assoc in Hz. exact Hz.
    + intros v1 v2 Hv Hne. specialize (Hlonger v1 v2 Hv Hne).
      rewrite <- app_assoc in Hlonger. exact Hlonger.
Qed.

(** * analyze_document_structure *)

Lemma headingRegex_min_len : min_len headingRegex = 3.
Proof. reflexivity. Qed.

(** Both groups of the heading regex have a value on every match, so the
    loop body never reads a property of [undefined]. *)
Lemma collect_heading_returns pre rest m headings :
  search headingRegex pre rest = Some m ->
  exists headings', collect_heading m headings = Returns headings'.
Proof.
  intros H. unfold collect_heading.
  destruct (search_captures _ _ _ _ H 1) as [g1 E1]; [set_solver|].
  destruct (search_captures _ _ _ _ H 2) as [g2 E2]; [set_solver|].
  simpl. rewrite E1, E2. simpl. eauto.
Qed.

Lemma heading_loop_returns text :
  exists headings, exec_loop headingRegex text collect_heading [] = Returns headings.
Proof.
  apply exec_while_returns; [rewrite headingRegex_min_len; lia| |lia].
  intros pre rest m a H. eapply collect_heading_returns, H.
Qed.

(** The report for a text, field by field. *)
Lemma analyze_report (params : Params.t) (text : JsString) :
  Params.text params = Some text ->
  exists headings pieces bulletListItems numberedListItems tableRows tokens,
    exec_loop headingRegex text collect_heading [] = Returns headings /\
    split paragraphRegex text = Returns pieces /\
    match_all bulletListRegex text = Returns bulletListItems /\
    match_all numberedListRegex text = Returns numberedListItems /\
    match_all tableRegex text = Returns tableRows /\
    split wordRegex text = Returns tokens /\
    analyze_document_structure params =
      Returns (StructureResult
        (StructureReport.Make headings
           (length (filter (fun p => nonempty (trim p) = true) pieces))
           (length bulletListItems) (length numberedListItems) (length tableRows)
           (length text)
           (length (filter (fun w => nonempty w = true) tokens)))).
Proof.
  intros Ht.
  destruct (heading_loop_returns text) as [headings Hh].
  destruct (split_returns paragraphRegex text) as [pieces Hp].
  destruct (match_all_returns bulletListRegex text) as [bs Hb].
  destruct (match_all_returns numberedListRegex text) as [ns Hn].
  destruct (match_all_returns tableRegex text) as [ts Hts].
  destruct (split_returns wordRegex text) as [ws Hw].
  exists headings, pieces, bs, ns, ts, ws. split_and!; auto.
  unfold analyze_document_structure, analyze_document_structure_body.
  rewrite Ht. simpl. rewrite Hh. simpl. rewrite Hp. simpl. rewrite Hb. simpl.
  rewrite Hn. simpl. rewrite Hts. simpl. rewrite Hw. reflexivity.
Qed.

(** ** Table rows *)

Lemma table_row_bar_line l : table_row l -> bar_line l.
Proof.
  intros (a & b & w & -> & Ha & Hb & Hw).
  exists (a ++ "|"%char :: b), w. rewrite <- app_assoc. split_and!; auto.
  - destruct a; discriminate.
  - apply Forall_app. split; [exact Ha|]. constructor; [reflexivity|exact Hb].
Qed.

Lemma blank_dot c : blank c -> dot c = true.
Proof. intros [_ H]. unfold dot. rewrite H. reflexivity. Qed.

Lemma blank_not_bar c : blank c -> is_char "|" c = false.
Proof.
  intros [H _]. destruct (is_char "|" c) eqn:E; [|reflexivity].
  apply Ascii.eqb_eq in E. subst c. discriminate.
Qed.

(** The matcher, one construct at a time. *)
Lemma rmatch_cat r1 r2 c x : rmatch (Cat r1 r2) c x = rmatch r1 (rmatch r2 c) x.
Proof. reflexivity. Qed.

Lemma rmatch_grp n r c x :
  rmatch (Grp n r) c x = rmatch r (fun y => c (set_capture n (Some (between x y)) y)) x.
Proof. reflexivity. Qed.

Lemma rmatch_bol c x : at_bol x = true -> rmatch Bol c x = c x.
Proof. intros H. cbn [rmatch]. rewrite H. reflexivity. Qed.

Lemma rmatch_bol_fails c x : at_bol x = false -> rmatch Bol c x = None.
Proof. intros H. cbn [rmatch]. rewrite H. reflexivity. Qed.

Lemma rmatch_cls_hit p c pre a rest caps :
  p a = true ->
  rmatch (Cls p) c (MState pre (a :: rest) caps) = c (MState (a :: pre) rest caps).
Proof. intros H. cbn [rmatch remaining consumed captures]. rewrite H. reflexivity. Qed.

Lemma rmatch_cls_miss p c pre rest caps :
  stops p rest -> rmatch (Cls p) c (MState pre rest caps) = None.
Proof.
  intros H. cbn [rmatch remaining]. destruct rest as [|a rest]; [reflexivity|].
  simpl in H. rewrite H. reflexivity.
Qed.

(** After the last bar: [\s*$] reads the blanks and stops before the line
    break. *)
Lemma blanks_then_eol pre w tail caps :
  Forall blank w -> row_tail tail ->
  rmatch (Cat (star (Cls is_space)) Eol) Some (MState pre (w ++ tail) caps) =
  Some (MState (rev w ++ pre) tail caps).
Proof.
  intros Hw Htail. cbn [rmatch]. unfold star.
  change (repeat_matcher _ _ _ _ _ _ _ _) with
    (rmatch (Rep 0 None true (Cls is_space)) (rmatch Eol Some)
       (MState pre (w ++ tail) caps)).
  rewrite rmatch_greedy_class.
  assert (Hsp : Forall (fun a => is_space a = true) w).
  { eapply Forall_impl; [exact Hw|]. intros c [H _]. exact H. }
  destruct Htail as [->|[t ->]].
  - rewrite <- (app_nil_l []) at 1. rewrite app_assoc.
    rewrite <- (app_nil_r (w ++ [])) at 1. rewrite <- !app_assoc.
    apply greedy_class_found; simpl; auto; try lia.
    + rewrite app_nil_r. exact Hsp.
    + intros [|? ?] ? ?; done.
  - change (w ++ LF :: "|"%char :: t) with (w ++ [LF] ++ "|"%char :: t).
    apply greedy_class_found; simpl; auto; try lia.
    + apply Forall_app. split; [exact Hsp|]. repeat constructor.
    + intros v1 v2 Hv Hne. destruct v1 as [|a [|? ?]]; try done.
      injection Hv as <- <-. reflexivity.
Qed.

Lemma tableRegex_row pre body w tail :
  at_bol (MState pre [] []) = true ->
  body <> [] -> Forall (fun c => dot c = true) body -> Forall blank w ->
  row_tail tail ->
  exists caps,
    match_at tableRegex pre ("|"%char :: body ++ "|"%char :: w ++ tail) =
    Some (MState (rev ("|"%char :: body ++ "|"%char :: w) ++ pre) tail caps).
Proof.
  intros Hbol Hne Hbody Hw Htail. unfold match_at, tableRegex, cat.
  rewrite rmatch_cat, rmatch_bol by exact Hbol.
  rewrite rmatch_cat. unfold chr at 1. rewrite rmatch_cls_hit by reflexivity.
  rewrite rmatch_cat, rmatch_grp. unfold plus. rewrite rmatch_greedy_class.
  eexists.
  change (body ++ "|"%char :: w ++ tail) with (body ++ ("|"%char :: w) ++ tail).
  apply greedy_class_found.
  - apply Forall_app. split; [exact Hbody|]. constructor; [reflexivity|].
    eapply Forall_impl; [exact Hw|]. apply blank_dot.
  - destruct Htail as [->|[t ->]]; simpl; auto.
  - destruct body; simpl; [done|lia].
  - cbv beta. unfold set_capture. cbn [consumed remaining captures app].
    rewrite rmatch_cat. unfold chr. rewrite rmatch_cls_hit by reflexivity.
    rewrite blanks_then_eol by assumption.
    cbn [rev]. rewrite !rev_app_distr. cbn [rev app]. rewrite <- !app_assoc.
    cbn [app]. reflexivity.
  - intros v1 v2 Hv Hv1. destruct v1 as [|a v1]; [done|].
    injection Hv as <- ->.
    cbv beta. unfold set_capture. cbn [consumed remaining captures].
    rewrite rmatch_cat. unfold chr. apply rmatch_cls_miss.
    apply Forall_app in Hw as [_ Hw2].
    destruct v2 as [|b v2]; cbn [app].
    + destruct Htail as [->|[t ->]]; simpl; auto.
    + inversion Hw2; subst. simpl. apply blank_not_bar. assumption.
Qed.

Lemma bar_line_last l :
  bar_line l -> exists c rest, rev l = c :: rest /\ is_line_terminator c = false.
Proof.
  intros (body & w & -> & _ & _ & Hw).
  cbn [rev]. rewrite rev_app_distr. cbn [rev]. rewrite <- !app_assoc.
  apply Forall_rev in Hw. destruct (rev w) as [|c rw].
  - eexists _, _. split; reflexivity.
  - inversion Hw as [|? ? [_ Hc] _]; subst. eexists _, _. split; [reflexivity|exact Hc].
Qed.

(** No row starts in the middle of a line. *)
Lemma tableRegex_not_at_bol pre rest :
  at_bol (MState pre [] []) = false -> match_at tableRegex pre rest = None.
Proof.
  intros H. unfold match_at, tableRegex, cat. rewrite rmatch_cat.
  apply rmatch_bol_fails. exact H.
Qed.

Lemma search_table_row pre l tail :
  at_bol (MState pre [] []) = true -> bar_line l -> row_tail tail ->
  exists caps,
    search tableRegex pre (l ++ tail) =
    Some (MkMatch (length pre) l (MState (rev l ++ pre) tail caps)).
Proof.
  intros Hbol (body & w & -> & Hne & Hbody & Hw) Htail.
  destruct (tableRegex_row pre body w tail Hbol Hne Hbody Hw Htail) as [caps H].
  exists caps.
  assert (Hs : forall rest e, match_at tableRegex pre rest = Some e ->
                 search tableRegex pre rest = Some (mk_match pre e)).
  { intros rest e He. destruct rest; simpl; rewrite He; reflexivity. }
  cbn [app]. rewrite <- !app_assoc. cbn [app]. rewrite (Hs _ _ H).
  unfold mk_match. cbn [consumed]. rewrite take_rev_app. reflexivity.
Qed.

Lemma join_lines_cons l ls :
  exists tail, join_lines (l :: ls) = l ++ tail /\
    (ls = [] -> tail = []) /\
    (ls <> [] -> tail = LF :: join_lines ls).
Proof.
  destruct ls as [|l' ls].
  - exists []. simpl. rewrite app_nil_r. split_and!; done.
  - exists (LF :: join_lines (l' :: ls)). split_and!; done.
Qed.

(** [text.match(tableRegex)] on lines that are all rows: one match a line. *)
Lemma match_from_rows rows : forall fuel pre A,
  rows <> [] -> Forall bar_line rows ->
  at_bol (MState pre [] []) = true ->
  length (join_lines rows) < fuel ->
  match_from fuel tableRegex pre (join_lines rows) A = Returns (A ++ rows).
Proof.
  induction rows as [|l ls IH]; intros fuel pre A Hne Hrows Hbol Hf; [done|].
  inversion Hrows as [|? ? Hl Hls]; subst.
  destruct (join_lines_cons l ls) as (tail & Hj & Hnil & Hcons).
  rewrite Hj in *. clear Hj.
  assert (Htail : row_tail tail).
  { destruct ls as [|l' ls']; [left; auto|right].
    rewrite Hcons by done. inversion Hls as [|? ? (b & w & -> & _) _]; subst.
    destruct ls'; simpl; eauto. }
  destruct (search_table_row pre l tail Hbol Hl Htail) as [caps Hs].
  destruct (bar_line_last l Hl) as (c & rl & Hrev & Hc).
  assert (Hmid : forall rest, match_at tableRegex (rev l ++ pre) rest = None).
  { intros rest. apply tableRegex_not_at_bol. rewrite Hrev. exact Hc. }
  assert (Hlen : 0 < length l).
  { apply (f_equal length) in Hrev. rewrite length_rev in Hrev. simpl in Hrev. lia. }
  rewrite length_app in Hf.
  destruct fuel as [|fuel]; [lia|]. cbn [match_from]. rewrite Hs.
  cbn [last matched consumed remaining].
  destruct l as [|a l']; [simpl in Hlen; lia|].
  destruct fuel as [|fuel]; [simpl in Hf; lia|].
  destruct ls as [|l2 ls'].
  - rewrite Hnil by reflexivity. cbn [match_from search]. rewrite Hmid. reflexivity.
  - rewrite Hcons by done.
    transitivity (match_from (S fuel) tableRegex (LF :: rev (a :: l') ++ pre)
                    (join_lines (l2 :: ls')) (A ++ [a :: l'])).
    + cbn [match_from]. cbn [search]. rewrite Hmid. reflexivity.
    + rewrite IH; auto.
      * rewrite <- app_assoc. reflexivity.
      * rewrite Hcons in Hf by done. simpl in Hf. simpl. lia.
Qed.

Lemma match_all_rows rows :
  rows <> [] -> Forall bar_line rows ->
  match_all tableRegex (join_lines rows) = Returns rows.
Proof.
  intros Hne Hrows. unfold match_all.
  rewrite match_from_rows; auto.
Qed.

(** C7.  For every text of three lines, each of the form [| a | b |] (two
    cells between bars, blanks allowed after the last bar), the report has
    [tableRowCount = 3]: header, separator and data rows count alike. *)
Theorem three_table_rows_counted (l1 l2 l3 : JsString) :
  table_row l1 -> table_row l2 -> table_row l3 ->
  exists report,
    analyze_document_structure (text_only (l1 ++ LF :: l2 ++ LF :: l3)) =
      Returns (StructureResult report) /\
    StructureReport.tableRowCount report = 3.
Proof.
  intros H1%table_row_bar_line H2%table_row_bar_line H3%table_row_bar_line.
  destruct (analyze_report (text_only (l1 ++ LF :: l2 ++ LF :: l3)) _ eq_refl)
    as (hs & ps & bs & ns & ts & ws & _ & _ & _ & _ & Hts & _ & ->).
  eexists. split; [reflexivity|]. simpl.
  assert (Hrows : match_all tableRegex (l1 ++ LF :: l2 ++ LF :: l3) =
                  Returns [l1; l2; l3]).
  { apply (match_all_rows [l1; l2; l3]); [done|]. repeat constructor; assumption. }
  rewrite Hrows in Hts. injection Hts as <-. reflexivity.
Qed.

Lemma table_row_cells (a b w : string) :
  forallb dot (js a) = true -> forallb dot (js b) = true ->
  forallb (fun c => is_space c && negb (is_line_terminator c)) (js w) = true ->
  table_row ("|"%char :: js a ++ "|"%char :: js b ++ "|"%char :: js w).
Proof.
  intros Ha Hb Hw. exists (js a), (js b), (js w). split_and!; [reflexivity| | |].
  - apply Forall_forall. intros c Hc. rewrite forallb_forall in Ha.
    apply Ha, list_elem_of_In, Hc.
  - apply Forall_forall. intros c Hc. rewrite forallb_forall in Hb.
    apply Hb, list_elem_of_In, Hc.
  - apply Forall_forall. intros c Hc. rewrite forallb_forall in Hw.
    apply list_elem_of_In, Hw in Hc. apply andb_true_iff in Hc as [? ?%negb_true_iff].
    split; assumption.
Qed.

Lemma three_table_rows_counted_witness :
  table_row (js "| a | b |") /\ table_row (js "|---|---|") /\
  table_row (js "| c | d |  ") /\
  exists report,
    analyze_document_structure
      (text_only (js "| a | b |" ++ LF :: js "|---|---|" ++ LF :: js "| c | d |  ")) =
      Returns (StructureResult report) /\
    StructureReport.tableRowCount report = 3.
Proof.
  assert (R1 : table_row (js "| a | b |")) by (apply (table_row_cells " a " " b " ""); reflexivity).
  assert (R2 : table_row (js "|---|---|")) by (apply (table_row_cells "---" "---" ""); reflexivity).
  assert (R3 : table_row (js "| c | d |  ")) by (apply (table_row_cells " c " " d " "  "); reflexivity).
  split_and!; [exact R1|exact R2|exact R3|].
  exact (three_table_rows_counted _ _ _ R1 R2 R3).
Defined.

(** C3, as amended.  On ["# Title\n\nSome text\n\n## Sub"] the report has
    exactly the two headings [{level: 1, text: "Title", position: 0}] and
    [{level: 2, text: "Sub", position: 20}], in that order, and
    [paragraphCount = 3]: the heading lines are blocks between blank lines
    like any other. *)
Theorem heading_example_report :
  exists report,
    analyze_document_structure
      (text_only (js "# Title" ++ [LF; LF] ++ js "Some text" ++ [LF; LF] ++ js "## Sub")) =
      Returns (StructureResult report) /\
    StructureReport.headings report =
      [Heading.Make 1 (js "Title") 0; Heading.Make 2 (js "Sub") 20] /\
    StructureReport.paragraphCount report = 3.
Proof. eexists. split; [vm_compute; reflexivity|]. split; reflexivity. Qed.

(** C3 as stated fails: the paragraph count of the example is 3, not 2. *)
Lemma heading_example_paragraphs_counterexample :
  exists report,
    analyze_document_structure
      (text_only (js "# Title" ++ [LF; LF] ++ js "Some text" ++ [LF; LF] ++ js "## Sub")) =
      Returns (StructureResult report) /\
    StructureReport.paragraphCount report = 3 /\
    StructureReport.paragraphCount report <> 2.
Proof. eexists. split; [vm_compute; reflexivity|]. split; [reflexivity|discriminate]. Qed.

Lemma search_fails r rest : forall pre,
  (forall pre' skipped rest', rest = skipped ++ rest' -> match_at r pre' rest' = None) ->
  search r pre rest = None.
Proof.
  induction rest as [|a rest IH]; intros pre H; simpl.
  - rewrite (H pre [] []) by reflexivity. reflexivity.
  - rewrite (H pre [] (a :: rest)) by reflexivity. apply IH.
    intros pre' skipped rest' ->. apply (H pre' (a :: skipped)). reflexivity.
Qed.

(** A text with no line feed and no backtick has no match of the code-block
    regex: a fence needs backticks, an indented line its line feed. *)
Lemma codeBlockRegex_needs_newline pre rest :
  LF ∉ rest -> "`"%char ∉ rest -> search codeBlockRegex pre rest = None.
Proof.
  intros Hlf Hbt. apply search_fails. intros pre' skipped rest' ->.
  unfold match_at, codeBlockRegex. cbn [rmatch].
  change (rmatch fencedBlock Some _) with (match_at fencedBlock pre' rest').
  change (rmatch indentedBlock Some _) with (match_at indentedBlock pre' rest').
  rewrite (match_at_must_read "`" fencedBlock) by (reflexivity || set_solver).
  apply (match_at_must_read LF indentedBlock); [reflexivity|set_solver].
Qed.

Lemma extract_code_no_newline params line :
  Params.text params = Some line -> LF ∉ line -> "`"%char ∉ line ->
  extract_code params = Returns (CodeResult [] 0).
Proof.
  intros Ht Hlf Hbt. destruct (extract_code_matches params) as (ms & Hms & ->).
  rewrite Ht in Hms. unfold all_matches in Hms. simpl in Hms.
  rewrite codeBlockRegex_needs_newline in Hms by assumption.
  injection Hms as <-. reflexivity.
Qed.

(** C10.  An indented line counts as code only with its line break: a text
    with no line feed (and no backtick) gives no code block; in particular a
    single line that starts with spaces, or with a tab, and has no line break
    at its end gives an empty [codeBlocks] and count 0, while the same line
    followed by a line break gives one block. *)
Theorem indented_line_needs_newline :
  (forall line : JsString, LF ∉ line -> "`"%char ∉ line ->
     extract_code (text_only line) = Returns (CodeResult [] 0)) /\
  exists line : JsString,
    hd_error line = Some SP /\ (LF ∉ line) /\
    extract_code (text_only line) = Returns (CodeResult [] 0) /\
    extract_code (text_only (TAB :: line)) = Returns (CodeResult [] 0) /\
    extract_code (text_only (line ++ [LF])) =
      Returns (CodeResult [CodeBlock.Make (js "unknown") (trim line)] 1).
Proof.
  split.
  - intros line Hlf Hbt.
    exact (extract_code_no_newline (text_only line) line eq_refl Hlf Hbt).
  - exists (js "    x = 1"). split_and!; try (vm_compute; reflexivity).
    apply not_elem_of_cons; split; [discriminate|].
    repeat (apply not_elem_of_cons; split; [discriminate|]). apply not_elem_of_nil.
Qed.

(** * chunk_document *)

(** The handler in terms of what the splitter does. *)
Lemma chunk_document_returns lib params chunks :
  split_text lib (effective_chunkSize params) (effective_chunkOverlap params)
    (Params.text params) (effective_metadata params) = Returns chunks ->
  chunk_document lib params = Returns (ChunkResult (map to_chunk chunks) (length chunks)).
Proof.
  intros H. unfold chunk_document, chunk_document_body. rewrite H. reflexivity.
Qed.

Lemma chunk_document_throws lib params e :
  split_text lib (effective_chunkSize params) (effective_chunkOverlap params)
    (Params.text params) (effective_metadata params) = Throws e ->
  chunk_document lib params = Returns (Failure (message e)).
Proof.
  intros H. unfold chunk_document, chunk_document_body. rewrite H. reflexivity.
Qed.

Lemma split_text_settles lib size overlap text metadata :
  (exists chunks, split_text lib size overlap text metadata = Returns chunks) \/
  (exists e, split_text lib size overlap text metadata = Throws e).
Proof.
  unfold split_text.
  destruct (RecursiveCharacterTextSplitter lib size overlap) as [e|sp]; simpl; [eauto|].
  destruct (createDocuments lib sp [text] [metadata]); simpl; eauto.
Qed.


(** ** What the specification asks of the splitter *)

(** The splitter written from the specification meets these. *)
Lemma spec_splitter_rejects_overlap : rejects_overlap spec_splitter.
Proof.
  intros size overlap text metadata H. unfold split_text. simpl.
  unfold spec_constructor. destruct (size <=? 0)%Z; simpl; [eauto|].
  destruct (size <=? overlap)%Z eqn:E; simpl; [eauto|]. lia.
Qed.










(** ** The three handlers at the tool boundary *)

Lemma extract_code_returns params :
  exists codeBlocks, extract_code params = Returns (CodeResult codeBlocks (length codeBlocks)).
Proof. destruct (extract_code_matches params) as (ms & _ & H). eauto. Qed.

Lemma analyze_document_structure_returns params :
  (exists structure, analyze_document_structure params = Returns (StructureResult structure)) \/
  (exists error, analyze_document_structure params = Returns (Failure error)).
Proof.
  destruct (Params.text params) as [text|] eqn:Ht.
  - left. destruct (analyze_report params text Ht)
      as (hs & ps & bs & ns & ts & ws & _ & _ & _ & _ & _ & _ & H). eauto.
  - right. unfold analyze_document_structure, analyze_document_structure_body.
    rewrite Ht. destruct (heading_loop_returns (ToString None)) as [hs ->].
    simpl. eauto.
Qed.

Lemma chunk_document_settles lib params :
  (exists chunks, chunk_document lib params = Returns (ChunkResult chunks (length chunks))) \/
  (exists error, chunk_document lib params = Returns (Failure error)).
Proof.
  destruct (split_text_settles lib (effective_chunkSize params)
              (effective_chunkOverlap params) (Params.text params)
              (effective_metadata params)) as [[docs Hd]|[e He]].
  - left. rewrite (chunk_document_returns _ _ _ Hd).
    exists (map to_chunk docs). rewrite length_map. reflexivity.
  - right. rewrite (chunk_document_throws _ _ _ He). eauto.
Qed.

(** C1, as amended.  For every input each of the three operations returns
    (it neither throws nor runs on) a result of the uniform shape: a
    success with its payload or [{success: false, error}].  With a splitter
    that rejects an overlap not smaller than the size by throwing,
    [chunk_document] returns [{success: false, error}] whenever the overlap
    in force is not smaller than the size in force (an explicit 0 and an
    absent value stand for 1000 and 200), in particular when it is invoked
    with [chunkOverlap >= chunkSize] and a [chunkSize] other than 0. *)
Theorem handlers_return_uniform_results (lib : TextSplitterLib) (params : Params.t) :
  rejects_overlap lib ->
  (exists codeBlocks,
     extract_code params = Returns (CodeResult codeBlocks (length codeBlocks))) /\
  ((exists structure,
      analyze_document_structure params = Returns (StructureResult structure)) \/
   (exists error, analyze_document_structure params = Returns (Failure error))) /\
  ((exists chunks,
      chunk_document lib params = Returns (ChunkResult chunks (length chunks))) \/
   (exists error, chunk_document lib params = Returns (Failure error))) /\
  ((effective_chunkOverlap params >= effective_chunkSize params)%Z ->
     exists error, chunk_document lib params = Returns (Failure error)) /\
  (forall size overlap,
     Params.chunkSize params = Some size -> Params.chunkOverlap params = Some overlap ->
     (overlap >= size)%Z -> size <> 0%Z ->
     exists error, chunk_document lib params = Returns (Failure error)).
Proof.
  intros Hlib.
  assert (Heff : (effective_chunkOverlap params >= effective_chunkSize params)%Z ->
                 exists error, chunk_document lib params = Returns (Failure error)).
  { intros Hge.
    destruct (Hlib (effective_chunkSize params) (effective_chunkOverlap params)
                (Params.text params) (effective_metadata params)) as [e He]; [lia|].
    rewrite (chunk_document_throws _ _ _ He). eauto. }
  split_and!.
  - apply extract_code_returns.
  - apply analyze_document_structure_returns.
  - apply chunk_document_settles.
  - exact Heff.
  - intros size overlap Hs Ho Hge Hnz. apply Heff.
    unfold effective_chunkSize, effective_chunkOverlap, or_number.
    rewrite Hs, Ho. destruct (Z.eqb_spec size 0); [done|].
    destruct (Z.eqb_spec overlap 0); lia.
Qed.

Lemma handlers_return_uniform_results_witness :
  let params := chunk_params (js "a b") (Some 5%Z) (Some 7%Z) in
  rejects_overlap spec_splitter /\
  (exists codeBlocks,
     extract_code params = Returns (CodeResult codeBlocks (length codeBlocks))) /\
  ((exists structure,
      analyze_document_structure params = Returns (StructureResult structure)) \/
   (exists error, analyze_document_structure params = Returns (Failure error))) /\
  (7 >= 5)%Z /\ 5%Z <> 0%Z /\
  exists error, chunk_document spec_splitter params = Returns (Failure error).
Proof.
  pose proof (handlers_return_uniform_results spec_splitter
                (chunk_params (js "a b") (Some 5%Z) (Some 7%Z))
                spec_splitter_rejects_overlap) as (H1 & H2 & _ & _ & H5).
  split_and!; [exact spec_splitter_rejects_overlap|exact H1|exact H2|lia|lia|].
  exact (H5 5%Z 7%Z eq_refl eq_refl ltac:(lia) ltac:(lia)).
Defined.

(** C1 as stated fails: invoked with [chunkSize = 0] and [chunkOverlap = 0]
    (so overlap >= size) the handler runs the splitter with 1000 and 200 and
    returns a success. *)
Lemma chunk_document_zero_sizes_counterexample :
  let params := chunk_params (js "a") (Some 0%Z) (Some 0%Z) in
  (exists size overlap,
     Params.chunkSize params = Some size /\ Params.chunkOverlap params = Some overlap /\
     (overlap >= size)%Z) /\
  (exists chunks, chunk_document spec_splitter params = Returns (ChunkResult chunks 1)) /\
  ~ exists error, chunk_document spec_splitter params = Returns (Failure error).
Proof.
  split_and!.
  - exists 0%Z, 0%Z. split_and!; [reflexivity..|lia].
  - eexists. vm_compute. reflexivity.
  - intros [error H]. vm_compute in H. discriminate.
Qed.












(** * Further properties of the handlers *)

(** ** What a match reads and captures *)

Lemma subclass_spec q p c : subclass q p = true -> q c = true -> p c = true.
Proof.
  unfold subclass. rewrite forallb_forall. intros H Hq.
  specialize (H c (proj1 (list_elem_of_In _ _) (all_chars_complete c))).
  rewrite Hq in H. exact H.
Qed.

Lemma reads_text_refl x : reads_text [] x x.
Proof. split; reflexivity. Qed.

Lemma reads_text_between w x y : reads_text w x y -> between x y = w.
Proof.
  intros [_ C]. unfold between, endIndex. rewrite C. apply take_rev_app.
Qed.

Lemma reads_text_same_position w x x' y y' :
  consumed x' = consumed x -> remaining x' = remaining x ->
  consumed y' = consumed y -> remaining y' = remaining y ->
  reads_text w x y -> reads_text w x' y'.
Proof. intros Hc Hr Hc' Hr' [R C]. split; congruence. Qed.

Lemma run_facts_cat r1 r2 w1 w2 :
  run_facts r1 w1 -> run_facts r2 w2 -> run_facts (Cat r1 r2) (w1 ++ w2).
Proof.
  intros (L1 & U1 & P1) (L2 & U2 & P2). unfold run_facts. rewrite length_app. simpl.
  split_and!.
  - lia.
  - intros b Hb. destruct (max_len r1) as [a1|], (max_len r2) as [a2|]; try done.
    injection Hb as <-. specialize (U1 _ eq_refl). specialize (U2 _ eq_refl). lia.
  - intros p [H1 H2]%andb_true_iff. apply Forall_app. auto.
Qed.

Lemma run_facts_alt_l r1 r2 w : run_facts r1 w -> run_facts (Alt r1 r2) w.
Proof.
  intros (L & U & P). unfold run_facts. simpl. split_and!.
  - lia.
  - intros b Hb. destruct (max_len r1) as [a1|], (max_len r2) as [a2|]; try done.
    injection Hb as <-. specialize (U _ eq_refl). lia.
  - intros p [H1 H2]%andb_true_iff. auto.
Qed.

Lemma run_facts_alt_r r1 r2 w : run_facts r2 w -> run_facts (Alt r1 r2) w.
Proof.
  intros (L & U & P). unfold run_facts. simpl. split_and!.
  - lia.
  - intros b Hb. destruct (max_len r1) as [a1|], (max_len r2) as [a2|]; try done.
    injection Hb as <-. specialize (U _ eq_refl). lia.
  - intros p [H1 H2]%andb_true_iff. auto.
Qed.

Lemma run_facts_concat_min r ws :
  Forall (run_facts r) ws -> length ws * min_len r <= length (concat ws).
Proof.
  induction 1 as [|w ws (L & _) _ IH]; simpl; [lia|]. rewrite length_app. lia.
Qed.

Lemma run_facts_concat_max r ws m :
  max_len r = Some m -> Forall (run_facts r) ws ->
  length (concat ws) <= length ws * m.
Proof.
  intros Hm. induction 1 as [|w ws (_ & U & _) _ IH]; simpl; [lia|].
  rewrite length_app. specialize (U _ Hm). lia.
Qed.

Lemma run_facts_rep mn mx g r ws :
  Forall (run_facts r) ws ->
  match mx with Some b => mn `min` b | None => mn end <= length ws ->
  (forall b, mx = Some b -> length ws <= b) ->
  run_facts (Rep mn mx g r) (concat ws).
Proof.
  intros Hws Hlo Hhi. unfold run_facts. simpl.
  pose proof (run_facts_concat_min r ws Hws) as Hmin.
  split_and!.
  - destruct mx; nia.
  - intros b Hb. destruct mx as [b'|]; [|done].
    destruct (max_len r) as [m|] eqn:Em; [|done]. injection Hb as <-.
    pose proof (run_facts_concat_max r ws m Em Hws) as Hmax.
    specialize (Hhi _ eq_refl). nia.
  - intros p Hp. apply Forall_concat.
    eapply Forall_impl; [exact Hws|]. intros w (_ & _ & P). auto.
Qed.

Lemma get_clear_captures k ns x :
  get_capture k (clear_captures ns x) =
  if decide (k ∈ ns) then None else get_capture k x.
Proof.
  induction ns as [|n ns IH]; cbn [clear_captures foldr].
  - case_decide as E; [inversion E|reflexivity].
  - rewrite get_set_capture. change (foldr _ x ns) with (clear_captures ns x).
    rewrite IH.
    destruct (decide (k = n)) as [Heq|Hne], (decide (k ∈ ns)) as [Hin|Hin].
    + rewrite decide_True by (apply elem_of_cons; auto). reflexivity.
    + rewrite decide_True by (apply elem_of_cons; auto). reflexivity.
    + rewrite decide_True by (apply elem_of_cons; auto). reflexivity.
    + rewrite decide_False; [reflexivity|]. intros [?|?]%elem_of_cons; done.
Qed.

Lemma cap_ok_clear_captures k P ns x : cap_ok k P x -> cap_ok k P (clear_captures ns x).
Proof.
  intros H v. rewrite get_clear_captures. case_decide; [discriminate|apply H].
Qed.

Lemma repeat_matcher_traces m parens greedy R inv :
  traces R inv m ->
  (forall x, inv x -> inv (clear_captures parens x)) ->
  forall fuel mn mx c x z,
    repeat_matcher m parens greedy fuel mn mx c x = Some z -> inv x ->
    exists y ws,
      reads_text (concat ws) x y /\ Forall R ws /\
      match mx with Some b => mn `min` b | None => mn end <= length ws /\
      (forall b, mx = Some b -> length ws <= b) /\
      inv y /\ c y = Some z.
Proof.
  intros Hm Hclear. induction fuel as [|fuel IH]; intros mn mx c x z H Hx; [discriminate|].
  simpl in H.
  assert (Hstop : forall o, o = c x -> o = Some z ->
    (mn = 0 \/ mx = Some 0) ->
    exists y ws,
      reads_text (concat ws) x y /\ Forall R ws /\
      match mx with Some b => mn `min` b | None => mn end <= length ws /\
      (forall b, mx = Some b -> length ws <= b) /\
      inv y /\ c y = Some z).
  { intros o -> Hc H0. exists x, []. simpl.
    split; [apply reads_text_refl|]. split; [constructor|].
    split; [|split; [intros; lia|split; assumption]].
    destruct H0 as [->| ->]; [destruct mx|]; simpl; lia. }
  assert (Hturn : forall d,
    d = (fun y => if (mn =? 0) && (length (remaining y) =? length (remaining x))
                  then None
                  else repeat_matcher m parens greedy fuel (pred mn) (pred <$> mx) c y) ->
    (forall b, mx = Some b -> 0 < b) ->
    m d (clear_captures parens x) = Some z ->
    exists y ws,
      reads_text (concat ws) x y /\ Forall R ws /\
      match mx with Some b => mn `min` b | None => mn end <= length ws /\
      (forall b, mx = Some b -> length ws <= b) /\
      inv y /\ c y = Some z).
  { intros d -> Hpos Hd.
    destruct (Hm _ _ _ Hd (Hclear _ Hx)) as (y1 & w1 & R1 & F1 & I1 & Hd1).
    cbv beta in Hd1.
    destruct ((mn =? 0) && (length (remaining y1) =? length (remaining x)));
      [discriminate|].
    destruct (IH _ _ _ _ _ Hd1 I1) as (y2 & ws & R2 & F2 & Lo & Hi & I2 & Hc).
    exists y2, (w1 :: ws). simpl.
    split; [|split; [auto|split; [|split; [|split; assumption]]]].
    - eapply reads_text_trans; [|exact R2].
      eapply reads_text_same_position; [..|exact R1];
        auto using clear_captures_consumed, clear_captures_remaining.
    - destruct mx as [b|]; simpl in Lo.
      + specialize (Hpos b eq_refl). destruct mn, b; simpl in *; lia.
      + destruct mn; simpl in *; lia.
    - intros b ->. specialize (Hi (pred b) eq_refl). specialize (Hpos b eq_refl). lia. }
  destruct mx as [[|b]|]; [eapply Hstop; eauto| |].
  all: destruct (negb (mn =? 0)) eqn:E;
    [eapply Hturn; eauto; intros ? [= <-]; lia|].
  all: apply negb_false_iff, Nat.eqb_eq in E; subst mn.
  all: destruct greedy.
  all: match type of H with
       | match ?o with _ => _ end = _ => destruct o eqn:E1
       end.
  all: try (injection H as ->).
  all: first [ eapply Hturn; solve [eauto; intros ? [= <-]; lia]
             | eapply Hstop; solve [eauto] ].
Qed.

Lemma run_facts_empty r :
  min_len r = 0 -> run_facts r [].
Proof.
  intros H. unfold run_facts. simpl. split; [lia|]. split; [intros; lia|auto].
Qed.

Lemma run_facts_cls p a : p a = true -> run_facts (Cls p) [a].
Proof.
  intros Hp. unfold run_facts. simpl. split; [lia|].
  split; [intros b [= <-]; lia|].
  intros q Hq. constructor; [|constructor]. eapply subclass_spec; eauto.
Qed.

Lemma rmatch_traces k P r :
  groups_ok k P r -> traces (run_facts r) (cap_ok k P) (rmatch r).
Proof.
  induction r as [|p|r1 IH1 r2 IH2|r1 IH1 r2 IH2|mn mx g r IH|n r IH| |];
    intros Hg c x z H Hx; cbn [rmatch] in H; simpl in Hg.
  - exists x, []. split; [apply reads_text_refl|].
    split; [apply run_facts_empty; reflexivity|]. split; assumption.
  - destruct (remaining x) as [|a rest] eqn:E; [discriminate|].
    destruct (p a) eqn:Ep; [|discriminate].
    exists (MState (a :: consumed x) rest (captures x)), [a].
    split; [split; [exact E|reflexivity]|].
    split; [apply run_facts_cls, Ep|]. split; [exact Hx|exact H].
  - destruct Hg as [Hg1 Hg2].
    destruct (IH1 Hg1 _ _ _ H Hx) as (y1 & w1 & R1 & F1 & I1 & H1).
    destruct (IH2 Hg2 _ _ _ H1 I1) as (y2 & w2 & R2 & F2 & I2 & H2).
    exists y2, (w1 ++ w2). split; [eapply reads_text_trans; eauto|].
    split; [apply run_facts_cat; assumption|]. split; assumption.
  - destruct Hg as [Hg1 Hg2]. destruct (rmatch r1 c x) eqn:E.
    + injection H as ->. destruct (IH1 Hg1 _ _ _ E Hx) as (y & w & R1 & F1 & I1 & H).
      exists y, w. split; [exact R1|].
      split; [apply run_facts_alt_l, F1|]. split; assumption.
    + destruct (IH2 Hg2 _ _ _ H Hx) as (y & w & R1 & F1 & I1 & H').
      exists y, w. split; [exact R1|].
      split; [apply run_facts_alt_r, F1|]. split; assumption.
  - destruct (repeat_matcher_traces _ _ _ _ _ (IH Hg)
                (fun x Hx => cap_ok_clear_captures k P _ x Hx) _ _ _ _ _ _ H Hx)
      as (y & ws & R1 & F & Lo & Hi & I1 & H').
    exists y, (concat ws). split; [exact R1|].
    split; [apply run_facts_rep; assumption|]. split; assumption.
  - destruct Hg as [Hg Hn].
    destruct (IH Hg _ _ _ H Hx) as (y & w & R1 & F1 & I1 & H').
    exists (set_capture n (Some (between x y)) y), w.
    split; [exact R1|]. split; [exact F1|]. split; [|exact H'].
    intros v. rewrite get_set_capture. case_decide as Ek.
    + intros [= <-]. rewrite (reads_text_between _ _ _ R1). apply Hn; auto.
    + apply I1.
  - destruct (at_bol x); [|discriminate].
    exists x, []. split; [apply reads_text_refl|].
    split; [apply run_facts_empty; reflexivity|]. split; assumption.
  - destruct (at_eol x); [|discriminate].
    exists x, []. split; [apply reads_text_refl|].
    split; [apply run_facts_empty; reflexivity|]. split; assumption.
Qed.

Lemma clear_captures_inv (I : list (option JsString) -> Prop) ns :
  (forall n v x, n ∈ ns -> I (captures x) -> I (captures (set_capture n v x))) ->
  forall x, I (captures x) -> I (captures (clear_captures ns x)).
Proof.
  intros Hset x Hx. induction ns as [|n ns IH]; simpl; [exact Hx|].
  apply Hset; [apply elem_of_cons; auto|]. apply IH.
  intros m v y Hm. apply Hset, elem_of_cons. auto.
Qed.

(** A property of the captures that no group of the regex can break holds
    along its runs. *)
Lemma rmatch_frames (I : list (option JsString) -> Prop) r :
  (forall n v x, n ∈ group_ids r -> I (captures x) -> I (captures (set_capture n v x))) ->
  traces (run_facts r) (fun x => I (captures x)) (rmatch r).
Proof.
  induction r as [|p|r1 IH1 r2 IH2|r1 IH1 r2 IH2|mn mx g r IH|n r IH| |];
    intros Hset c x z H Hx; cbn [rmatch] in H; simpl in Hset.
  - exists x, []. split; [apply reads_text_refl|].
    split; [apply run_facts_empty; reflexivity|]. split; assumption.
  - destruct (remaining x) as [|a rest] eqn:E; [discriminate|].
    destruct (p a) eqn:Ep; [|discriminate].
    exists (MState (a :: consumed x) rest (captures x)), [a].
    split; [split; [exact E|reflexivity]|].
    split; [apply run_facts_cls, Ep|]. split; [exact Hx|exact H].
  - assert (H1s : forall n v x, n ∈ group_ids r1 -> I (captures x) ->
                    I (captures (set_capture n v x))).
    { intros n v y Hn. apply Hset, elem_of_app. auto. }
    assert (H2s : forall n v x, n ∈ group_ids r2 -> I (captures x) ->
                    I (captures (set_capture n v x))).
    { intros n v y Hn. apply Hset, elem_of_app. auto. }
    destruct (IH1 H1s _ _ _ H Hx) as (y1 & w1 & R1 & F1 & I1 & H1).
    destruct (IH2 H2s _ _ _ H1 I1) as (y2 & w2 & R2 & F2 & I2 & H2).
    exists y2, (w1 ++ w2). split; [eapply reads_text_trans; eauto|].
    split; [apply run_facts_cat; assumption|]. split; assumption.
  - assert (H1s : forall n v x, n ∈ group_ids r1 -> I (captures x) ->
                    I (captures (set_capture n v x))).
    { intros n v y Hn. apply Hset, elem_of_app. auto. }
    assert (H2s : forall n v x, n ∈ group_ids r2 -> I (captures x) ->
                    I (captures (set_capture n v x))).
    { intros n v y Hn. apply Hset, elem_of_app. auto. }
    destruct (rmatch r1 c x) eqn:E.
    + injection H as ->. destruct (IH1 H1s _ _ _ E Hx) as (y & w & R1 & F1 & I1 & H).
      exists y, w. split; [exact R1|].
      split; [apply run_facts_alt_l, F1|]. split; assumption.
    + destruct (IH2 H2s _ _ _ H Hx) as (y & w & R1 & F1 & I1 & H').
      exists y, w. split; [exact R1|].
      split; [apply run_facts_alt_r, F1|]. split; assumption.
  - pose proof (clear_captures_inv I (group_ids r) Hset) as Hclear.
    destruct (repeat_matcher_traces _ _ _ _ _ (IH Hset) Hclear _ _ _ _ _ _ H Hx)
      as (y & ws & R1 & F & Lo & Hi & I1 & H').
    exists y, (concat ws). split; [exact R1|].
    split; [apply run_facts_rep; assumption|]. split; assumption.
  - assert (Hs : forall m v x, m ∈ group_ids r -> I (captures x) ->
                   I (captures (set_capture m v x))).
    { intros m v y Hm. apply Hset, elem_of_cons. auto. }
    destruct (IH Hs _ _ _ H Hx) as (y & w & R1 & F1 & I1 & H').
    exists (set_capture n (Some (between x y)) y), w.
    split; [exact R1|]. split; [exact F1|]. split; [|exact H'].
    apply Hset; [apply elem_of_cons; auto|exact I1].
  - destruct (at_bol x); [|discriminate].
    exists x, []. split; [apply reads_text_refl|].
    split; [apply run_facts_empty; reflexivity|]. split; assumption.
  - destruct (at_eol x); [|discriminate].
    exists x, []. split; [apply reads_text_refl|].
    split; [apply run_facts_empty; reflexivity|]. split; assumption.
Qed.

(** Where [exec] found its match. *)
Lemma search_found r rest : forall pre m,
  search r pre rest = Some m ->
  exists skipped rest' e,
    rest = skipped ++ rest' /\
    match_at r (rev skipped ++ pre) rest' = Some e /\
    m = mk_match (rev skipped ++ pre) e.
Proof.
  induction rest as [|a rest IH]; intros pre m H; simpl in H.
  - destruct (match_at r pre []) as [e|] eqn:E; [|discriminate].
    injection H as <-. exists [], [], e. auto.
  - destruct (match_at r pre (a :: rest)) as [e|] eqn:E.
    + injection H as <-. exists [], (a :: rest), e. auto.
    + apply IH in H as (skipped & rest' & e & -> & He & ->).
      exists (a :: skipped), rest', e. simpl. rewrite <- app_assoc. auto.
Qed.

Lemma ordered_fmap {A B : Type} (f : A -> B) (R : B -> B -> Prop) (l : list A) :
  ordered (fun a b => R (f a) (f b)) l -> ordered R (map f l).
Proof.
  induction l as [|a l IH]; simpl; [auto|]. intros [H1 H2]. split; [|auto].
  apply Forall_fmap. exact H1.
Qed.

(** The matches of the loop lie one after the other in the text. *)
Lemma matches_from_indices r : forall fuel pre rest ms,
  matches_from fuel r pre rest = Some ms ->
  Forall (fun m => length pre <= index m /\
                   index m + length (matched m) <= length pre + length rest /\
                   min_len r <= length (matched m)) ms /\
  ordered (fun m1 m2 => index m1 + length (matched m1) <= index m2) ms.
Proof.
  induction fuel as [|fuel IH]; intros pre rest ms H; [discriminate|].
  simpl in H. destruct (search r pre rest) as [m|] eqn:E.
  - destruct (matches_from fuel r _ _) as [ms'|] eqn:E'; [|discriminate].
    injection H as <-. apply IH in E' as [Hall Hsorted].
    apply search_spec in E as (skipped & R & C & Ix & K).
    assert (Hlen : length (consumed (last m)) = index m + length (matched m)).
    { rewrite C, !length_app, !length_rev. lia. }
    assert (Hrest : length rest =
                    length skipped + length (matched m) + length (remaining (last m))).
    { rewrite R at 1. rewrite !length_app. lia. }
    split.
    + constructor; [lia|].
      eapply Forall_impl; [exact Hall|]. intros m' (H1 & H2 & H3). lia.
    + split; [|exact Hsorted].
      eapply Forall_impl; [exact Hall|]. intros m' (H1 & H2 & H3). lia.
  - injection H as <-. split; constructor.
Qed.

(** Every match of the loop is a match attempt that succeeded somewhere in
    the text. *)
Lemma matches_from_found r : forall fuel pre rest ms,
  matches_from fuel r pre rest = Some ms ->
  Forall (fun m => exists before rest' e,
            rev pre ++ rest = before ++ rest' /\
            match_at r (rev before) rest' = Some e /\
            m = mk_match (rev before) e) ms.
Proof.
  induction fuel as [|fuel IH]; intros pre rest ms H; [discriminate|].
  simpl in H. destruct (search r pre rest) as [m|] eqn:E.
  - destruct (matches_from fuel r _ _) as [ms'|] eqn:E'; [|discriminate].
    injection H as <-. apply IH in E'.
    pose proof (search_spec _ _ _ _ E) as (sk & R & C & _ & _).
    apply search_found in E as (skipped & rest' & e & -> & He & ->).
    constructor.
    + exists (rev pre ++ skipped), rest', e.
      rewrite rev_app_distr, rev_involutive, <- app_assoc. auto.
    + eapply Forall_impl; [exact E'|]. intros m' (before & rest'' & e' & Hw & He' & ->).
      exists before, rest'', e'. split; [|auto].
      rewrite <- Hw, C, R, !rev_app_distr, !rev_involutive, <- !app_assoc. reflexivity.
  - injection H as <-. constructor.
Qed.

(** ** Headings *)

Lemma run_of_char a w :
  Forall (fun c => is_char a c = true) w -> w = replicate (length w) a.
Proof.
  induction 1 as [|c w Hc _ IH]; simpl; [reflexivity|].
  apply Ascii.eqb_eq in Hc. subst c. f_equal. exact IH.
Qed.

Lemma run_facts_nonempty r w : 1 <= min_len r -> run_facts r w -> w <> [].
Proof. intros Hr (L & _) ->. simpl in L. lia. Qed.

Lemma rmatch_bol_inv c x z :
  rmatch Bol c x = Some z -> at_bol x = true /\ c x = Some z.
Proof. cbn [rmatch]. destruct (at_bol x); [auto|discriminate]. Qed.

Lemma rmatch_eol_inv c x z :
  rmatch Eol c x = Some z -> at_eol x = true /\ c x = Some z.
Proof. cbn [rmatch]. destruct (at_eol x); [auto|discriminate]. Qed.

(** A match of the heading regex, piece by piece. *)
Lemma headingRegex_match pre rest e :
  match_at headingRegex pre rest = Some e ->
  exists hashes spaces body,
    rest = hashes ++ spaces ++ body ++ remaining e /\
    consumed e = rev (hashes ++ spaces ++ body) ++ pre /\
    at_bol (MState pre [] []) = true /\
    hashes = replicate (length hashes) "#"%char /\ 1 <= length hashes <= 6 /\
    spaces <> [] /\ Forall (fun c => is_space c = true) spaces /\
    body <> [] /\ Forall (fun c => dot c = true) body /\
    at_eol (MState [] (remaining e) []) = true /\
    get_capture 1 e = Some hashes /\ get_capture 2 e = Some body.
Proof.
  unfold match_at, headingRegex, cat. intros H.
  rewrite rmatch_cat in H. apply rmatch_bol_inv in H as [Hbol H].
  rewrite rmatch_cat, rmatch_grp in H.
  destruct (rmatch_frames (fun _ => True) (range 1 6 (chr "#"))
              ltac:(auto) _ _ _ H I) as (y1 & w1 & [R1 C1] & F1 & _ & H1).
  cbv beta in H1. rewrite (reads_text_between w1) in H1 by (split; assumption).
  set (I1 := fun caps => get_capture 1 (MState [] [] caps) = Some w1).
  rewrite rmatch_cat in H1.
  destruct (rmatch_frames I1 (plus (Cls is_space))
              ltac:(intros n v x Hn; inversion Hn) _ _ _ H1
              ltac:(unfold I1; apply (get_set_capture 1 1)))
    as (y2 & w2 & [R2 C2] & F2 & K2 & H2).
  rewrite rmatch_cat, rmatch_grp in H2.
  destruct (rmatch_frames I1 (plus (Cls dot))
              ltac:(intros n v x Hn; inversion Hn) _ _ _ H2 K2)
    as (y3 & w3 & [R3 C3] & F3 & K3 & H3).
  cbv beta in H3. rewrite (reads_text_between w3) in H3 by (split; assumption).
  apply rmatch_eol_inv in H3 as [Heol [= <-]].
  simpl in R1, C1, R2, C2.
  exists w1, w2, w3. split_and!.
  - rewrite R1, R2, R3. reflexivity.
  - simpl. rewrite C3, C2, C1, !rev_app_distr, <- !app_assoc. reflexivity.
  - exact Hbol.
  - apply run_of_char. destruct F1 as (_ & _ & P). apply P. reflexivity.
  - destruct F1 as (L & _). simpl in L. lia.
  - destruct F1 as (_ & U & _). apply (U 6). reflexivity.
  - apply (run_facts_nonempty (plus (Cls is_space)) _ ltac:(simpl; lia) F2).
  - destruct F2 as (_ & _ & P). apply P. reflexivity.
  - apply (run_facts_nonempty (plus (Cls dot)) _ ltac:(simpl; lia) F3).
  - destruct F3 as (_ & _ & P). apply P. reflexivity.
  - exact Heol.
  - rewrite get_set_capture. simpl. exact K3.
  - rewrite get_set_capture. reflexivity.
Qed.

Lemma exec_while_fold_found {A : Type} r (body : MatchResult -> A -> Outcome A)
    (f : MatchResult -> A -> A) :
  (forall pre rest m a, search r pre rest = Some m -> body m a = Returns (f m a)) ->
  forall fuel pre rest a,
    exec_while fuel r pre rest body a =
    match matches_from fuel r pre rest with
    | Some ms => Returns (foldl (fun a m => f m a) a ms)
    | None => Diverges
    end.
Proof.
  intros Hb. induction fuel as [|fuel IH]; intros pre rest a; [reflexivity|].
  simpl. destruct (search r pre rest) as [m|] eqn:E; [|reflexivity].
  rewrite (Hb _ _ _ a E). simpl. rewrite IH.
  destruct (matches_from fuel r _ _); reflexivity.
Qed.

Lemma collect_heading_found pre rest m headings :
  search headingRegex pre rest = Some m ->
  collect_heading m headings = Returns (headings ++ [heading_of m]).
Proof.
  intros H. unfold collect_heading, heading_of.
  destruct (search_captures _ _ _ _ H 1) as [g1 E1]; [set_solver|].
  destruct (search_captures _ _ _ _ H 2) as [g2 E2]; [set_solver|].
  simpl. rewrite E1, E2. reflexivity.
Qed.

Lemma foldl_snoc_map {A B : Type} (f : A -> B) (l : list A) (acc : list B) :
  foldl (fun bs a => bs ++ [f a]) acc l = acc ++ map f l.
Proof.
  revert acc. induction l as [|a l IH]; intros acc; simpl.
  - rewrite app_nil_r. reflexivity.
  - rewrite IH, <- app_assoc. reflexivity.
Qed.

(** The headings of the report are those of the matches of the regex. *)
Lemma heading_loop_matches text :
  exists ms,
    all_matches headingRegex text = Some ms /\
    exec_loop headingRegex text collect_heading [] = Returns (map heading_of ms).
Proof.
  destruct (matches_from_is_Some headingRegex ltac:(rewrite headingRegex_min_len; lia)
              (S (length text)) [] text ltac:(lia)) as [ms Hms].
  exists ms. split; [exact Hms|]. unfold exec_loop.
  rewrite (exec_while_fold_found _ _ (fun m hs => hs ++ [heading_of m])).
  - unfold all_matches in Hms. rewrite Hms. rewrite foldl_snoc_map. reflexivity.
  - intros pre rest m a H. eapply collect_heading_found, H.
Qed.

Lemma heading_of_match text before rest e :
  text = before ++ rest ->
  match_at headingRegex (rev before) rest = Some e ->
  heading_in text (heading_of (mk_match (rev before) e)).
Proof.
  intros -> H.
  destruct (headingRegex_match _ _ _ H)
    as (hashes & spaces & body & R & C & Hbol & Hh & Hlen & Hs1 & Hs2 & Hb1 & Hb2 &
        Heol & G1 & G2).
  exists before, spaces, body, (remaining e).
  unfold heading_of. simpl. rewrite G1, G2. simpl.
  rewrite <- Hh, length_rev, <- R. split_and!; auto; lia.
Qed.

(** X1.  Every heading of the report lies in the text: at its position,
    which is the start of a line, stand as many hash marks as its level,
    between 1 and 6, then white space, then a body that runs to the end of
    its line and whose trimmed form is the heading's text; the headings come
    in the order of their positions. *)
Theorem headings_lie_in_text (text : JsString) :
  exists report,
    analyze_document_structure (text_only text) = Returns (StructureResult report) /\
    Forall (heading_in text) (StructureReport.headings report) /\
    ordered (fun h1 h2 => Heading.position h1 < Heading.position h2)
      (StructureReport.headings report).
Proof.
  destruct (analyze_report (text_only text) text eq_refl)
    as (hs & ps & bs & ns & ts & ws & Hh & _ & _ & _ & _ & _ & ->).
  destruct (heading_loop_matches text) as (ms & Hms & Hloop).
  rewrite Hloop in Hh. injection Hh as <-.
  eexists. split; [reflexivity|]. simpl. unfold all_matches in Hms. split.
  - apply Forall_fmap. pose proof (matches_from_found _ _ _ _ _ Hms) as Hf.
    eapply Forall_impl; [exact Hf|].
    intros m (before & rest' & e & Hw & He & ->). simpl in Hw.
    apply (heading_of_match text before rest' e Hw He).
  - apply (ordered_fmap heading_of (fun h1 h2 => Heading.position h1 < Heading.position h2)).
    destruct (matches_from_indices _ _ _ _ _ Hms) as [Hall Hord].
    clear -Hall Hord. induction ms as [|m ms IH]; simpl in *; [auto|].
    destruct Hord as [H1 H2]. inversion Hall as [|? ? (_ & _ & Hm) Hall']; subst.
    split; [|auto].
    eapply Forall_impl; [exact H1|]. intros m'. simpl. lia.
Qed.

(** ** Code blocks *)

Lemma trimStart_head s c : head (trimStart s) = Some c -> is_space c = false.
Proof.
  induction s as [|a s IH]; simpl; [discriminate|].
  destruct (is_space a) eqn:E; [exact IH|]. simpl. intros [= <-]. exact E.
Qed.

Lemma trimStart_suffix s :
  exists sp, s = sp ++ trimStart s /\ Forall (fun c => is_space c = true) sp.
Proof.
  induction s as [|a s (sp & IH & Hsp)]; simpl; [exists []; auto|].
  destruct (is_space a) eqn:E.
  - exists (a :: sp). simpl. split; [f_equal; exact IH|]. constructor; assumption.
  - exists []. auto.
Qed.

Lemma trimEnd_prefix s :
  exists sp, s = trimEnd s ++ sp /\ Forall (fun c => is_space c = true) sp.
Proof.
  unfold trimEnd. destruct (trimStart_suffix (rev s)) as (sp & H & Hsp).
  exists (rev sp). split; [|apply Forall_rev, Hsp].
  rewrite <- rev_app_distr, <- H, rev_involutive. reflexivity.
Qed.

Lemma trim_last s c : head (rev (trim s)) = Some c -> is_space c = false.
Proof.
  unfold trim, trimEnd. rewrite rev_involutive. apply trimStart_head.
Qed.

Lemma trim_head s c : head (trim s) = Some c -> is_space c = false.
Proof.
  unfold trim. intros H.
  destruct (trimEnd_prefix (trimStart s)) as (sp & Hs & _).
  apply (trimStart_head s). rewrite Hs.
  destruct (trimEnd (trimStart s)); [discriminate|exact H].
Qed.

Lemma lower_char_alnum c :
  is_alnum c = true -> is_lower (lower_char c) || is_digit (lower_char c) = true.
Proof. destruct c as [[] [] [] [] [] [] [] []]; vm_compute; auto. Qed.

(** What group 1 of the code-block regex holds, when it holds anything:
    letters and digits. *)
Lemma codeBlockRegex_language pre rest e v :
  match_at codeBlockRegex pre rest = Some e ->
  get_capture 1 e = Some v ->
  Forall (fun c => is_alnum c = true) v.
Proof.
  intros H Hv.
  assert (Hg : groups_ok 1 (Forall (fun c => is_alnum c = true)) codeBlockRegex).
  { simpl. split_and!; try done. intros _ w (_ & _ & F). apply F. reflexivity. }
  destruct (rmatch_traces 1 _ _ Hg _ _ _ H) as (y & w & _ & _ & Hy & [= ->]).
  - intros u Hu. discriminate.
  - apply Hy, Hv.
Qed.

Lemma block_of_match_well_formed pre rest e :
  match_at codeBlockRegex pre rest = Some e ->
  well_formed_block (block_of_match (mk_match pre e)).
Proof.
  intros H. unfold well_formed_block, block_of_match. simpl. split_and!.
  - unfold blockLanguage. simpl.
    destruct (get_capture 1 e) as [[|a v]|] eqn:E; simpl; auto.
    right. split; [discriminate|].
    pose proof (codeBlockRegex_language _ _ _ _ H E) as Hv.
    change (lower_char a :: toLowerCase v) with (lower_char <$> (a :: v)).
    apply Forall_fmap. eapply Forall_impl; [exact Hv|].
    intros c Hc. apply lower_char_alnum, Hc.
  - intros c. unfold block_code. destruct (truthy_string _); apply trim_head.
  - intros c. unfold block_code. destruct (truthy_string _); apply trim_last.
Qed.

(** X2.  Every code block [extract_code] returns has for language either
    ["unknown"] or a non-empty string of lower-case letters and digits, and
    for code a string with no white space at its start or at its end. *)
Theorem code_blocks_well_formed (params : Params.t) :
  exists codeBlocks,
    extract_code params = Returns (CodeResult codeBlocks (length codeBlocks)) /\
    Forall well_formed_block codeBlocks.
Proof.
  destruct (extract_code_matches params) as (ms & Hms & ->).
  eexists. split; [reflexivity|]. apply Forall_fmap.
  pose proof (matches_from_found _ _ _ _ _ Hms) as Hf.
  rewrite Forall_forall in Hf. apply Forall_forall. intros m Hm.
  apply list_elem_of_filter in Hm as [_ Hm].
  destruct (Hf m Hm) as (before & rest' & e & _ & He & ->). simpl.
  apply (block_of_match_well_formed _ _ _ He).
Qed.

(** ** Words *)

Lemma run_of p (s : list ascii) :
  exists u tail, s = u ++ tail /\ Forall (fun c => p c = true) u /\ stops p tail.
Proof.
  induction s as [|a s (u & tail & -> & Hu & Ht)].
  - exists [], []. simpl. auto.
  - destruct (p a) eqn:E.
    + exists (a :: u), tail. simpl. auto.
    + exists [], (a :: u ++ tail). simpl. auto.
Qed.

Lemma count_words_spaces u tail inside :
  Forall (fun c => is_space c = true) u -> (u = [] -> inside = false) ->
  count_words inside (u ++ tail) = count_words false tail.
Proof.
  intros Hu. revert inside. induction Hu as [|a u Ha Hu IH]; intros inside Hi; simpl.
  - rewrite Hi; reflexivity.
  - rewrite Ha. apply IH. reflexivity.
Qed.

Lemma match_at_plus_class p pre u tail :
  u <> [] -> Forall (fun c => p c = true) u -> stops p tail ->
  match_at (plus (Cls p)) pre (u ++ tail) = Some (MState (rev u ++ pre) tail []).
Proof.
  intros Hne Hu Ht. unfold match_at, plus. rewrite rmatch_greedy_class.
  change (u ++ tail) with (u ++ [] ++ tail).
  apply greedy_class_found; auto.
  - rewrite app_nil_r. exact Hu.
  - destruct u; [done|simpl; lia].
  - intros [|] v2 Hv Hv1; [done|discriminate].
Qed.

Lemma match_at_plus_class_miss p pre rest :
  stops p rest -> match_at (plus (Cls p)) pre rest = None.
Proof.
  intros Ht. unfold match_at, plus. rewrite rmatch_greedy_class.
  change rest with ([] ++ rest). apply greedy_class_fails; auto.
  intros v1 v2 Hv Hl. destruct v1; [simpl in Hl; lia|discriminate].
Qed.

Lemma count_nonempty_snoc A (w : JsString) :
  count_nonempty (A ++ [w]) = count_nonempty A + (if w is [] then 0 else 1).
Proof.
  unfold count_nonempty. rewrite filter_app, length_app. f_equal.
  destruct w; reflexivity.
Qed.

(** The pieces [split] cuts at white space, counted. *)
Lemma split_from_words : forall fuel p cur pre rest A l,
  p <= length pre ->
  split_from fuel wordRegex p cur pre rest A = Returns l ->
  count_nonempty l =
    count_nonempty A + (if cur is [] then 0 else 1) +
    count_words (if cur is [] then false else true) rest.
Proof.
  induction fuel as [|fuel IH]; intros p cur pre rest A l Hp H; [discriminate|].
  simpl in H. destruct rest as [|a rest'].
  - injection H as <-. rewrite count_nonempty_snoc. simpl.
    destruct cur as [|b cur]; simpl; [lia|].
    destruct (rev cur ++ [b]) eqn:E; [|lia].
    apply (f_equal length) in E. rewrite length_app in E. simpl in E. lia.
  - destruct (is_space a) eqn:Ea.
    + destruct (run_of is_space rest') as (u & tail & -> & Hu & Ht).
      change (a :: u ++ tail) with ((a :: u) ++ tail) in H.
      unfold wordRegex in H.
      rewrite (match_at_plus_class is_space pre (a :: u) tail) in H; auto.
      assert (En : (endIndex (MState (rev (a :: u) ++ pre) tail []) =? p) = false).
      { apply Nat.eqb_neq. unfold endIndex. simpl.
        rewrite !length_app, length_rev. simpl. lia. }
      rewrite En in H. apply IH in H; [|unfold endIndex; simpl; lia].
      rewrite H, count_nonempty_snoc. simpl. rewrite Ea.
      rewrite count_words_spaces by (auto; intros ->; reflexivity).
      destruct cur as [|b cur]; simpl; [lia|].
      destruct (rev cur ++ [b]) eqn:E; [|lia].
      apply (f_equal length) in E. rewrite length_app in E. simpl in E. lia.
    + unfold wordRegex in H.
      rewrite match_at_plus_class_miss in H by exact Ea.
      apply IH in H; [|simpl; lia]. rewrite H. simpl. rewrite Ea.
      destruct cur; simpl; lia.
Qed.

Lemma split_words text l :
  split wordRegex text = Returns l -> count_nonempty l = count_words false text.
Proof.
  unfold split. destruct text as [|a text].
  - unfold wordRegex. rewrite match_at_plus_class_miss by exact I.
    intros [= <-]. reflexivity.
  - intros H. apply split_from_words in H; [|simpl; lia]. exact H.
Qed.

(** X3.  [wordCount] is the number of maximal runs of characters other than
    white space in the text. *)
Theorem wordCount_counts_runs (text : JsString) :
  exists report,
    analyze_document_structure (text_only text) = Returns (StructureResult report) /\
    StructureReport.wordCount report = count_words false text.
Proof.
  destruct (analyze_report (text_only text) text eq_refl)
    as (hs & ps & bs & ns & ts & ws & _ & _ & _ & _ & _ & Hw & ->).
  eexists. split; [reflexivity|]. simpl. apply (split_words _ _ Hw).
Qed.

(** ** Paragraphs *)

Lemma match_at_run_facts r pre rest z :
  match_at r pre rest = Some z ->
  exists w, rest = w ++ remaining z /\ consumed z = rev w ++ pre /\ run_facts r w.
Proof.
  intros H.
  destruct (rmatch_frames (fun _ => True) r (fun _ _ _ _ _ => I) _ _ _ H I)
    as (y & w & [R C] & Hw & _ & [= ->]).
  exists w. auto.
Qed.

(** [split] cuts the text into pieces with a match of the regex between
    each two. *)
Lemma split_from_weave r : forall fuel p cur pre rest A l,
  split_from fuel r p cur pre rest A = Returns l ->
  exists ps seps,
    l = A ++ ps /\ rev cur ++ rest = weave ps seps /\
    length ps = S (length seps) /\ Forall (run_facts r) seps.
Proof.
  induction fuel as [|fuel IH]; intros p cur pre rest A l H; [discriminate|].
  simpl in H. destruct rest as [|a rest'].
  - injection H as <-. exists [rev cur], []. simpl. rewrite app_nil_r. auto.
  - assert (Hnext : split_from fuel r p (a :: cur) (a :: pre) rest' A = Returns l ->
      exists ps seps,
        l = A ++ ps /\ rev cur ++ a :: rest' = weave ps seps /\
        length ps = S (length seps) /\ Forall (run_facts r) seps).
    { intros H'. apply IH in H' as (ps & seps & -> & Hw & Hl & Hs).
      exists ps, seps. split_and!; auto. rewrite <- Hw. simpl.
      rewrite <- app_assoc. reflexivity. }
    destruct (match_at r pre (a :: rest')) as [z|] eqn:E; [|auto].
    destruct (endIndex z =? p); [auto|].
    apply IH in H as (ps & seps & -> & Hw & Hl & Hs).
    apply match_at_run_facts in E as (w & R & _ & Hr).
    exists (rev cur :: ps), (w :: seps). split_and!.
    + rewrite <- app_assoc. reflexivity.
    + simpl in *. rewrite <- Hw, R. reflexivity.
    + simpl. lia.
    + constructor; assumption.
Qed.

Lemma count_words_blank s : Forall (fun c => is_space c = true) s -> count_words false s = 0.
Proof.
  intros H. rewrite <- (app_nil_r s). rewrite count_words_spaces; auto.
Qed.

Lemma count_words_sep piece sep tail inside :
  sep <> [] -> Forall (fun c => is_space c = true) sep ->
  count_words inside (piece ++ sep ++ tail) =
  count_words inside piece + count_words false tail.
Proof.
  intros Hne Hs. revert inside.
  induction piece as [|c piece IH]; intros inside; simpl.
  - apply count_words_spaces; auto. intros ->. done.
  - destruct (is_space c); rewrite IH; lia.
Qed.

Lemma trim_split s :
  exists l r, s = l ++ trim s ++ r /\
    Forall (fun c => is_space c = true) l /\ Forall (fun c => is_space c = true) r.
Proof.
  destruct (trimStart_suffix s) as (l & Hl & Fl).
  destruct (trimEnd_prefix (trimStart s)) as (r & Hr & Fr).
  exists l, r. split_and!; auto. unfold trim. rewrite <- Hr. exact Hl.
Qed.

(** A piece counts as a paragraph exactly when it holds a word. *)
Lemma nonblank_words s : nonempty (trim s) = true <-> 1 <= count_words false s.
Proof.
  destruct (trim_split s) as (l & r & Hs & Fl & Fr).
  pose proof (trim_head s) as Hh.
  destruct (trim s) as [|c t] eqn:E; simpl.
  - rewrite Hs. simpl. rewrite count_words_spaces, count_words_blank by auto.
    unfold nonempty. simpl. split; [discriminate|lia].
  - rewrite Hs, count_words_spaces by auto. simpl.
    rewrite (Hh c eq_refl). unfold nonempty. simpl. split; [lia|reflexivity].
Qed.

Lemma count_paragraphs_weave : forall ps seps,
  length ps = S (length seps) ->
  Forall (fun s => s <> [] /\ Forall (fun c => is_space c = true) s) seps ->
  count_paragraphs ps <= count_words false (weave ps seps) /\
  (count_paragraphs ps = 0 <-> count_words false (weave ps seps) = 0).
Proof.
  unfold count_paragraphs.
  induction ps as [|p ps IH]; intros seps Hl Hs; [discriminate|].
  rewrite filter_cons. pose proof (nonblank_words p) as Hp.
  destruct seps as [|s seps]; simpl in *.
  - destruct ps; [|discriminate]. rewrite filter_nil.
    destruct (decide (nonempty (trim p) = true)) as [Y|N]; simpl.
    + apply Hp in Y. lia.
    + assert (count_words false p = 0) by (destruct (count_words false p); [done|];
        exfalso; apply N, Hp; lia). lia.
  - inversion Hs as [|? ? [Hne Hsp] Hs']; subst.
    rewrite count_words_sep by auto.
    destruct (IH seps ltac:(lia) Hs') as [Hle Hz].
    destruct (decide (nonempty (trim p) = true)) as [Y|N]; simpl.
    + apply Hp in Y. lia.
    + assert (count_words false p = 0) by (destruct (count_words false p); [done|];
        exfalso; apply N, Hp; lia). lia.
Qed.

Lemma paragraphRegex_separator w :
  run_facts paragraphRegex w -> w <> [] /\ Forall (fun c => is_space c = true) w.
Proof.
  intros (Hmin & _ & Hp). split.
  - intros ->. simpl in Hmin. lia.
  - apply Hp. vm_compute. reflexivity.
Qed.

(** X4.  A text has at most as many paragraphs as words, and no paragraph
    exactly when it has no word. *)
Theorem paragraphs_hold_words (text : JsString) :
  exists report,
    analyze_document_structure (text_only text) = Returns (StructureResult report) /\
    StructureReport.paragraphCount report <= StructureReport.wordCount report /\
    (StructureReport.paragraphCount report = 0 <-> StructureReport.wordCount report = 0).
Proof.
  destruct (analyze_report (text_only text) text eq_refl)
    as (hs & ps & bs & ns & ts & ws & _ & Hp & _ & _ & _ & Hw & ->).
  eexists. split; [reflexivity|]. simpl.
  apply split_words in Hw. unfold count_nonempty in Hw. rewrite Hw.
  unfold split in Hp. destruct text as [|a text].
  - vm_compute in Hp. injection Hp as <-. vm_compute. split; [lia|done].
  - apply split_from_weave in Hp as (ps' & seps & -> & Hweave & Hl & Hs).
    simpl in Hweave. rewrite Hweave. apply count_paragraphs_weave; auto.
    eapply Forall_impl; [exact Hs|]. apply paragraphRegex_separator.
Qed.

(** ** Lines and the items that open them *)

Lemma total_skip f w : forall pre rest,
  total f (rev w ++ pre) rest <= total f pre (w ++ rest).
Proof.
  induction w as [|a w IH]; intros pre rest; simpl; [lia|].
  rewrite <- app_assoc. simpl. specialize (IH (a :: pre) rest). lia.
Qed.

Lemma total_le f g :
  (forall pre rest, f pre rest <= g pre rest) ->
  forall rest pre, total f pre rest <= total g pre rest.
Proof.
  intros H. induction rest as [|a rest IH]; intros pre; simpl.
  - specialize (H pre []). lia.
  - specialize (H pre (a :: rest)). specialize (IH (a :: pre)). lia.
Qed.

Lemma total_add f g : forall rest pre,
  total (fun pre rest => f pre rest + g pre rest) pre rest =
  total f pre rest + total g pre rest.
Proof.
  induction rest as [|a rest IH]; intros pre; simpl; [lia|].
  rewrite IH. lia.
Qed.

Lemma total_line_starts : forall rest pre,
  total (fun pre _ => if at_bol (MState pre [] []) then 1 else 0) pre rest =
  (if at_bol (MState pre [] []) then 1 else 0) +
  length (filter (fun c => is_line_terminator c = true) rest).
Proof.
  induction rest as [|a rest IH]; intros pre; simpl; [reflexivity|].
  rewrite IH, filter_cons. unfold at_bol at 2. simpl.
  destruct (decide (is_line_terminator a = true)) as [Y|N].
  - rewrite Y. reflexivity.
  - apply not_true_is_false in N. rewrite N. reflexivity.
Qed.

(** A loop over [exec] finds no more matches than the positions at which a
    match can start. *)
Lemma matches_from_total r f :
  1 <= min_len r ->
  (forall pre rest e, match_at r pre rest = Some e -> 1 <= f pre rest) ->
  forall fuel pre rest ms,
    matches_from fuel r pre rest = Some ms -> length ms <= total f pre rest.
Proof.
  intros Hr Hf. induction fuel as [|fuel IH]; intros pre rest ms H; [discriminate|].
  simpl in H. destruct (search r pre rest) as [m|] eqn:E.
  - destruct (matches_from fuel r _ _) as [ms'|] eqn:E'; [|discriminate].
    injection H as <-. apply IH in E'.
    apply search_found in E as (skipped & rest' & e & -> & He & ->).
    simpl in E'. pose proof (Hf _ _ _ He) as H1.
    apply match_at_reads in He as (w & L & R & C).
    rewrite C in E'. rewrite R.
    pose proof (total_skip f skipped pre (w ++ remaining e)) as H2.
    destruct w as [|a w]; [simpl in L; lia|].
    pose proof (total_skip f w (a :: rev skipped ++ pre) (remaining e)) as H3.
    simpl in *. rewrite <- app_assoc in E'. simpl in E'. rewrite R in H1. lia.
  - injection H as <-. simpl. lia.
Qed.

(** [text.match(regex)] holds the text of each match of the loop. *)
Lemma match_from_matches r :
  1 <= min_len r ->
  forall fuel pre rest A,
    match_from fuel r pre rest A =
    match matches_from fuel r pre rest with
    | Some ms => Returns (A ++ map matched ms)
    | None => Diverges
    end.
Proof.
  intros Hr. induction fuel as [|fuel IH]; intros pre rest A; [reflexivity|].
  simpl. destruct (search r pre rest) as [m|] eqn:E.
  - apply search_remaining in E as [_ K].
    destruct (matched m) as [|a w] eqn:Em; [simpl in K; lia|].
    rewrite IH. destruct (matches_from fuel r _ _); simpl; [|reflexivity].
    rewrite <- app_assoc, Em. reflexivity.
  - simpl. rewrite app_nil_r. reflexivity.
Qed.

Lemma match_all_count r text f :
  1 <= min_len r ->
  (forall pre rest e, match_at r pre rest = Some e -> 1 <= f pre rest) ->
  forall l, match_all r text = Returns l -> length l <= total f [] text.
Proof.
  intros Hr Hf l H. unfold match_all in H. rewrite match_from_matches in H by exact Hr.
  destruct (matches_from _ r [] text) as [ms|] eqn:E; [|discriminate].
  injection H as <-. simpl. rewrite length_map.
  eapply matches_from_total; eauto.
Qed.

Lemma rmatch_cls_inv p c x z :
  rmatch (Cls p) c x = Some z ->
  exists a rest, remaining x = a :: rest /\ p a = true /\
    c (MState (a :: consumed x) rest (captures x)) = Some z.
Proof.
  cbn [rmatch]. destruct (remaining x) as [|a rest]; [discriminate|].
  destruct (p a) eqn:E; [|discriminate]. eauto.
Qed.

Lemma trimStart_spaces w a tail :
  Forall (fun c => is_space c = true) w -> is_space a = false ->
  head (trimStart (w ++ a :: tail)) = Some a.
Proof.
  intros Hw Ha. induction Hw as [|b w Hb _ IH]; simpl.
  - rewrite Ha. reflexivity.
  - rewrite Hb. exact IH.
Qed.

Lemma opens_intro p pre w a tail :
  at_bol (MState pre [] []) = true ->
  Forall (fun c => is_space c = true) w -> is_space a = false -> p a = true ->
  1 <= opens p pre (w ++ a :: tail).
Proof.
  intros Hb Hw Ha Hp. unfold opens.
  rewrite Hb, trimStart_spaces, Hp by assumption. lia.
Qed.

Lemma headingRegex_opens pre rest e :
  match_at headingRegex pre rest = Some e -> 1 <= opens (is_char "#") pre rest.
Proof.
  intros H. apply headingRegex_match in H
    as (hashes & spaces & body & -> & _ & Hbol & Hh & Hlen & _).
  rewrite Hh. destruct (length hashes) as [|n]; [lia|]. simpl.
  apply (opens_intro _ pre []); auto.
Qed.

Lemma tableRegex_opens pre rest e :
  match_at tableRegex pre rest = Some e -> 1 <= opens (is_char "|") pre rest.
Proof.
  unfold match_at, tableRegex, cat. intros H.
  rewrite rmatch_cat in H. apply rmatch_bol_inv in H as [Hbol H].
  rewrite rmatch_cat in H. apply rmatch_cls_inv in H as (a & t & R & Ha & _).
  simpl in R. subst rest. apply (opens_intro _ pre []); auto.
  apply Ascii.eqb_eq in Ha. subst a. reflexivity.
Qed.

Lemma spaces_then_mark r c pre rest z :
  rmatch (Cat (star (Cls is_space)) r) c (MState pre rest []) = Some z ->
  exists w y, rest = w ++ remaining y /\ Forall (fun c => is_space c = true) w /\
    rmatch r c y = Some z.
Proof.
  intros H. rewrite rmatch_cat in H.
  destruct (rmatch_frames (fun _ => True) (star (Cls is_space))
              ltac:(auto) _ _ _ H I) as (y & w & [R _] & (_ & _ & P) & _ & Hy).
  exists w, y. split_and!; auto.
Qed.

Lemma bulletListRegex_opens pre rest e :
  match_at bulletListRegex pre rest = Some e ->
  1 <= opens (one_of ["-"; "*"; "+"]%char) pre rest.
Proof.
  unfold match_at, bulletListRegex, cat. intros H.
  rewrite rmatch_cat in H. apply rmatch_bol_inv in H as [Hbol H].
  apply spaces_then_mark in H as (w & y & -> & Hw & H).
  rewrite rmatch_cat in H. apply rmatch_cls_inv in H as (a & t & -> & Ha & _).
  apply opens_intro; auto.
  destruct a as [[] [] [] [] [] [] [] []]; try discriminate Ha; reflexivity.
Qed.

Lemma numberedListRegex_opens pre rest e :
  match_at numberedListRegex pre rest = Some e -> 1 <= opens is_digit pre rest.
Proof.
  unfold match_at, numberedListRegex, cat. intros H.
  rewrite rmatch_cat in H. apply rmatch_bol_inv in H as [Hbol H].
  apply spaces_then_mark in H as (w & y & -> & Hw & H).
  rewrite rmatch_cat in H.
  destruct (rmatch_frames (fun _ => True) (plus (Cls is_digit))
              ltac:(auto) _ _ _ H I) as (y' & d & [R _] & (L & _ & P) & _ & _).
  rewrite R. destruct d as [|a d]; [simpl in L; lia|].
  specialize (P is_digit eq_refl). inversion P as [|? ? Ha _]; subst. simpl.
  apply opens_intro; auto.
  destruct a as [[] [] [] [] [] [] [] []]; try discriminate Ha; reflexivity.
Qed.

(** The four marks exclude each other. *)
Lemma one_mark_a_line pre rest :
  opens (is_char "#") pre rest + opens (one_of ["-"; "*"; "+"]%char) pre rest +
  opens is_digit pre rest + opens (is_char "|") pre rest <=
  (if at_bol (MState pre [] []) then 1 else 0).
Proof.
  unfold opens. destruct (at_bol _); [|lia].
  destruct (head (trimStart rest)) as [c|]; [|lia].
  destruct c as [[] [] [] [] [] [] [] []]; vm_compute; lia.
Qed.

(** X5.  Headings, bullet items, numbered items and table rows together
    are no more than the lines of the text: each starts at the start of a
    line, and the first character after the white space there tells which
    of the four it can be. *)
Theorem line_items_bounded_by_lines (text : JsString) :
  exists report,
    analyze_document_structure (text_only text) = Returns (StructureResult report) /\
    length (StructureReport.headings report) +
    StructureReport.bulletListItemCount report +
    StructureReport.numberedListItemCount report +
    StructureReport.tableRowCount report <= line_count text.
Proof.
  destruct (analyze_report (text_only text) text eq_refl)
    as (hs & ps & bs & ns & ts & ws & Hh & _ & Hb & Hn & Ht & _ & ->).
  eexists. split; [reflexivity|]. simpl.
  destruct (heading_loop_matches text) as (ms & Hms & Hloop).
  rewrite Hloop in Hh. injection Hh as <-. rewrite length_map.
  apply (matches_from_total _ (opens (is_char "#"))) in Hms;
    [|rewrite headingRegex_min_len; lia|apply headingRegex_opens].
  apply (match_all_count _ _ (opens (one_of ["-"; "*"; "+"]%char))) in Hb;
    [|simpl; lia|apply bulletListRegex_opens].
  apply (match_all_count _ _ (opens is_digit)) in Hn;
    [|simpl; lia|apply numberedListRegex_opens].
  apply (match_all_count _ _ (opens (is_char "|"))) in Ht;
    [|simpl; lia|apply tableRegex_opens].
  pose proof (total_le _ _ one_mark_a_line text []) as Hsum.
  rewrite !total_add, total_line_starts in Hsum.
  unfold line_count. simpl in Hsum.
  etrans; [|exact Hsum]. repeat apply Nat.add_le_mono; assumption.
Qed.

(** ** Where code blocks come from *)

Lemma subclass_refl p : subclass p p = true.
Proof.
  unfold subclass. apply forallb_forall. intros c _. destruct (p c); reflexivity.
Qed.

(** A literal reads itself and leaves the captures alone. *)
Lemma rmatch_lit_inv s : forall c x z,
  rmatch (lit s) c x = Some z ->
  exists y, reads_text s x y /\ captures y = captures x /\ c y = Some z.
Proof.
  induction s as [|a s IH]; intros c x z H.
  - exists x. split; [apply reads_text_refl|auto].
  - destruct s as [|b s].
    + apply rmatch_cls_inv in H as (a' & t & R & Ha & H).
      apply Ascii.eqb_eq in Ha. subst a'.
      eexists. split; [|split; [|exact H]]; [split; [exact R|]|]; reflexivity.
    + change (lit (a :: b :: s)) with (Cat (chr a) (lit (b :: s))) in H.
      rewrite rmatch_cat in H. apply rmatch_cls_inv in H as (a' & t & R & Ha & H).
      apply Ascii.eqb_eq in Ha. subst a'.
      apply IH in H as (y & [R2 C2] & K & H). simpl in R2, C2, K.
      exists y. split; [|auto]. split.
      * rewrite R, R2. reflexivity.
      * rewrite C2. simpl. rewrite <- !app_assoc. reflexivity.
Qed.

(** A repeated class reads a run of the class and leaves the captures
    alone. *)
Lemma rmatch_class_run mn mx g p c x z :
  rmatch (Rep mn mx g (Cls p)) c x = Some z ->
  exists w y, reads_text w x y /\ captures y = captures x /\
    Forall (fun a => p a = true) w /\
    min_len (Rep mn mx g (Cls p)) <= length w /\ c y = Some z.
Proof.
  intros H.
  destruct (rmatch_frames (fun caps => caps = captures x) (Rep mn mx g (Cls p))
              ltac:(intros n v x' Hn; inversion Hn) _ _ _ H eq_refl)
    as (y & w & R & (L & _ & P) & K & Hy).
  exists w, y. split_and!; auto. apply P. simpl. apply subclass_refl.
Qed.

(** [r?]: one turn of [r], or none. *)
Lemma rmatch_opt_inv r c x z :
  rmatch (opt r) c x = Some z ->
  (exists d, rmatch r d (clear_captures (group_ids r) x) = Some z /\
             forall y, d y = Some z -> c y = Some z) \/
  c x = Some z.
Proof.
  unfold opt. cbn [rmatch]. unfold repeat_fuel. cbn [repeat_matcher Nat.add].
  cbn [Nat.eqb negb andb].
  match goal with
  | |- match rmatch r ?d ?x' with _ => _ end = _ -> _ =>
    destruct (rmatch r d x') eqn:E; [intros [= ->]; left; exists d|auto]
  end.
  split; [exact E|]. intros y Hy. cbv beta in Hy.
  destruct (length (remaining y) =? length (remaining x)); [discriminate|].
  destruct (length (remaining x)); simpl in Hy; [discriminate|exact Hy].
Qed.

Lemma get_capture_ext k x y : captures x = captures y -> get_capture k x = get_capture k y.
Proof. unfold get_capture. intros ->. reflexivity. Qed.

(** The rest of a fenced block after the optional tag: the body and the
    closing fence. *)
Lemma fenced_tail y e :
  rmatch (Cat (Grp 2 (lazy_star (Cls any_char))) (lit fence)) Some y = Some e ->
  exists body,
    remaining y = body ++ fence ++ remaining e /\
    consumed e = rev (body ++ fence) ++ consumed y /\
    get_capture 2 e = Some body /\ get_capture 1 e = get_capture 1 y.
Proof.
  intros H. rewrite rmatch_cat, rmatch_grp in H. unfold lazy_star in H.
  apply rmatch_class_run in H as (body & y2 & R2 & K2 & _ & _ & H).
  cbv beta in H. rewrite (reads_text_between body) in H by exact R2.
  apply rmatch_lit_inv in H as (y3 & [R3 C3] & K3 & [= <-]).
  destruct R2 as [R2 C2]. simpl in R3, C3.
  exists body. split_and!.
  - rewrite R2, R3. reflexivity.
  - rewrite C3, C2, rev_app_distr, <- app_assoc. reflexivity.
  - rewrite (get_capture_ext _ _ _ K3). apply (get_set_capture 2 2).
  - rewrite (get_capture_ext _ _ _ K3), (get_set_capture 1 2). simpl.
    apply get_capture_ext, K2.
Qed.

Lemma rmatch_rep mn mx g r c x :
  rmatch (Rep mn mx g r) c x =
  repeat_matcher (rmatch r) (group_ids r) g (repeat_fuel mn x) mn mx c x.
Proof. reflexivity. Qed.

(** A match of the fenced alternative, piece by piece: the fence, the tag
    with its line feed or nothing, the body, the fence. *)
Lemma fencedBlock_match pre rest e :
  rmatch fencedBlock Some (MState pre rest []) = Some e ->
  exists tag body,
    rest = fence ++ tag ++ body ++ fence ++ remaining e /\
    consumed e = rev (fence ++ tag ++ body ++ fence) ++ pre /\
    get_capture 2 e = Some body /\
    ((tag = [] /\ get_capture 1 e = None) \/
     (exists name, tag = name ++ [LF] /\ name <> [] /\
        Forall (fun c => is_alnum c = true) name /\ get_capture 1 e = Some name)).
Proof.
  unfold fencedBlock, cat. intros H.
  rewrite rmatch_cat in H.
  apply rmatch_lit_inv in H as (y0 & [R0 C0] & K0 & H). simpl in R0, C0, K0.
  rewrite rmatch_cat in H. apply rmatch_opt_inv in H as [(d & H & Hd)|H].
  - rewrite rmatch_cat, rmatch_grp in H. unfold plus in H.
    apply rmatch_class_run in H as (name & y1 & R1 & K1 & F1 & L1 & H).
    cbv beta in H. rewrite (reads_text_between name) in H by exact R1.
    apply rmatch_cls_inv in H as (a & t & Ra & Ha & H).
    apply Ascii.eqb_eq in Ha. subst a. simpl in Ra.
    apply Hd, fenced_tail in H as (body & Rb & Cb & G2 & G1).
    simpl in Rb, Cb.
    assert (G1' : get_capture 1 e = Some name).
    { rewrite G1. exact (get_set_capture 1 1 (Some name) y1). }
    destruct R1 as [R1 C1].
    rewrite clear_captures_remaining in R1. rewrite clear_captures_consumed in C1.
    exists (name ++ [LF]), body. split_and!.
    + rewrite R0, R1, Ra, Rb, <- !app_assoc. reflexivity.
    + rewrite Cb, C1, C0. rewrite !rev_app_distr. simpl. rewrite <- !app_assoc.
      reflexivity.
    + exact G2.
    + right. exists name. split_and!; auto.
      intros ->. simpl in L1. lia.
  - apply fenced_tail in H as (body & Rb & Cb & G2 & G1).
    exists [], body. split_and!.
    + rewrite R0, Rb. reflexivity.
    + rewrite Cb, C0, !rev_app_distr, <- !app_assoc. reflexivity.
    + exact G2.
    + left. split; [reflexivity|]. rewrite G1. unfold get_capture. rewrite K0.
      reflexivity.
Qed.

Lemma indented_lines_run y e :
  rmatch (plus (Cat (plus (Cls (one_of [SP; TAB])))
                    (Cat (star (Cls (none_of [LF]))) (chr LF)))) Some y = Some e ->
  exists lines,
    remaining y = concat lines ++ remaining e /\
    consumed e = rev (concat lines) ++ consumed y /\
    lines <> [] /\ Forall indented_line lines.
Proof.
  unfold plus at 1. rewrite rmatch_rep. intros H.
  eapply (repeat_matcher_traces _ _ _ indented_line (fun _ => True)) in H; auto.
  - destruct H as (y' & ws & [R C] & F & L & _ & _ & [= ->]).
    exists ws. split_and!; auto. intros ->. simpl in L. lia.
  - clear. intros c x z H _. rewrite rmatch_cat in H. unfold plus, star in H.
    apply rmatch_class_run in H as (w1 & y1 & R1 & _ & F1 & L1 & H).
    rewrite rmatch_cat in H.
    apply rmatch_class_run in H as (w2 & y2 & R2 & _ & F2 & _ & H).
    apply rmatch_cls_inv in H as (a & t & Ra & Ha & H).
    apply Ascii.eqb_eq in Ha. subst a.
    eexists _, (w1 ++ w2 ++ [LF]). split_and!; [| |exact I|exact H].
    + eapply reads_text_trans; [exact R1|].
      eapply reads_text_trans; [exact R2|]. split; [exact Ra|reflexivity].
    + exists w1, w2. split_and!; auto. intros ->. simpl in L1. lia.
Qed.

(** A match of the indented alternative: a blank line or nothing, then
    indented lines; no group has a value. *)
Lemma indentedBlock_match pre rest e :
  rmatch indentedBlock Some (MState pre rest []) = Some e ->
  exists lead lines,
    rest = lead ++ concat lines ++ remaining e /\
    consumed e = rev (lead ++ concat lines) ++ pre /\
    captures e = [] /\
    lines <> [] /\ Forall indented_line lines /\
    (lead = [] \/ blank_lead pre lead).
Proof.
  intros H.
  assert (K : captures e = []).
  { destruct (rmatch_frames (fun caps => caps = []) indentedBlock
                ltac:(intros n v x Hn; vm_compute in Hn; inversion Hn) _ _ _ H eq_refl)
      as (y & w & _ & _ & K & [= <-]). exact K. }
  revert H. unfold indentedBlock, cat. intros H.
  rewrite rmatch_cat in H. apply rmatch_opt_inv in H as [(d & H & Hd)|H].
  - rewrite rmatch_cat in H. apply rmatch_bol_inv in H as [Hbol H].
    rewrite rmatch_cat in H. unfold star in H.
    apply rmatch_class_run in H as (w & y1 & [R1 C1] & _ & F1 & _ & H).
    apply rmatch_cls_inv in H as (a & t & Ra & Ha & H).
    apply Ascii.eqb_eq in Ha. subst a.
    apply Hd, indented_lines_run in H as (lines & Rl & Cl & Hne & Hl).
    simpl in Rl, Cl.
    rewrite clear_captures_remaining in R1. rewrite clear_captures_consumed in C1.
    simpl in R1, C1.
    exists (w ++ [LF]), lines. split_and!; auto.
    + rewrite R1, Ra, Rl, <- !app_assoc. reflexivity.
    + rewrite Cl, C1, !rev_app_distr. simpl. rewrite <- !app_assoc. reflexivity.
    + right. split.
      * unfold at_bol in *. rewrite clear_captures_consumed in Hbol. exact Hbol.
      * exists w. auto.
  - apply indented_lines_run in H as (lines & Rl & Cl & Hne & Hl).
    simpl in Rl, Cl. exists [], lines. split_and!; auto.
Qed.

Lemma mk_match_matched pre w e :
  consumed e = rev w ++ pre -> matched (mk_match pre e) = w.
Proof. intros C. unfold mk_match. simpl. rewrite C. apply take_rev_app. Qed.

Lemma block_of_match_in before rest e :
  match_at codeBlockRegex (rev before) rest = Some e ->
  block_in (before ++ rest) (block_of_match (mk_match (rev before) e)).
Proof.
  unfold match_at, codeBlockRegex. cbn [rmatch]. intros H.
  unfold block_of_match, blockLanguage, block_code.
  change (group 1 (mk_match (rev before) e)) with (get_capture 1 e).
  change (group 2 (mk_match (rev before) e)) with (get_capture 2 e).
  destruct (rmatch fencedBlock Some _) as [e'|] eqn:E.
  - injection H as ->.
    apply fencedBlock_match in E as (tag & body & R & C & G2 & [[-> G1]|G1]).
    + right. left. exists before, body, (remaining e).
      rewrite (mk_match_matched _ _ _ C), G1, G2. subst rest.
      split_and!; [reflexivity..|]. destruct body; reflexivity.
    + destruct G1 as (name & -> & Hne & Hname & G1).
      left. exists before, name, body, (remaining e).
      rewrite (mk_match_matched _ _ _ C), G1, G2. subst rest.
      split_and!; auto.
      * rewrite <- !app_assoc. reflexivity.
      * destruct name; [done|reflexivity].
      * destruct body; simpl; [|reflexivity].
        rewrite <- !app_assoc. reflexivity.
  - apply indentedBlock_match in H as (lead & lines & R & C & K & Hne & Hl & Hlead).
    right. right. exists before, lead, lines, (remaining e).
    rewrite (mk_match_matched _ _ _ C).
    unfold get_capture. rewrite K. subst rest.
    split_and!; auto.
Qed.

(** X6.  Every code block [extract_code] returns lies in the text: it is a
    fenced block with a tag of letters and digits, whose lower-case form is
    its language; a fenced block without a tag; or a run of indented lines,
    each ended by a line feed, after at most one blank line.  Its code is
    the trimmed body of the fences, or the trimmed text of the whole block
    when it is indented or its body is empty. *)
Theorem code_blocks_lie_in_text (params : Params.t) :
  exists codeBlocks,
    extract_code params = Returns (CodeResult codeBlocks (length codeBlocks)) /\
    Forall (block_in (ToString (Params.text params))) codeBlocks.
Proof.
  destruct (extract_code_matches params) as (ms & Hms & ->).
  eexists. split; [reflexivity|]. apply Forall_fmap.
  pose proof (matches_from_found _ _ _ _ _ Hms) as Hf.
  rewrite Forall_forall in Hf. apply Forall_forall. intros m Hm.
  apply list_elem_of_filter in Hm as [_ Hm].
  destruct (Hf m Hm) as (before & rest' & e & Ht & He & ->). simpl in Ht.
  rewrite Ht. apply (block_of_match_in _ _ _ He).
Qed.

(** ** Paragraphs, counted *)

Lemma last_line_feed (ws : list ascii) :
  Forall (fun c => is_space c = true) ws ->
  Forall inline_space ws \/
  exists ws1 ws2, ws = ws1 ++ LF :: ws2 /\
    Forall (fun c => is_space c = true) ws1 /\ Forall inline_space ws2.
Proof.
  induction 1 as [|a ws Ha Hws IH].
  - left. constructor.
  - destruct IH as [IH|(ws1 & ws2 & -> & H1 & H2)].
    + destruct (is_char LF a) eqn:E.
      * right. apply Ascii.eqb_eq in E. subst a. exists [], ws. auto.
      * left. constructor; [split; assumption|exact IH].
    + right. exists (a :: ws1), ws2. simpl. auto.
Qed.

Lemma line_feed_miss c pre ws2 v2 tail caps :
  Forall inline_space ws2 -> stops is_space tail ->
  (exists v1, ws2 = v1 ++ v2) ->
  rmatch (chr LF) c (MState pre (v2 ++ tail) caps) = None.
Proof.
  intros H2 Ht [v1 ->]. apply rmatch_cls_miss.
  apply Forall_app in H2 as [_ H2].
  destruct v2 as [|b v2]; cbn [app].
  - destruct tail as [|a tail]; cbn [stops] in *; [exact I|].
    destruct (is_char LF a) eqn:E; [|reflexivity].
    apply Ascii.eqb_eq in E. subst a. discriminate Ht.
  - inversion H2 as [|? ? [_ Hb] _]; subst. exact Hb.
Qed.

(** At a line feed, the separator runs to the last line feed of the white
    space that follows. *)
Lemma paragraphRegex_hit pre ws1 ws2 tail :
  Forall (fun c => is_space c = true) ws1 -> Forall inline_space ws2 ->
  stops is_space tail ->
  match_at paragraphRegex pre (LF :: ws1 ++ LF :: ws2 ++ tail) =
  Some (MState (LF :: rev ws1 ++ LF :: pre) (ws2 ++ tail) []).
Proof.
  intros H1 H2 Ht. unfold match_at, paragraphRegex, cat.
  rewrite rmatch_cat. unfold chr at 1. rewrite rmatch_cls_hit by reflexivity.
  rewrite rmatch_cat. unfold star. rewrite rmatch_greedy_class.
  change (ws1 ++ LF :: ws2 ++ tail) with (ws1 ++ (LF :: ws2) ++ tail).
  apply greedy_class_found; auto.
  - apply Forall_app. split; [exact H1|]. constructor; [reflexivity|].
    eapply Forall_impl; [exact H2|]. intros c [Hc _]. exact Hc.
  - lia.
  - intros v1 v2 Hv Hne. destruct v1 as [|a v1]; [done|].
    injection Hv as <- ->. apply (line_feed_miss _ _ (v1 ++ v2)); eauto.
Qed.

Lemma paragraphRegex_miss_line pre ws tail :
  Forall inline_space ws -> stops is_space tail ->
  match_at paragraphRegex pre (LF :: ws ++ tail) = None.
Proof.
  intros H2 Ht. unfold match_at, paragraphRegex, cat.
  rewrite rmatch_cat. unfold chr at 1. rewrite rmatch_cls_hit by reflexivity.
  rewrite rmatch_cat. unfold star. rewrite rmatch_greedy_class.
  apply greedy_class_fails; auto.
  - eapply Forall_impl; [exact H2|]. intros c [Hc _]. exact Hc.
  - intros v1 v2 -> _. apply (line_feed_miss _ _ (v1 ++ v2)); eauto.
Qed.

Lemma paragraphRegex_miss_char pre a rest :
  is_char LF a = false -> match_at paragraphRegex pre (a :: rest) = None.
Proof.
  intros Ha. unfold match_at, paragraphRegex, cat.
  rewrite rmatch_cat. apply rmatch_cls_miss. exact Ha.
Qed.

(** White space with two line feeds brings the reader between paragraphs. *)
Lemma par_state_spaces st ws :
  Forall (fun c => is_space c = true) ws -> st <> Within ->
  foldl par_step st ws <> Within.
Proof.
  intros H. revert st. induction H as [|a ws Ha _ IH]; intros st Hst; simpl; [exact Hst|].
  apply IH. unfold par_step. destruct (is_char LF a); [destruct st; done|].
  rewrite Ha. exact Hst.
Qed.

Lemma par_count_spaces st ws tail :
  Forall (fun c => is_space c = true) ws ->
  par_count st (ws ++ tail) = par_count (foldl par_step st ws) tail.
Proof.
  intros H. revert st. induction H as [|a ws Ha _ IH]; intros st; simpl; [reflexivity|].
  rewrite Ha. apply IH.
Qed.

Lemma par_count_gap st ws1 tail :
  Forall (fun c => is_space c = true) ws1 ->
  par_count st (LF :: ws1 ++ LF :: tail) = par_count Between tail.
Proof.
  intros H1.
  replace (LF :: ws1 ++ LF :: tail) with ((LF :: ws1 ++ [LF]) ++ tail)
    by (simpl; rewrite <- app_assoc; reflexivity).
  rewrite par_count_spaces.
  - f_equal. simpl. rewrite foldl_app. simpl.
    pose proof (par_state_spaces (par_step st LF) ws1 H1) as Hn.
    destruct (foldl par_step (par_step st LF) ws1); try reflexivity.
    exfalso. apply Hn; [|reflexivity]. destruct st; done.
  - constructor; [reflexivity|]. apply Forall_app. split; [exact H1|].
    constructor; [reflexivity|constructor].
Qed.

Lemma line_goes_on_step a rest :
  line_goes_on (a :: rest) -> is_char LF a = false /\ (is_space a = true -> line_goes_on rest).
Proof.
  intros (ws & tail & E & Hws & Ht). destruct ws as [|b ws]; simpl in E.
  - subst tail. simpl in Ht. split.
    + destruct (is_char LF a) eqn:Ea; [|reflexivity].
      apply Ascii.eqb_eq in Ea. subst a. discriminate Ht.
    + intros Ha. congruence.
  - injection E as <- ->. inversion Hws as [|? ? [Hs Hl] Hws']; subst.
    split; [exact Hl|]. intros _. exists ws, tail. auto.
Qed.

Lemma count_paragraphs_snoc A (w : JsString) :
  count_paragraphs (A ++ [w]) =
  count_paragraphs A + (if nonempty (trim w) then 1 else 0).
Proof.
  unfold count_paragraphs. rewrite filter_app, length_app. f_equal.
  rewrite filter_cons, filter_nil.
  destruct (decide (nonempty (trim w) = true)) as [Y|N].
  - rewrite Y. reflexivity.
  - apply not_true_is_false in N. rewrite N. reflexivity.
Qed.

Lemma has_text_spaces s : Forall (fun c => is_space c = true) s -> has_text s = false.
Proof.
  induction 1 as [|a s Ha _ IH]; simpl; [reflexivity|]. rewrite Ha. exact IH.
Qed.

Lemma has_text_app s t : has_text (s ++ t) = has_text s || has_text t.
Proof. apply existsb_app. Qed.

Lemma has_text_rev s : has_text (rev s) = has_text s.
Proof.
  induction s as [|a s IH]; simpl; [reflexivity|].
  rewrite has_text_app, IH. simpl. rewrite orb_false_r. apply orb_comm.
Qed.

Lemma nonblank_has_text s : nonempty (trim s) = has_text s.
Proof.
  destruct (trim_split s) as (l & r & Hs & Fl & Fr).
  pose proof (trim_head s) as Hh. rewrite Hs at 2.
  rewrite !has_text_app, (has_text_spaces l), (has_text_spaces r) by assumption.
  rewrite orb_false_r. simpl.
  destruct (trim s) as [|c t]; [reflexivity|]. simpl.
  rewrite (Hh c eq_refl). reflexivity.
Qed.

(** The pieces [split] cuts at the paragraph separator, counted against the
    reader's count. *)
Lemma split_from_paragraphs : forall fuel p cur pre rest A l st,
  p <= length pre ->
  has_text cur = match st with Between => false | _ => true end ->
  (st = AfterLF -> line_goes_on rest) ->
  split_from fuel paragraphRegex p cur pre rest A = Returns l ->
  count_paragraphs l = count_paragraphs A + counts_one st + par_count st rest.
Proof.
  induction fuel as [|fuel IH]; intros p cur pre rest A l st Hp Hcur Hst H;
    [discriminate|].
  simpl in H. destruct rest as [|a rest'].
  - injection H as <-. rewrite count_paragraphs_snoc, nonblank_has_text, has_text_rev, Hcur.
    simpl. destruct st; simpl; lia.
  - destruct (is_char LF a) eqn:Ea.
    + apply Ascii.eqb_eq in Ea. subst a.
      assert (Hst' : st <> AfterLF).
      { intros E. apply Hst, line_goes_on_step in E as [E _]. discriminate E. }
      destruct (run_of is_space rest') as (ws & tail & -> & Hws & Ht).
      destruct (last_line_feed ws Hws) as [Hfree|(ws1 & ws2 & -> & H1 & H2)].
      * rewrite paragraphRegex_miss_line in H by assumption.
        apply (IH _ _ _ _ _ _ (par_step st LF)) in H.
        -- rewrite H. simpl. destruct st; simpl; try lia. done.
        -- simpl. lia.
        -- simpl. rewrite Hcur. destruct st; done.
        -- intros _. exists ws, tail. auto.
      * rewrite <- app_assoc in H. simpl in H.
        rewrite paragraphRegex_hit in H by assumption.
        assert (En : (endIndex (MState (LF :: rev ws1 ++ LF :: pre) (ws2 ++ tail) []) =? p)
                     = false).
        { apply Nat.eqb_neq. unfold endIndex. simpl. rewrite length_app. simpl. lia. }
        rewrite En in H.
        apply (IH _ _ _ _ _ _ Between) in H; [|unfold endIndex; simpl; lia|reflexivity|done].
        rewrite H, count_paragraphs_snoc, nonblank_has_text, has_text_rev, Hcur.
        rewrite <- app_assoc. simpl app. rewrite par_count_gap by assumption.
        destruct st; simpl; lia.
    + rewrite paragraphRegex_miss_char in H by exact Ea.
      apply (IH _ _ _ _ _ _ (par_step st a)) in H.
      * rewrite H. simpl. unfold par_step. rewrite Ea.
        destruct (is_space a); destruct st; simpl; lia.
      * simpl. lia.
      * simpl. unfold par_step. rewrite Ea, Hcur.
        destruct (is_space a); destruct st; reflexivity.
      * unfold par_step. rewrite Ea. destruct (is_space a) eqn:Es; [|discriminate].
        intros E. apply Hst, line_goes_on_step in E as [_ E]. auto.
Qed.

(** X7.  [paragraphCount] is the number of blocks of text that white space
    with two line feeds or more keeps apart: a reader who goes through the
    text counts a paragraph at each character other than white space met at
    the start or after such a gap. *)
Theorem paragraphCount_counts_blocks (text : JsString) :
  exists report,
    analyze_document_structure (text_only text) = Returns (StructureResult report) /\
    StructureReport.paragraphCount report = par_count Between text.
Proof.
  destruct (analyze_report (text_only text) text eq_refl)
    as (hs & ps & bs & ns & ts & ws & _ & Hp & _ & _ & _ & _ & ->).
  eexists. split; [reflexivity|]. simpl.
  unfold split in Hp. destruct text as [|a text].
  - vm_compute in Hp. injection Hp as <-. reflexivity.
  - apply (split_from_paragraphs _ _ _ _ _ _ _ Between) in Hp; [|simpl; lia|reflexivity|done].
    exact Hp.
Qed.

(** ** load_document *)

Lemma loader_for_types lib fileExtension load :
  loader_for lib fileExtension = Some load ->
  drop 1 fileExtension ∈ [js "pdf"; js "docx"; js "txt"; js "md"].
Proof.
  unfold loader_for, js_eqb.
  repeat case_bool_decide; subst; simpl; try discriminate; intros _; set_solver.
Qed.

(** X8.  [load_document] returns for every request and every behaviour of
    the file system and the loaders.  When it loads, the file exists, its
    [fileType] is one of [pdf], [docx], [txt] and [md] and is the lower-case
    extension of the path without the dot, and its [fileName] is the base
    name of the path.  A file that does not exist is reported as not found
    whatever its extension. *)
Theorem load_document_returns (lib : FileLib) (params : LoadParams.t) :
  exists result,
    load_document lib params = Returns result /\
    (forall document, result = Loaded document ->
       exists path,
         LoadParams.filePath params = Some path /\
         existsSync lib path = true /\
         LoadedDocument.fileType document ∈ [js "pdf"; js "docx"; js "txt"; js "md"] /\
         js "." ++ LoadedDocument.fileType document = toLowerCase (extname lib path) /\
         LoadedDocument.fileName document = basename lib path) /\
    (forall path, LoadParams.filePath params = Some path ->
       existsSync lib path = false ->
       result = NotLoaded (js "File not found: " ++ path)).
Proof.
  unfold load_document, load_document_body.
  destruct (LoadParams.filePath params) as [path|]; simpl.
  - destruct (existsSync lib path) eqn:Ex; simpl.
    + destruct (loader_for lib _) as [load|] eqn:El.
      * destruct (load path) as [e|docs]; simpl.
        -- eexists. split; [reflexivity|]. split; [discriminate|].
           intros ? [= <-] ?. congruence.
        -- eexists. split; [reflexivity|]. split; [|intros ? [= <-] ?; congruence].
           intros document [= <-]. exists path. simpl.
           split_and!; auto.
           ++ eapply loader_for_types, El.
           ++ revert El. unfold loader_for, js_eqb.
              repeat case_bool_decide; try discriminate;
                match goal with H : toLowerCase _ = _ |- _ => rewrite H end;
                reflexivity.
      * eexists. split; [reflexivity|]. split; [discriminate|].
        intros ? [= <-] ?. congruence.
    + eexists. split; [reflexivity|]. split; [discriminate|].
      intros ? [= <-] _. reflexivity.
  - eexists. split; [reflexivity|]. split; [discriminate|]. discriminate.
Qed.

Lemma join_words pages :
  count_words false (join [LF; LF] pages) =
  sum_list (map (count_words false) pages).
Proof.
  induction pages as [|p ps IH]; [reflexivity|].
  destruct ps as [|q ps].
  - simpl. lia.
  - change (join [LF; LF] (p :: q :: ps)) with (p ++ [LF; LF] ++ join [LF; LF] (q :: ps)).
    rewrite count_words_sep, IH; [reflexivity|discriminate|].
    repeat constructor.
Qed.

Lemma reports_words_count text : reports_words text (count_words false text).
Proof.
  unfold reports_words.
  destruct (analyze_report (text_only text) text eq_refl)
    as (hs & ps & bs & ns & ts & ws & _ & _ & _ & _ & _ & Hw & ->).
  eexists. split; [reflexivity|]. simpl. apply (split_words _ _ Hw).
Qed.

(** X9.  The word count of a loaded document is the sum of the word counts
    of the pages its loader gave: joining the pages with two line feeds
    neither makes nor breaks a word. *)
Theorem loaded_document_words (lib : FileLib) (params : LoadParams.t)
    (document : LoadedDocument.t) :
  load_document lib params = Returns (Loaded document) ->
  exists pages counts,
    pages_of lib params pages /\
    Forall2 (fun page n => reports_words (Document.pageContent page) n) pages counts /\
    reports_words (LoadedDocument.pageContent document) (sum_list counts).
Proof.
  unfold load_document, load_document_body. intros H.
  destruct (LoadParams.filePath params) as [path|] eqn:Ep; simpl in H; [|discriminate].
  destruct (existsSync lib path); simpl in H; [|discriminate].
  destruct (loader_for lib _) as [load|] eqn:El; [|discriminate].
  destruct (load path) as [e|docs] eqn:Ed; simpl in H; [discriminate|].
  injection H as <-. simpl.
  exists docs, (map (fun page => count_words false (Document.pageContent page)) docs).
  split_and!.
  - exists path, load. auto.
  - apply Forall2_fmap_r, Forall_Forall2_diag, Forall_forall. intros page _.
    apply reports_words_count.
  - rewrite <- (map_map Document.pageContent (count_words false)), <- join_words.
    apply reports_words_count.
Qed.

Lemma loaded_document_words_witness :
  load_document two_page_lib notes_request = Returns (Loaded notes_document) /\
  exists pages counts,
    pages_of two_page_lib notes_request pages /\
    Forall2 (fun page n => reports_words (Document.pageContent page) n) pages counts /\
    reports_words (LoadedDocument.pageContent notes_document) (sum_list counts).
Proof.
  split; [reflexivity|]. apply loaded_document_words. reflexivity.
Defined.

(** ** A fenced block, extracted *)

Lemma rmatch_lit_hit s : forall c pre rest caps,
  rmatch (lit s) c (MState pre (s ++ rest) caps) = c (MState (rev s ++ pre) rest caps).
Proof.
  induction s as [|a s IH]; intros c pre rest caps; [reflexivity|].
  destruct s as [|b s].
  - cbn [lit app]. unfold chr. rewrite rmatch_cls_hit by apply Ascii.eqb_refl.
    reflexivity.
  - change (lit (a :: b :: s)) with (Cat (chr a) (lit (b :: s))).
    rewrite rmatch_cat. cbn [app]. unfold chr at 1.
    rewrite rmatch_cls_hit by apply Ascii.eqb_refl.
    change (b :: s ++ rest) with ((b :: s) ++ rest). rewrite IH.
    cbn [rev]. rewrite <- !app_assoc. reflexivity.
Qed.

Lemma rmatch_lit_miss a s c pre b rest caps :
  is_char a b = false ->
  rmatch (lit (a :: s)) c (MState pre (b :: rest) caps) = None.
Proof.
  intros H. destruct s as [|a' s].
  - apply rmatch_cls_miss. exact H.
  - change (lit (a :: a' :: s)) with (Cat (chr a) (lit (a' :: s))).
    rewrite rmatch_cat. apply rmatch_cls_miss. exact H.
Qed.

(** [r?] as the matcher runs it: a turn of [r] first, nothing otherwise. *)
Lemma rmatch_opt_unfold r c x :
  rmatch (opt r) c x =
  match rmatch r (fun y =>
          if length (remaining y) =? length (remaining x) then None
          else repeat_matcher (rmatch r) (group_ids r) true (length (remaining x))
                 0 (Some 0) c y)
          (clear_captures (group_ids r) x) with
  | Some z => Some z
  | None => c x
  end.
Proof. reflexivity. Qed.

(** A lazy run of a class stops at the first place where what follows
    matches. *)
Lemma lazy_class_skip p c z caps tail : forall body pre,
  Forall (fun a => p a = true) body ->
  (forall b1 b2, body = b1 ++ b2 -> b2 <> [] ->
     c (MState (rev b1 ++ pre) (b2 ++ tail) caps) = None) ->
  c (MState (rev body ++ pre) tail caps) = Some z ->
  rmatch (lazy_star (Cls p)) c (MState pre (body ++ tail) caps) = Some z.
Proof.
  unfold lazy_star.
  induction body as [|a body IH]; intros pre Hp Hmid Hend.
  - rewrite rmatch_rep. unfold repeat_fuel. cbn [repeat_matcher Nat.add Nat.eqb negb].
    simpl in Hend. cbn [app]. rewrite Hend. reflexivity.
  - inversion Hp as [|? ? Ha Hp']; subst.
    rewrite rmatch_rep. unfold repeat_fuel.
    cbn [repeat_matcher Nat.add Nat.eqb negb andb remaining app length].
    pose proof (Hmid [] (a :: body) eq_refl ltac:(discriminate)) as H0.
    cbn [rev app] in H0. rewrite H0.
    cbn [group_ids clear_captures foldr].
    rewrite rmatch_cls_hit by exact Ha. cbn [remaining].
    replace (length (body ++ tail) =? S (length (body ++ tail))) with false
      by (symmetry; apply Nat.eqb_neq; lia).
    cbn [pred fmap option_fmap option_map].
    specialize (IH (a :: pre) Hp').
    rewrite rmatch_rep in IH. unfold repeat_fuel in IH. cbn [Nat.add remaining] in IH.
    apply IH.
    + intros b1 b2 -> Hb2. specialize (Hmid (a :: b1) b2 eq_refl Hb2).
      cbn [rev] in Hmid. rewrite <- app_assoc in Hmid. exact Hmid.
    + cbn [rev] in Hend. rewrite <- app_assoc in Hend. exact Hend.
Qed.

Lemma repeat_matcher_done m parens greedy fuel mn c y :
  0 < fuel -> repeat_matcher m parens greedy fuel mn (Some 0) c y = c y.
Proof. destruct fuel; [lia|reflexivity]. Qed.

(** The body and the closing fence, read from the start of the body. *)
Lemma fenced_tail_found pre body after caps :
  no_backtick body ->
  rmatch (Cat (Grp 2 (lazy_star (Cls any_char))) (lit fence)) Some
    (MState pre (body ++ fence ++ after) caps) =
  Some (set_capture 2 (Some body) (MState (rev fence ++ rev body ++ pre) after caps)).
Proof.
  intros Hbody. rewrite rmatch_cat, rmatch_grp. apply lazy_class_skip.
  - apply Forall_forall. reflexivity.
  - intros b1 b2 -> Hb2. destruct b2 as [|b b2]; [done|].
    unfold set_capture. cbn [consumed remaining captures app].
    apply (rmatch_lit_miss "`" ["`"; "`"]%char).
    apply Forall_app in Hbody as [_ Hbody]. inversion Hbody; assumption.
  - rewrite (reads_text_between body) by (split; reflexivity).
    unfold set_capture. cbn [consumed remaining captures].
    rewrite rmatch_lit_hit. reflexivity.
Qed.

(** The fenced alternative on a block with a tag: the match and its
    groups. *)
Lemma fenced_block_found pre tag body after :
  tag <> [] -> Forall (fun c => is_alnum c = true) tag -> no_backtick body ->
  exists e,
    match_at codeBlockRegex pre (fence ++ tag ++ LF :: body ++ fence ++ after) = Some e /\
    consumed e = rev (fence ++ tag ++ LF :: body ++ fence) ++ pre /\
    remaining e = after /\
    get_capture 1 e = Some tag /\ get_capture 2 e = Some body.
Proof.
  intros Hne Htag Hbody.
  set (x1 := MState (rev fence ++ pre) (tag ++ LF :: body ++ fence ++ after) []).
  set (turn := Cat (Grp 1 (plus (Cls is_alnum))) (chr LF)).
  set (tail := Cat (Grp 2 (lazy_star (Cls any_char))) (lit fence)).
  set (xr := MState (rev fence ++ pre) (tag ++ LF :: body ++ fence ++ after) [None; None]).
  set (y1 := MState (LF :: rev tag ++ rev fence ++ pre) (body ++ fence ++ after)
               (captures (set_capture 1 (Some tag) xr))).
  set (e := set_capture 2 (Some body)
              (MState (rev fence ++ rev body ++ consumed y1) after (captures y1))).
  assert (Htail : rmatch tail Some y1 = Some e) by (apply fenced_tail_found, Hbody).
  assert (Hturn : forall d,
            (forall y, length (remaining y) <> length (remaining x1) ->
                       d y = rmatch tail Some y) ->
            rmatch turn d xr = Some e).
  { intros d Hd. unfold turn. rewrite rmatch_cat, rmatch_grp. unfold plus.
    unfold xr at 2. rewrite rmatch_greedy_class.
    change (tag ++ LF :: body ++ fence ++ after)
      with (tag ++ [] ++ LF :: body ++ fence ++ after).
    apply greedy_class_found.
    - rewrite app_nil_r. exact Htag.
    - reflexivity.
    - destruct tag; [done|simpl; lia].
    - cbn [app].
      rewrite (reads_text_between tag) by (split; reflexivity).
      unfold set_capture at 1. cbn [consumed remaining].
      unfold chr. rewrite rmatch_cls_hit by reflexivity.
      rewrite Hd; [exact Htail|].
      unfold x1. cbn [remaining]. rewrite !length_app. cbn [length].
      rewrite !length_app. lia.
    - intros v1 v2 Hv Hv1. destruct v1; [done|discriminate]. }
  exists e. split_and!.
  - unfold match_at, codeBlockRegex. cbn [rmatch].
    assert (Hf : rmatch fencedBlock Some
                   (MState pre (fence ++ tag ++ LF :: body ++ fence ++ after) []) = Some e).
    { unfold fencedBlock, cat. rewrite rmatch_cat.
      change (lit (js "```")) with (lit fence). rewrite rmatch_lit_hit.
      rewrite rmatch_cat. fold turn. fold tail. fold x1.
      rewrite rmatch_opt_unfold.
      change (clear_captures (group_ids turn) x1) with xr.
      rewrite Hturn; [reflexivity|].
      intros y Hy. cbv beta.
      apply Nat.eqb_neq in Hy. rewrite Hy.
      apply repeat_matcher_done. unfold x1. cbn [remaining].
      rewrite length_app. cbn [length]. lia. }
    rewrite Hf. reflexivity.
  - unfold e, y1. cbn [set_capture consumed].
    rewrite !rev_app_distr. cbn [rev]. rewrite !rev_app_distr, <- !app_assoc.
    reflexivity.
  - reflexivity.
  - unfold e. rewrite (get_set_capture 1 2). cbn [decide].
    unfold y1. exact (get_set_capture 1 1 (Some tag) xr).
  - unfold e. exact (get_set_capture 2 2 (Some body) _).
Qed.

(** The fenced alternative on a block without a tag. *)
Lemma plain_fenced_block_found pre body after :
  no_backtick body ->
  exists e,
    match_at codeBlockRegex pre (fence ++ LF :: body ++ fence ++ after) = Some e /\
    consumed e = rev (fence ++ LF :: body ++ fence) ++ pre /\
    remaining e = after /\
    get_capture 1 e = None /\ get_capture 2 e = Some (LF :: body).
Proof.
  intros Hbody.
  set (x1 := MState (rev fence ++ pre) (LF :: body ++ fence ++ after) []).
  set (e := set_capture 2 (Some (LF :: body))
              (MState (rev fence ++ rev (LF :: body) ++ rev fence ++ pre) after [])).
  assert (Htail : rmatch (Cat (Grp 2 (lazy_star (Cls any_char))) (lit fence)) Some x1
                  = Some e).
  { unfold x1. change (LF :: body ++ fence ++ after) with ((LF :: body) ++ fence ++ after).
    apply fenced_tail_found. constructor; [reflexivity|exact Hbody]. }
  exists e. split_and!.
  - unfold match_at, codeBlockRegex. cbn [rmatch].
    assert (Hf : rmatch fencedBlock Some
                   (MState pre (fence ++ LF :: body ++ fence ++ after) []) = Some e).
    { unfold fencedBlock, cat. rewrite rmatch_cat.
      change (lit (js "```")) with (lit fence). rewrite rmatch_lit_hit.
      rewrite rmatch_cat. fold x1. rewrite rmatch_opt_unfold.
      rewrite rmatch_cat, rmatch_grp. unfold plus.
      change (clear_captures _ x1)
        with (MState (rev fence ++ pre) (LF :: body ++ fence ++ after) [None; None]).
      rewrite rmatch_greedy_class.
      change (LF :: body ++ fence ++ after) with ([] ++ LF :: body ++ fence ++ after).
      rewrite greedy_class_fails; [exact Htail|constructor|reflexivity|].
      intros v1 v2 Hv Hl. destruct v1; [simpl in Hl; lia|discriminate]. }
    rewrite Hf. reflexivity.
  - unfold e. cbn [set_capture consumed].
    rewrite !rev_app_distr. cbn [rev]. rewrite !rev_app_distr, <- !app_assoc.
    reflexivity.
  - reflexivity.
  - reflexivity.
  - unfold e. exact (get_set_capture 2 2 (Some (LF :: body)) _).
Qed.

Lemma search_hit r pre rest e :
  match_at r pre rest = Some e -> search r pre rest = Some (mk_match pre e).
Proof. intros H. destruct rest; simpl; rewrite H; reflexivity. Qed.

Lemma matches_from_S fuel r pre rest :
  matches_from (S fuel) r pre rest =
  match search r pre rest with
  | None => Some []
  | Some m => cons m <$> matches_from fuel r (consumed (last m)) (remaining (last m))
  end.
Proof. reflexivity. Qed.

(** A match that reads the text to its end is the only one. *)
Lemma all_matches_one r text e :
  1 <= min_len r -> text <> [] ->
  match_at r [] text = Some e -> remaining e = [] ->
  all_matches r text = Some [mk_match [] e].
Proof.
  intros Hr Ht He Hrem. unfold all_matches.
  rewrite matches_from_S, (search_hit _ _ _ _ He).
  change (last (mk_match [] e)) with e. rewrite Hrem.
  destruct text as [|a text]; [done|]. cbn [length].
  rewrite matches_from_S. cbn [search].
  destruct (match_at r (consumed e) []) as [z|] eqn:E; [|reflexivity].
  apply match_at_reads in E as (w & L & R & _).
  destruct w; [simpl in L; lia|discriminate].
Qed.

(** X10.  A text that is one fenced block, with a tag of letters and digits
    or none, a line feed, and a body that is not empty and holds no
    backtick, gives exactly that block: its language is the tag in lower
    case, or ["unknown"] without a tag, and its code the trimmed body. *)
Theorem fenced_block_extracted (tag body : JsString) :
  Forall (fun c => is_alnum c = true) tag -> no_backtick body -> body <> [] ->
  extract_code (text_only (fence ++ tag ++ LF :: body ++ fence)) =
  Returns (CodeResult
    [CodeBlock.Make (if tag is [] then js "unknown" else toLowerCase tag) (trim body)] 1).
Proof.
  intros Htag Hbody Hne.
  destruct (extract_code_matches (text_only (fence ++ tag ++ LF :: body ++ fence)))
    as (ms & Hms & ->).
  cbn [text_only Params.text ToString] in Hms.
  assert (Hone : exists e,
    all_matches codeBlockRegex (fence ++ tag ++ LF :: body ++ fence) = Some [mk_match [] e] /\
    get_capture 1 e = (if tag is [] then None else Some tag) /\
    exists lead, get_capture 2 e = Some (lead ++ body) /\
                 Forall (fun c => is_space c = true) lead /\ trim (lead ++ body) = trim body).
  { destruct tag as [|t tag].
    - destruct (plain_fenced_block_found [] body [] Hbody) as (e & He & _ & Hr & G1 & G2).
      rewrite app_nil_r in He. exists e. split_and!; auto.
      + apply all_matches_one; auto. rewrite codeBlockRegex_min_len. lia.
      + exists [LF]. split_and!; auto.
    - destruct (fenced_block_found [] (t :: tag) body [] ltac:(done) Htag Hbody)
        as (e & He & _ & Hr & G1 & G2).
      rewrite app_nil_r in He. exists e. split_and!; auto.
      + apply all_matches_one; auto. rewrite codeBlockRegex_min_len. lia.
      + exists []. split_and!; auto. }
  destruct Hone as (e & Hall & G1 & lead & G2 & Hlead & Htrim).
  rewrite Hall in Hms. injection Hms as <-.
  change (requested_language _) with (@None JsString).
  rewrite filter_wanted_none. cbn [map length].
  unfold block_of_match, blockLanguage, block_code.
  change (group 1 (mk_match [] e)) with (get_capture 1 e).
  change (group 2 (mk_match [] e)) with (get_capture 2 e).
  rewrite G1, G2.
  assert (truthy_string (Some (lead ++ body)) = true) as ->.
  { destruct lead; [destruct body; [done|reflexivity]|reflexivity]. }
  change (default [] (Some (lead ++ body))) with (lead ++ body).
  rewrite Htrim. destruct tag; reflexivity.
Qed.

Lemma fenced_block_extracted_witness :
  Forall (fun c => is_alnum c = true) (js "JS") /\ no_backtick (js "f();") /\
  js "f();" <> [] /\
  extract_code (text_only (fence ++ js "JS" ++ LF :: js "f();" ++ fence)) =
  Returns (CodeResult
    [CodeBlock.Make (if js "JS" is [] then js "unknown" else toLowerCase (js "JS"))
       (trim (js "f();"))] 1).
Proof.
  assert (H1 : Forall (fun c => is_alnum c = true) (js "JS")) by (repeat constructor).
  assert (H2 : no_backtick (js "f();")) by (repeat constructor).
  assert (H3 : js "f();" <> []) by discriminate.
  split_and!; [exact H1|exact H2|exact H3|].
  exact (fenced_block_extracted (js "JS") (js "f();") H1 H2 H3).
Defined.

(** ** Lists in a document *)

Lemma blank_spaces w : Forall blank w -> Forall (fun c => is_space c = true) w.
Proof. intros H. eapply Forall_impl; [exact H|]. intros c [Hc _]. exact Hc. Qed.

Lemma line_tail_stops_dot tail : line_tail tail -> stops dot tail.
Proof. intros [->|[t ->]]; [exact I|reflexivity]. Qed.

(** A run of a class read whole, then the rest of the regex. *)
Lemma greedy_class_whole p mn c pre u tail caps z :
  Forall (fun a => p a = true) u -> stops p tail -> mn <= length u ->
  c (MState (rev u ++ pre) tail caps) = Some z ->
  rmatch (Rep mn None true (Cls p)) c (MState pre (u ++ tail) caps) = Some z.
Proof.
  intros Hu Ht Hmn Hc. rewrite rmatch_greedy_class.
  change (u ++ tail) with (u ++ [] ++ tail). apply greedy_class_found; auto.
  - rewrite app_nil_r. exact Hu.
  - intros v1 v2 Hv Hv1. destruct v1; [done|discriminate].
Qed.

(** A run of white space, wherever it is cut, with nothing after it that
    the rest of the regex accepts. *)
Lemma spaces_then_fail (c : cont) pre ws rest caps :
  Forall (fun a => is_space a = true) ws -> stops is_space rest ->
  (forall v1 v2, ws = v1 ++ v2 -> c (MState (rev v1 ++ pre) (v2 ++ rest) caps) = None) ->
  rmatch (star (Cls is_space)) c (MState pre (ws ++ rest) caps) = None.
Proof.
  intros Hws Hrest Hc. unfold star. rewrite rmatch_greedy_class.
  apply greedy_class_fails; auto.
Qed.

(** The text of an item: blanks, then characters of the line. *)
Lemma item_text_found pre spaces b body tail :
  spaces <> [] -> Forall blank spaces ->
  is_space b = false -> Forall (fun c => dot c = true) (b :: body) -> line_tail tail ->
  rmatch (Cat (plus (Cls is_space)) (plus (Cls dot))) Some
    (MState pre (spaces ++ b :: body ++ tail) []) =
  Some (MState (rev (spaces ++ b :: body) ++ pre) tail []).
Proof.
  intros Hne Hsp Hb Hbody Htail. rewrite rmatch_cat. unfold plus.
  apply greedy_class_whole.
  - apply blank_spaces, Hsp.
  - exact Hb.
  - destruct spaces; [done|simpl; lia].
  - change (b :: body ++ tail) with ((b :: body) ++ tail).
    apply greedy_class_whole.
    + exact Hbody.
    + apply line_tail_stops_dot, Htail.
    + simpl. lia.
    + rewrite rev_app_distr, <- app_assoc. reflexivity.
Qed.

Lemma mark_not_space c : one_of ["-"; "*"; "+"]%char c = true -> is_space c = false.
Proof. destruct c as [[] [] [] [] [] [] [] []]; intros H; try discriminate H; reflexivity. Qed.

Lemma digit_not_space c : is_digit c = true -> is_space c = false.
Proof. destruct c as [[] [] [] [] [] [] [] []]; intros H; try discriminate H; reflexivity. Qed.

Lemma space_not_mark c : is_space c = true -> one_of ["-"; "*"; "+"]%char c = false.
Proof. destruct c as [[] [] [] [] [] [] [] []]; intros H; try discriminate H; reflexivity. Qed.

Lemma space_not_digit c : is_space c = true -> is_digit c = false.
Proof. destruct c as [[] [] [] [] [] [] [] []]; intros H; try discriminate H; reflexivity. Qed.

(** The bullet regex on an item, with white space before it: blank lines,
    say. *)
Lemma bulletListRegex_item pre ws l tail :
  at_bol (MState pre [] []) = true ->
  Forall (fun c => is_space c = true) ws -> bullet_line l -> line_tail tail ->
  exists caps, match_at bulletListRegex pre (ws ++ l ++ tail) =
               Some (MState (rev (ws ++ l) ++ pre) tail caps).
Proof.
  intros Hbol Hws
    (indent & mark & spaces & b & body & -> & Hi & Hm & Hne & Hsp & Hb & Hbody) Htail.
  exists []. unfold match_at, bulletListRegex, cat.
  rewrite rmatch_cat, rmatch_bol by exact Hbol.
  rewrite rmatch_cat. unfold star.
  replace (ws ++ (indent ++ mark :: spaces ++ b :: body) ++ tail)
    with ((ws ++ indent) ++ mark :: spaces ++ b :: body ++ tail)
    by (rewrite <- !app_assoc; cbn [app]; rewrite <- !app_assoc; reflexivity).
  apply greedy_class_whole.
  - apply Forall_app. split; [exact Hws|apply blank_spaces, Hi].
  - cbn [stops]. apply mark_not_space, Hm.
  - lia.
  - rewrite rmatch_cat, rmatch_cls_hit by exact Hm.
    rewrite item_text_found by assumption.
    rewrite !rev_app_distr. cbn [rev]. rewrite !rev_app_distr. cbn [rev].
    rewrite <- !app_assoc. reflexivity.
Qed.

Lemma numberedListRegex_item pre ws l tail :
  at_bol (MState pre [] []) = true ->
  Forall (fun c => is_space c = true) ws -> numbered_line l -> line_tail tail ->
  exists caps, match_at numberedListRegex pre (ws ++ l ++ tail) =
               Some (MState (rev (ws ++ l) ++ pre) tail caps).
Proof.
  intros Hbol Hws
    (indent & digits & spaces & b & body & -> & Hi & Hd0 & Hd & Hne & Hsp & Hb & Hbody)
    Htail.
  exists []. unfold match_at, numberedListRegex, cat.
  rewrite rmatch_cat, rmatch_bol by exact Hbol.
  rewrite rmatch_cat. unfold star.
  replace (ws ++ (indent ++ digits ++ "."%char :: spaces ++ b :: body) ++ tail)
    with ((ws ++ indent) ++ digits ++ "."%char :: spaces ++ b :: body ++ tail)
    by (rewrite <- !app_assoc; cbn [app]; rewrite <- !app_assoc; reflexivity).
  apply greedy_class_whole.
  - apply Forall_app. split; [exact Hws|apply blank_spaces, Hi].
  - destruct digits as [|d digits]; [done|]. inversion Hd as [|? ? Hd1 _]; subst.
    cbn [app stops]. apply digit_not_space, Hd1.
  - lia.
  - rewrite rmatch_cat. unfold plus at 1. apply greedy_class_whole.
    + exact Hd.
    + reflexivity.
    + destruct digits; [done|simpl; lia].
    + rewrite rmatch_cat. unfold chr. rewrite rmatch_cls_hit by reflexivity.
      rewrite item_text_found by assumption.
      rewrite !rev_app_distr. cbn [rev]. rewrite !rev_app_distr. cbn [rev].
      rewrite <- !app_assoc. reflexivity.
Qed.

(** No bullet item starts in white space that no mark follows. *)
Lemma bulletListRegex_miss pre ws rest :
  Forall (fun c => is_space c = true) ws ->
  no_mark_ahead (one_of ["-"; "*"; "+"]%char) rest ->
  match_at bulletListRegex pre (ws ++ rest) = None.
Proof.
  intros Hws Hrest. unfold match_at, bulletListRegex, cat. rewrite rmatch_cat.
  destruct (at_bol (MState pre [] [])) eqn:Hbol; [|apply rmatch_bol_fails, Hbol].
  rewrite rmatch_bol by exact Hbol. rewrite rmatch_cat.
  apply spaces_then_fail; [exact Hws|destruct rest; [exact I|apply Hrest]|].
  intros v1 v2 ->. rewrite rmatch_cat. apply rmatch_cls_miss.
  apply Forall_app in Hws as [_ Hv2]. destruct v2 as [|x v2]; cbn [app stops].
  - destruct rest; [exact I|apply Hrest].
  - inversion Hv2; subst. apply space_not_mark. assumption.
Qed.

Lemma numberedListRegex_miss pre ws rest :
  Forall (fun c => is_space c = true) ws -> no_mark_ahead is_digit rest ->
  match_at numberedListRegex pre (ws ++ rest) = None.
Proof.
  intros Hws Hrest. unfold match_at, numberedListRegex, cat. rewrite rmatch_cat.
  destruct (at_bol (MState pre [] [])) eqn:Hbol; [|apply rmatch_bol_fails, Hbol].
  rewrite rmatch_bol by exact Hbol. rewrite rmatch_cat.
  apply spaces_then_fail; [exact Hws|destruct rest; [exact I|apply Hrest]|].
  intros v1 v2 ->. rewrite rmatch_cat. unfold plus. rewrite rmatch_greedy_class.
  change (v2 ++ rest) with ([] ++ v2 ++ rest). apply greedy_class_fails.
  - constructor.
  - apply Forall_app in Hws as [_ Hv2]. destruct v2 as [|x v2]; cbn [app stops].
    + destruct rest; [exact I|apply Hrest].
    + inversion Hv2; subst. apply space_not_digit. assumption.
  - intros u1 u2 Hu Hl. destruct u1; [simpl in Hl; lia|discriminate].
Qed.

Lemma item_line_last (l : JsString) b body front :
  l = front ++ b :: body -> Forall (fun c => dot c = true) (b :: body) ->
  exists c rest, rev l = c :: rest /\ is_line_terminator c = false.
Proof.
  intros -> Hbody. rewrite rev_app_distr.
  apply Forall_rev in Hbody.
  destruct (rev (b :: body)) as [|c rest] eqn:E.
  - apply (f_equal length) in E. rewrite length_rev in E. discriminate E.
  - inversion Hbody as [|? ? Hc _]; subst. exists c, (rest ++ rev front).
    split; [reflexivity|]. unfold dot in Hc. apply negb_true_iff in Hc. exact Hc.
Qed.

Lemma bullet_line_last l :
  bullet_line l -> exists c rest, rev l = c :: rest /\ is_line_terminator c = false.
Proof.
  intros (indent & mark & spaces & b & body & E & _ & _ & _ & _ & _ & Hbody).
  apply (item_line_last l b body (indent ++ mark :: spaces)); [|exact Hbody].
  rewrite E, <- app_assoc. reflexivity.
Qed.

Lemma numbered_line_last l :
  numbered_line l -> exists c rest, rev l = c :: rest /\ is_line_terminator c = false.
Proof.
  intros (indent & digits & spaces & b & body & E & _ & _ & _ & _ & _ & _ & Hbody).
  apply (item_line_last l b body (indent ++ digits ++ "."%char :: spaces)); [|exact Hbody].
  rewrite E, <- !app_assoc. reflexivity.
Qed.

Lemma not_at_bol_bullet pre rest :
  at_bol (MState pre [] []) = false -> match_at bulletListRegex pre rest = None.
Proof.
  intros H. unfold match_at, bulletListRegex, cat. rewrite rmatch_cat.
  apply rmatch_bol_fails. exact H.
Qed.

Lemma not_at_bol_numbered pre rest :
  at_bol (MState pre [] []) = false -> match_at numberedListRegex pre rest = None.
Proof.
  intros H. unfold match_at, numberedListRegex, cat. rewrite rmatch_cat.
  apply rmatch_bol_fails. exact H.
Qed.

Lemma match_from_skip_char r fuel pre a rest A :
  match_at r pre (a :: rest) = None ->
  match_from fuel r pre (a :: rest) A = match_from fuel r (a :: pre) rest A.
Proof.
  intros H. destruct fuel as [|fuel]; [reflexivity|].
  cbn [match_from search]. rewrite H. reflexivity.
Qed.

(** A match that is not empty: [text.match] goes on after it. *)
Lemma match_from_hit r fuel pre rest e A w :
  match_at r pre rest = Some e -> consumed e = rev w ++ pre -> w <> [] ->
  match_from (S fuel) r pre rest A =
  match_from fuel r (consumed e) (remaining e) (A ++ [w]).
Proof.
  intros He Hc Hw. cbn [match_from]. rewrite (search_hit _ _ _ _ He).
  rewrite (mk_match_matched _ _ _ Hc). change (last (mk_match pre e)) with e.
  destruct w; [done|reflexivity].
Qed.

(** A stretch of text where no match starts. *)
Lemma match_from_skip r : forall s fuel pre tail A,
  (forall s1 s2, s = s1 ++ s2 -> s2 <> [] ->
     match_at r (rev s1 ++ pre) (s2 ++ tail) = None) ->
  match_from fuel r pre (s ++ tail) A = match_from fuel r (rev s ++ pre) tail A.
Proof.
  induction s as [|a s IH]; intros fuel pre tail A H; [reflexivity|].
  cbn [app]. rewrite match_from_skip_char by (apply (H [] (a :: s)); done).
  rewrite IH.
  - cbn [rev]. rewrite <- app_assoc. reflexivity.
  - intros s1 s2 -> Hs2. specialize (H (a :: s1) s2 eq_refl Hs2).
    cbn [rev] in H. rewrite <- app_assoc in H. exact H.
Qed.

Section ListItems.
Variable r : regex.
Variable item : JsString -> Prop.
Variable mark : ascii -> bool.

Hypothesis not_at_bol : forall pre rest,
  at_bol (MState pre [] []) = false -> match_at r pre rest = None.

Hypothesis item_found : forall pre ws l tail,
  at_bol (MState pre [] []) = true ->
  Forall (fun c => is_space c = true) ws -> item l -> line_tail tail ->
  exists caps, match_at r pre (ws ++ l ++ tail) =
               Some (MState (rev (ws ++ l) ++ pre) tail caps).

Hypothesis no_item : forall pre ws rest,
  Forall (fun c => is_space c = true) ws -> no_mark_ahead mark rest ->
  match_at r pre (ws ++ rest) = None.

Hypothesis item_last : forall l,
  item l -> exists c rest, rev l = c :: rest /\ is_line_terminator c = false.

(** In white space to the end of the text there is no match. *)
Lemma match_from_spaces fuel pre ws A :
  Forall (fun c => is_space c = true) ws -> 0 < fuel ->
  match_from fuel r pre ws A = Returns A.
Proof.
  intros Hws Hf. destruct fuel as [|fuel]; [lia|]. cbn [match_from].
  rewrite search_fails; [reflexivity|].
  intros pre' skipped rest' ->. apply Forall_app in Hws as [_ Hws].
  rewrite <- (app_nil_r rest'). apply no_item; [exact Hws|exact I].
Qed.

(** After a line that does not end in a line terminator: the end of the
    text, or the line feed and the next line. *)
Lemma match_from_line_end fuel pre c tail A :
  is_line_terminator c = false ->
  match_from fuel r (c :: pre) (LF :: tail) A =
  match_from fuel r (LF :: c :: pre) tail A.
Proof.
  intros Hc. apply match_from_skip_char, not_at_bol. exact Hc.
Qed.

(** [text.match(regex)] on a document of items and other lines: a match for
    each item. *)
Lemma match_from_items : forall doc fuel pre ws A,
  Forall (well_formed_list_line item mark) doc ->
  at_bol (MState pre [] []) = true ->
  Forall (fun c => is_space c = true) ws ->
  length (ws ++ join_lines (map list_line_text doc)) < fuel ->
  exists ms,
    match_from fuel r pre (ws ++ join_lines (map list_line_text doc)) A =
      Returns (A ++ ms) /\
    length ms = count_items doc.
Proof.
  induction doc as [|line doc IH]; intros fuel pre ws A Hdoc Hbol Hws Hf.
  - exists []. cbn [map join_lines]. rewrite !app_nil_r.
    split; [|reflexivity]. apply match_from_spaces; [exact Hws|lia].
  - inversion Hdoc as [|? ? Hline Hdoc']; subst. cbn [map] in *.
    destruct (join_lines_cons (list_line_text line) (map list_line_text doc))
      as (tail & Hj & Hnil & Hcons).
    rewrite Hj in *. clear Hj. rewrite !length_app in Hf.
    (* what follows a line that ends in [c] *)
    assert (Hnext : forall fuel' c pre' A',
      is_line_terminator c = false -> length tail < fuel' -> 0 < fuel' ->
      exists ms,
        match_from fuel' r (c :: pre') tail A' = Returns (A' ++ ms) /\
        length ms = count_items doc).
    { intros fuel' c pre' A' Hc Hf' Hpos. destruct doc as [|l' doc'].
      - rewrite Hnil by reflexivity. exists []. rewrite app_nil_r.
        split; [|reflexivity]. apply match_from_spaces; [constructor|exact Hpos].
      - rewrite Hcons in * by done. rewrite match_from_line_end by exact Hc.
        apply (IH fuel' (LF :: c :: pre') [] A' Hdoc' eq_refl); [constructor|].
        simpl in Hf'. simpl. lia. }
    destruct line as [l|l]; cbn [list_line_text count_items well_formed_list_line] in *.
    + (* an item *)
      destruct (item_last l Hline) as (c & rl & Hrev & Hc).
      assert (Htail : line_tail tail).
      { destruct doc as [|l' doc']; [left; auto|right]. rewrite Hcons by done. eauto. }
      destruct (item_found pre ws l tail Hbol Hws Hline Htail) as [caps Hm].
      assert (Hlen : 0 < length l).
      { apply (f_equal length) in Hrev. rewrite length_rev in Hrev. simpl in Hrev. lia. }
      destruct fuel as [|fuel]; [lia|].
      rewrite app_assoc in Hm. rewrite app_assoc.
      rewrite (match_from_hit _ _ _ _ _ _ (ws ++ l) Hm eq_refl).
      2: { intros E. apply (f_equal length) in E. rewrite length_app in E.
           simpl in E. lia. }
      cbn [consumed remaining].
      assert (Hwl : rev (ws ++ l) ++ pre = c :: rl ++ rev ws ++ pre).
      { rewrite rev_app_distr, Hrev, <- app_assoc. reflexivity. }
      rewrite Hwl.
      destruct (Hnext fuel c (rl ++ rev ws ++ pre) (A ++ [ws ++ l]) Hc)
        as (ms & Hms & Hcount); [lia..|].
      exists ((ws ++ l) :: ms). split; [|simpl; lia].
      rewrite Hms, <- app_assoc. reflexivity.
    + (* another line *)
      destruct Hline as [Hdot Hmark].
      destruct (trimStart_suffix l) as (sp & Hl & Hsp).
      destruct (trimStart l) as [|c rest] eqn:Et; cbn [head] in Hmark.
      * (* white space only *)
        rewrite app_nil_r in Hl. subst sp.
        destruct doc as [|l' doc'].
        -- rewrite Hnil by reflexivity. exists []. rewrite !app_nil_r.
           split; [|reflexivity]. apply match_from_spaces; [|lia].
           apply Forall_app. auto.
        -- rewrite Hcons in * by done.
           destruct (IH fuel pre (ws ++ l ++ [LF]) A Hdoc' Hbol) as (ms & Hms & Hcount).
           ++ apply Forall_app. split; [exact Hws|]. apply Forall_app.
              split; [exact Hsp|]. repeat constructor.
           ++ rewrite !length_app. simpl in *. lia.
           ++ exists ms. split; [|exact Hcount]. rewrite <- Hms.
              rewrite <- !app_assoc. reflexivity.
      * (* text after the white space *)
        pose proof (trimStart_head l c) as Hc. rewrite Et in Hc.
        specialize (Hc eq_refl).
        assert (Hdot' : Forall (fun x => dot x = true) (c :: rest)).
        { rewrite Hl in Hdot. apply Forall_app in Hdot as [_ H]. exact H. }
        rewrite Hl.
        replace (ws ++ (sp ++ c :: rest) ++ tail)
          with ((ws ++ sp) ++ (c :: rest) ++ tail)
          by (rewrite <- !app_assoc; reflexivity).
        rewrite match_from_skip.
        2: { intros s1 s2 Hs Hs2.
             assert (Hs2' : Forall (fun x => is_space x = true) s2).
             { assert (H : Forall (fun x => is_space x = true) (ws ++ sp))
                 by (apply Forall_app; auto).
               rewrite Hs in H. apply Forall_app in H as [_ H]. exact H. }
             apply no_item; [exact Hs2'|]. cbn [app no_mark_ahead]. auto. }
        (* the line itself, from its first character on *)
        assert (Hskip : forall t pre1,
          Forall (fun x => dot x = true) t ->
          match_at r pre1 (t ++ tail) = None \/ t = [] ->
          match_from fuel r pre1 (t ++ tail) A = match_from fuel r (rev t ++ pre1) tail A).
        { induction t as [|a t IHt]; intros pre1 Ht H1; [reflexivity|].
          inversion Ht as [|? ? Ha Ht']; subst. cbn [app].
          rewrite match_from_skip_char by (destruct H1 as [H1|H1]; [exact H1|discriminate]).
          rewrite IHt; [|exact Ht'|left].
          - cbn [rev]. rewrite <- app_assoc. reflexivity.
          - apply not_at_bol. unfold at_bol. cbn [consumed]. unfold dot in Ha.
            apply negb_true_iff in Ha. exact Ha. }
        rewrite Hskip; [|exact Hdot'|left].
        2: { change ((c :: rest) ++ tail) with ([] ++ c :: rest ++ tail).
             apply no_item; [constructor|]. cbn [no_mark_ahead]. auto. }
        destruct (item_line_last (c :: rest) c rest [] eq_refl Hdot')
          as (c' & rl & Hrev & Hc').
        rewrite Hrev. cbn [app].
        apply Hnext; [exact Hc'|..].
        -- lia.
        -- rewrite Hl in Hf. rewrite length_app in Hf. simpl in Hf. lia.
Qed.

Lemma match_all_items doc :
  Forall (well_formed_list_line item mark) doc ->
  exists ms,
    match_all r (join_lines (map list_line_text doc)) = Returns ms /\
    length ms = count_items doc.
Proof.
  intros Hdoc. unfold match_all.
  destruct (match_from_items doc (S (length (join_lines (map list_line_text doc))))
              [] [] [] Hdoc eq_refl ltac:(constructor) ltac:(simpl; lia))
    as (ms & Hms & Hcount).
  exists ms. split; [exact Hms|exact Hcount].
Qed.
End ListItems.

(** X11.  In a document whose lines are bullet items (blanks, one of
    [-*+], blanks, text) and lines whose first character other than white
    space is none of [-*+] - blank lines among them - [bulletListItemCount]
    is the number of bullet items. *)
Theorem bullet_items_counted (doc : list ListLine) :
  Forall (well_formed_list_line bullet_line (one_of ["-"; "*"; "+"]%char)) doc ->
  exists report,
    analyze_document_structure (text_only (join_lines (map list_line_text doc))) =
      Returns (StructureResult report) /\
    StructureReport.bulletListItemCount report = count_items doc.
Proof.
  intros Hdoc.
  destruct (analyze_report (text_only (join_lines (map list_line_text doc))) _ eq_refl)
    as (hs & ps & bs & ns & ts & ws & _ & _ & Hb & _ & _ & _ & ->).
  eexists. split; [reflexivity|]. simpl.
  destruct (match_all_items bulletListRegex bullet_line (one_of ["-"; "*"; "+"]%char)
              not_at_bol_bullet bulletListRegex_item bulletListRegex_miss
              bullet_line_last doc Hdoc) as (ms & Hms & Hcount).
  rewrite Hms in Hb. injection Hb as <-. exact Hcount.
Qed.

(** X12.  In a document whose lines are numbered items (blanks, digits, a
    full stop, blanks, text) and lines whose first character other than
    white space is no digit, [numberedListItemCount] is the number of
    numbered items. *)
Theorem numbered_items_counted (doc : list ListLine) :
  Forall (well_formed_list_line numbered_line is_digit) doc ->
  exists report,
    analyze_document_structure (text_only (join_lines (map list_line_text doc))) =
      Returns (StructureResult report) /\
    StructureReport.numberedListItemCount report = count_items doc.
Proof.
  intros Hdoc.
  destruct (analyze_report (text_only (join_lines (map list_line_text doc))) _ eq_refl)
    as (hs & ps & bs & ns & ts & ws & _ & _ & _ & Hn & _ & _ & ->).
  eexists. split; [reflexivity|]. simpl.
  destruct (match_all_items numberedListRegex numbered_line is_digit
              not_at_bol_numbered numberedListRegex_item numberedListRegex_miss
              numbered_line_last doc Hdoc) as (ms & Hms & Hcount).
  rewrite Hms in Hn. injection Hn as <-. exact Hcount.
Qed.

Lemma bullet_items_counted_witness :
  Forall (well_formed_list_line bullet_line (one_of ["-"; "*"; "+"]%char)) shopping_list /\
  exists report,
    analyze_document_structure
      (text_only (join_lines (map list_line_text shopping_list))) =
      Returns (StructureResult report) /\
    StructureReport.bulletListItemCount report = count_items shopping_list.
Proof.
  assert (H1 : bullet_line (js "- milk")).
  { exists [], "-"%char, [SP], "m"%char, (js "ilk").
    split_and!; try reflexivity; try discriminate; repeat constructor. }
  assert (H2 : bullet_line (js "  * two eggs")).
  { exists [SP; SP], "*"%char, [SP], "t"%char, (js "wo eggs").
    split_and!; try reflexivity; try discriminate; repeat constructor. }
  assert (H : Forall (well_formed_list_line bullet_line (one_of ["-"; "*"; "+"]%char))
                shopping_list).
  { repeat constructor; assumption. }
  split; [exact H|]. exact (bullet_items_counted shopping_list H).
Defined.

Lemma numbered_items_counted_witness :
  Forall (well_formed_list_line numbered_line is_digit) numbered_list /\
  exists report,
    analyze_document_structure
      (text_only (join_lines (map list_line_text numbered_list))) =
      Returns (StructureResult report) /\
    StructureReport.numberedListItemCount report = count_items numbered_list.
Proof.
  assert (H1 : numbered_line (js "1. milk")).
  { exists [], (js "1"), [SP], "m"%char, (js "ilk").
    split_and!; try reflexivity; try discriminate; repeat constructor. }
  assert (H2 : numbered_line (js " 12. two eggs")).
  { exists [SP], (js "12"), [SP], "t"%char, (js "wo eggs").
    split_and!; try reflexivity; try discriminate; repeat constructor. }
  assert (H : Forall (well_formed_list_line numbered_line is_digit) numbered_list).
  { repeat constructor; assumption. }
  split; [exact H|]. exact (numbered_items_counted numbered_list H).
Defined.

(** ** The database tool *)

Lemma handle_without_pool pg request w :
  is_init request = false ->
  handle pg request (MkDbState pg None w) =
  (DbFailure not_initialized, MkDbState pg None w).
Proof. destruct request; [discriminate|reflexivity..]. Qed.

(** X13.  Before [init_database_connection] is called, the database tool
    answers every request with the failure [Database connection not
    initialized] and makes no call to the pg package: the world is as it
    was. *)
Theorem database_needs_init (pg : PgLib) (requests : list DbRequest) (w : World pg) :
  Forall (fun request => is_init request = false) requests ->
  serve pg requests (MkDbState pg None w) =
  (map (fun _ => DbFailure not_initialized) requests, MkDbState pg None w).
Proof.
  induction 1 as [|request requests Hr _ IH]; [reflexivity|].
  cbn [serve map]. rewrite handle_without_pool by exact Hr. rewrite IH. reflexivity.
Qed.

(** The requests other than [init_database_connection] leave [pool] as it
    is. *)
Lemma handle_keeps_pool pg request s :
  is_init request = false -> pool pg (handle pg request s).2 = pool pg s.
Proof.
  destruct request as [?|params|params|params]; [discriminate|..]; intros _;
    cbn [handle]; unfold execute_query, get_table_schema, list_tables,
      guarded, with_pool, act_bind, call, act_ret;
    destruct (pool pg s) eqn:Ep; try (simpl; congruence);
    destruct (pool_query pg _ _ _ _) as [[e|result] w']; reflexivity.
Qed.

(** [init_database_connection] sets [pool] as soon as the pool is built,
    before the connection is tried. *)
Lemma init_sets_pool pg params s p w :
  new_Pool pg (config_of params) (world pg s) = (inr p, w) ->
  pool pg (init_database_connection pg params s).2 = Some p.
Proof.
  intros H. unfold init_database_connection, guarded, act_bind, call, set_pool, act_ret.
  rewrite H. cbn [world pool].
  destruct (pool_connect pg p w) as [[e|client] w1]; [reflexivity|].
  cbn [world pool].
  destruct (client_release pg client w1) as [[e|[]] w2]; reflexivity.
Qed.

Lemma init_keeps_pool pg params s :
  is_Some (pool pg s) -> is_Some (pool pg (init_database_connection pg params s).2).
Proof.
  intros Hs. unfold init_database_connection, guarded, act_bind, call, set_pool, act_ret.
  destruct (new_Pool pg _ _) as [[e|p] w]; [exact Hs|]. cbn [world pool].
  destruct (pool_connect pg p w) as [[e|client] w1]; [eauto|].
  cbn [world pool].
  destruct (client_release pg client w1) as [[e|[]] w2]; eauto.
Qed.

Lemma serve_cons pg request requests s :
  serve pg (request :: requests) s =
  ((handle pg request s).1 :: (serve pg requests (handle pg request s).2).1,
   (serve pg requests (handle pg request s).2).2).
Proof.
  cbn [serve]. destruct (handle pg request s) as [r s']. cbn [fst snd].
  destruct (serve pg requests s') as [rs s'']. reflexivity.
Qed.

Lemma serve_keeps_pool pg requests : forall s,
  is_Some (pool pg s) -> is_Some (pool pg (serve pg requests s).2).
Proof.
  induction requests as [|request requests IH]; intros s Hs; [exact Hs|].
  rewrite serve_cons. cbn [snd]. apply IH.
  destruct (is_init request) eqn:E.
  - destruct request; try discriminate. apply init_keeps_pool, Hs.
  - rewrite handle_keeps_pool by exact E. exact Hs.
Qed.

Lemma serve_same_pool pg requests : forall s,
  Forall (fun request => is_init request = false) requests ->
  pool pg (serve pg requests s).2 = pool pg s.
Proof.
  induction requests as [|request requests IH]; intros s Hr; [reflexivity|].
  inversion Hr as [|? ? H1 H2]; subst.
  rewrite serve_cons. cbn [snd]. rewrite IH by exact H2.
  apply handle_keeps_pool, H1.
Qed.

(** X14.  Once [init_database_connection] has built its pool, the tool
    holds a pool for ever after, whether or not the connection test of that
    call succeeded: the variable is assigned before the test, and nothing
    unsets it.  As long as no further call of [init_database_connection]
    follows, it is that very pool. *)
Theorem init_pool_stays (pg : PgLib) (params : InitParams.t)
    (requests : list DbRequest) (s : DbState pg) (p : Pool pg) (w : World pg) :
  new_Pool pg (config_of params) (world pg s) = (inr p, w) ->
  is_Some (pool pg (serve pg (InitDatabaseConnection params :: requests) s).2) /\
  (Forall (fun request => is_init request = false) requests ->
   pool pg (serve pg (InitDatabaseConnection params :: requests) s).2 = Some p).
Proof.
  intros H. rewrite serve_cons. cbn [snd handle].
  pose proof (init_sets_pool pg params s p w H) as Hp. split.
  - apply serve_keeps_pool. rewrite Hp. eauto.
  - intros Hr. rewrite serve_same_pool by exact Hr. exact Hp.
Qed.

Lemma database_needs_init_witness :
  Forall (fun request => is_init request = false) two_queries /\
  serve unreachable_pg two_queries (MkDbState unreachable_pg None 0) =
  (map (fun _ => DbFailure not_initialized) two_queries,
   MkDbState unreachable_pg None 0).
Proof.
  assert (H : Forall (fun request => is_init request = false) two_queries)
    by (repeat constructor).
  split; [exact H|]. exact (database_needs_init unreachable_pg two_queries 0 H).
Defined.

Lemma init_pool_stays_witness :
  new_Pool unreachable_pg (config_of local_database)
    (world unreachable_pg (MkDbState unreachable_pg None 0)) =
    (inr (config_of local_database), 1) /\
  is_Some (pool unreachable_pg
    (serve unreachable_pg (InitDatabaseConnection local_database :: two_queries)
       (MkDbState unreachable_pg None 0)).2) /\
  (Forall (fun request => is_init request = false) two_queries ->
   pool unreachable_pg
     (serve unreachable_pg (InitDatabaseConnection local_database :: two_queries)
        (MkDbState unreachable_pg None 0)).2 = Some (config_of local_database)).
Proof.
  split; [reflexivity|].
  exact (init_pool_stays unreachable_pg local_database two_queries
           (MkDbState unreachable_pg None 0) (config_of local_database) 1 eq_refl).
Defined.

(** ** The vector store tool *)

Lemma store_serve_cons chroma request requests s :
  store_serve chroma (request :: requests) s =
  ((store_handle chroma request s).1 ::
     (store_serve chroma requests (store_handle chroma request s).2).1,
   (store_serve chroma requests (store_handle chroma request s).2).2).
Proof.
  cbn [store_serve]. destruct (store_handle chroma request s) as [r s']. cbn [fst snd].
  destruct (store_serve chroma requests s') as [rs s'']. reflexivity.
Qed.

(** No request but [get_or_create_collection] assigns [collection]. *)
Lemma store_handle_keeps_collection chroma request s :
  opens_collection request = false ->
  collection chroma (store_handle chroma request s).2 = collection chroma s.
Proof.
  destruct request as [params|params|params|params|params]; try discriminate; intros _;
    cbn [store_handle].
  - unfold init_vector_store, guarded, act_bind, store_call, set_client, act_ret.
    destruct (new_ChromaClient chroma _ _) as [[e|c] w]; [reflexivity|].
    cbn [store client collection].
    destruct (heartbeat chroma c w) as [[e|[]] w1]; reflexivity.
  - unfold add_documents, guarded, with_collection.
    destruct (collection chroma s) as [col|] eqn:Ec; [|simpl; congruence].
    unfold metadatas_or_empty, act_bind, act_member, act_ret, store_call.
    destruct (AddParams.metadatas params) as [ms|];
      destruct (AddParams.documents params) as [ds|]; cbn [store client collection];
      try (destruct (collection_add chroma _ _ _ _ _) as [[e|[]] w]); simpl; congruence.
  - unfold query_collection, guarded, with_collection.
    destruct (collection chroma s) as [col|] eqn:Ec; [|simpl; congruence].
    unfold act_bind, act_ret, store_call.
    destruct (collection_query chroma _ _ _ _ _) as [[e|r] w]; simpl; congruence.
  - unfold delete_documents, guarded, with_collection.
    destruct (collection chroma s) as [col|] eqn:Ec; [|simpl; congruence].
    unfold act_bind, act_member, act_ret, store_call.
    destruct (collection_delete chroma _ _ _) as [[e|[]] w];
      destruct (DeleteParams.ids params); simpl; congruence.
Qed.

Lemma store_serve_keeps_collection chroma requests : forall s,
  Forall (fun request => opens_collection request = false) requests ->
  collection chroma (store_serve chroma requests s).2 = collection chroma s.
Proof.
  induction requests as [|request requests IH]; intros s Hr; [reflexivity|].
  inversion Hr as [|? ? H1 H2]; subst.
  rewrite store_serve_cons. cbn [snd]. rewrite IH by exact H2.
  apply store_handle_keeps_collection, H1.
Qed.

(** X15.  The collection that [get_or_create_collection] obtained stays the
    one [add_documents], [query_collection] and [delete_documents] work on,
    whatever requests follow other than [get_or_create_collection]: a later
    [init_vector_store], to the same server or to another, replaces the
    client and leaves the collection of the former client in place. *)
Theorem collection_outlives_client (chroma : ChromaLib) (params : CollectionParams.t)
    (requests : list StoreRequest) (s : StoreState chroma)
    (c : ChromaClient chroma) (col : Collection chroma) (w : Store chroma) :
  client chroma s = Some c ->
  getOrCreateCollection chroma c (CollectionParams.name params)
    (default ∅ (CollectionParams.metadata params)) (store chroma s) = (inr col, w) ->
  Forall (fun request => opens_collection request = false) requests ->
  collection chroma
    (store_serve chroma (GetOrCreateCollection params :: requests) s).2 = Some col.
Proof.
  intros Hc Hcol Hr. rewrite store_serve_cons. cbn [snd].
  rewrite store_serve_keeps_collection by exact Hr.
  cbn [store_handle]. unfold get_or_create_collection, guarded.
  rewrite Hc. unfold act_bind, store_call, set_collection, act_ret.
  rewrite Hcol. reflexivity.
Qed.

(** Without a collection, a request on the documents fails before any call
    to the package. *)
Lemma store_handle_without_collection chroma request s :
  collection chroma s = None -> on_documents request = true ->
  store_handle chroma request s = (StoreFailure chroma collection_not_initialized, s).
Proof.
  intros Hc Hr.
  destruct request as [params|params|params|params|params]; try discriminate;
    cbn [store_handle];
    unfold add_documents, query_collection, delete_documents, guarded, with_collection;
    rewrite Hc; reflexivity.
Qed.

(** X16.  As long as no [get_or_create_collection] has been called, every
    [add_documents], [query_collection] and [delete_documents] is answered
    with the failure [Collection not initialized], however often
    [init_vector_store] has been called, and [collection] stays unset. *)
Theorem documents_need_collection (chroma : ChromaLib) (requests : list StoreRequest)
    (s : StoreState chroma) :
  collection chroma s = None ->
  Forall (fun request => opens_collection request = false) requests ->
  Forall2 (fun request result =>
             on_documents request = true ->
             result = StoreFailure chroma collection_not_initialized)
    requests (store_serve chroma requests s).1 /\
  collection chroma (store_serve chroma requests s).2 = None.
Proof.
  intros Hc Hr. split; [|rewrite store_serve_keeps_collection by exact Hr; exact Hc].
  revert s Hc. induction Hr as [|request requests H1 _ IH]; intros s Hc.
  - constructor.
  - rewrite store_serve_cons. cbn [fst]. constructor.
    + intros Hd. rewrite store_handle_without_collection by assumption. reflexivity.
    + apply IH. rewrite store_handle_keeps_collection by exact H1. exact Hc.
Qed.

Lemma collection_outlives_client_witness :
  client memory_chroma first_server = Some (js "http://main:8000") /\
  getOrCreateCollection memory_chroma (js "http://main:8000")
    (CollectionParams.name notes_collection)
    (default ∅ (CollectionParams.metadata notes_collection))
    (store memory_chroma first_server) =
    (inr (js "http://main:8000", Some (js "notes")), 1) /\
  Forall (fun request => opens_collection request = false) move_and_add /\
  collection memory_chroma
    (store_serve memory_chroma (GetOrCreateCollection notes_collection :: move_and_add)
       first_server).2 = Some (js "http://main:8000", Some (js "notes")).
Proof.
  assert (H : Forall (fun request => opens_collection request = false) move_and_add)
    by (repeat constructor).
  split_and!; [reflexivity|reflexivity|exact H|].
  exact (collection_outlives_client memory_chroma notes_collection move_and_add
           first_server (js "http://main:8000") (js "http://main:8000", Some (js "notes")) 1
           eq_refl eq_refl H).
Defined.

Lemma documents_need_collection_witness :
  collection memory_chroma (MkStoreState memory_chroma None None 0) = None /\
  Forall (fun request => opens_collection request = false) move_and_add /\
  Forall2 (fun request result =>
             on_documents request = true ->
             result = StoreFailure memory_chroma collection_not_initialized)
    move_and_add
    (store_serve memory_chroma move_and_add (MkStoreState memory_chroma None None 0)).1 /\
  collection memory_chroma
    (store_serve memory_chroma move_and_add (MkStoreState memory_chroma None None 0)).2 = None.
Proof.
  assert (H : Forall (fun request => opens_collection request = false) move_and_add)
    by (repeat constructor).
  split_and!; [reflexivity|exact H|..];
    apply (documents_need_collection memory_chroma move_and_add
             (MkStoreState memory_chroma None None 0) eq_refl H).
Defined.

(** ** Headings, line by line *)

(** A bounded run of a class, read whole. *)
Lemma repeat_class_bounded p c z caps tail : forall u pre mn b fuel,
  Forall (fun a => p a = true) u -> stops p tail ->
  mn <= length u <= b -> length u < fuel ->
  c (MState (rev u ++ pre) tail caps) = Some z ->
  repeat_matcher (rmatch (Cls p)) [] true fuel mn (Some b) c (MState pre (u ++ tail) caps) =
  Some z.
Proof.
  induction u as [|a u IH]; intros pre mn b fuel Hu Ht Hb Hf Hc;
    (destruct fuel as [|fuel]; [simpl in Hf; lia|]).
  - simpl in Hb. assert (mn = 0) as -> by lia. cbn [repeat_matcher app rev] in *.
    destruct b as [|b]; [exact Hc|]. cbn [Nat.eqb negb clear_captures foldr].
    rewrite rmatch_cls_miss by exact Ht. exact Hc.
  - inversion Hu as [|? ? Ha Hu']; subst. simpl in Hb, Hf.
    destruct b as [|b]; [lia|].
    cbn [repeat_matcher app clear_captures foldr].
    rewrite rmatch_cls_hit by exact Ha. cbn [remaining length].
    assert (Hnext : repeat_matcher (rmatch (Cls p)) [] true fuel (pred mn) (Some b) c
                      (MState (a :: pre) (u ++ tail) caps) = Some z).
    { apply IH; auto; [lia..|]. cbn [rev] in Hc. rewrite <- app_assoc in Hc. exact Hc. }
    replace (length (u ++ tail) =? S (length (u ++ tail))) with false
      by (symmetry; apply Nat.eqb_neq; lia).
    rewrite andb_false_r. cbn [fmap option_fmap option_map pred].
    change (Init.Nat.pred (S b)) with b. rewrite Hnext.
    destruct (negb (mn =? 0)); reflexivity.
Qed.

Lemma replicate_run a n : Forall (fun c => is_char a c = true) (replicate n a).
Proof. apply Forall_replicate. apply Ascii.eqb_refl. Qed.

(** The heading regex on a heading line: the match and its groups. *)
Lemma headingRegex_line pre level spaces body tail :
  at_bol (MState pre [] []) = true ->
  well_formed_line (HeadingLine level spaces body) -> line_tail tail ->
  exists e,
    match_at headingRegex pre (line_text (HeadingLine level spaces body) ++ tail) = Some e /\
    consumed e = rev (line_text (HeadingLine level spaces body)) ++ pre /\
    remaining e = tail /\
    get_capture 1 e = Some (replicate level "#"%char) /\
    get_capture 2 e = Some body.
Proof.
  intros Hbol (Hlevel & Hne & Hsp & (b & rest & -> & Hb) & Hbody) Htail.
  cbn [line_text].
  assert (Hrun : Forall (fun c => is_char "#" c = true) (replicate level "#"%char))
    by apply replicate_run.
  assert (Hlen : length (replicate level "#"%char) = level) by apply length_replicate.
  revert Hrun Hlen. generalize (replicate level "#"%char). intros hashes Hrun Hlen.
  set (x1 := MState (rev hashes ++ pre) (spaces ++ (b :: rest) ++ tail) []).
  set (x2 := set_capture 1 (Some hashes) x1).
  set (y := MState (rev (b :: rest) ++ rev spaces ++ rev hashes ++ pre) tail (captures x2)).
  set (e := set_capture 2 (Some (b :: rest)) y).
  exists e. split_and!.
  - unfold match_at, headingRegex, cat.
    rewrite rmatch_cat, rmatch_bol by exact Hbol.
    rewrite rmatch_cat, rmatch_grp. unfold range. rewrite rmatch_rep.
    rewrite <- !app_assoc.
    apply repeat_class_bounded.
    + exact Hrun.
    + destruct spaces as [|s spaces]; [done|]. inversion Hsp as [|? ? [Hs _] _]; subst.
      cbn [app stops]. destruct s as [[] [] [] [] [] [] [] []]; try discriminate Hs; reflexivity.
    + lia.
    + unfold repeat_fuel. cbn [remaining]. rewrite length_app. lia.
    + rewrite (reads_text_between hashes) by (split; reflexivity).
      fold x1. fold x2. rewrite rmatch_cat. unfold plus.
      unfold x2, set_capture. cbn [consumed remaining captures x1].
      apply greedy_class_whole.
      * apply blank_spaces, Hsp.
      * exact Hb.
      * destruct spaces; [done|simpl; lia].
      * rewrite rmatch_cat, rmatch_grp.
        apply greedy_class_whole.
        -- exact Hbody.
        -- apply line_tail_stops_dot, Htail.
        -- simpl. lia.
        -- rewrite (reads_text_between (b :: rest)) by (split; reflexivity).
           cbn [rmatch]. unfold at_eol, set_capture. cbn [remaining].
           assert (Heol : match tail with [] => true | c :: _ => is_line_terminator c end
                          = true) by (destruct Htail as [->|[t ->]]; reflexivity).
           rewrite Heol. reflexivity.
  - unfold e, y, set_capture. cbn [consumed].
    rewrite !rev_app_distr, <- !app_assoc. reflexivity.
  - reflexivity.
  - unfold e. rewrite (get_set_capture 1 2). cbn [decide].
    unfold y. exact (get_set_capture 1 1 (Some hashes) x1).
  - unfold e. exact (get_set_capture 2 2 (Some (b :: rest)) y).
Qed.

(** The heading regex needs a hash mark at the start of a line. *)
Lemma headingRegex_miss pre rest :
  at_bol (MState pre [] []) = false \/ stops (is_char "#") rest ->
  match_at headingRegex pre rest = None.
Proof.
  intros H. unfold match_at, headingRegex, cat. rewrite rmatch_cat.
  destruct (at_bol (MState pre [] [])) eqn:Hbol.
  - destruct H as [H|H]; [discriminate|]. rewrite rmatch_bol by exact Hbol.
    rewrite rmatch_cat, rmatch_grp. unfold range. rewrite rmatch_rep.
    unfold repeat_fuel. cbn [repeat_matcher Nat.add Nat.eqb negb clear_captures foldr
                              group_ids].
    apply rmatch_cls_miss. exact H.
  - apply rmatch_bol_fails. exact Hbol.
Qed.

Lemma matches_from_skip_char r fuel pre a rest :
  match_at r pre (a :: rest) = None ->
  matches_from fuel r pre (a :: rest) = matches_from fuel r (a :: pre) rest.
Proof.
  intros H. destruct fuel as [|fuel]; [reflexivity|].
  rewrite !matches_from_S. cbn [search]. rewrite H.
  destruct rest; reflexivity.
Qed.

(** No heading starts inside a line that holds no line terminator and does
    not start with a hash mark. *)
Lemma skip_plain_line : forall l pre fuel tail,
  Forall (fun c => dot c = true) l ->
  at_bol (MState pre [] []) = false \/ stops (is_char "#") (l ++ tail) ->
  matches_from fuel headingRegex pre (l ++ tail) =
  matches_from fuel headingRegex (rev l ++ pre) tail.
Proof.
  induction l as [|a l IH]; intros pre fuel tail Hl H; [reflexivity|].
  inversion Hl as [|? ? Ha Hl']; subst. cbn [app].
  rewrite matches_from_skip_char by (apply headingRegex_miss; exact H).
  rewrite IH; [|exact Hl'|left].
  - cbn [rev]. rewrite <- app_assoc. reflexivity.
  - unfold at_bol. cbn [consumed]. unfold dot in Ha. apply negb_true_iff in Ha. exact Ha.
Qed.

(** The matches of the heading regex in a document of well-formed lines:
    one for each heading line. *)
Lemma matches_from_document : forall doc fuel pre,
  Forall well_formed_line doc ->
  at_bol (MState pre [] []) = true ->
  length (join_lines (map line_text doc)) < fuel ->
  exists ms,
    matches_from fuel headingRegex pre (join_lines (map line_text doc)) = Some ms /\
    map heading_of ms = headings_of_lines (length pre) doc.
Proof.
  induction doc as [|line doc IH]; intros fuel pre Hdoc Hbol Hf.
  - destruct fuel as [|fuel]; [simpl in Hf; lia|]. exists [].
    split; [|reflexivity]. rewrite matches_from_S. cbn [join_lines map search].
    rewrite headingRegex_miss by (right; exact I). reflexivity.
  - inversion Hdoc as [|? ? Hline Hdoc']; subst. cbn [map] in *.
    destruct (join_lines_cons (line_text line) (map line_text doc))
      as (tail & Hj & Hnil & Hcons).
    rewrite Hj in *. clear Hj. rewrite length_app in Hf.
    assert (Htail : line_tail tail).
    { destruct doc as [|l' doc']; [left; auto|right]. rewrite Hcons by done. eauto. }
    assert (Hrest : forall fuel',
      length tail <= fuel' -> 0 < fuel' ->
      exists ms,
        matches_from fuel' headingRegex (rev (line_text line) ++ pre) tail = Some ms /\
        map heading_of ms =
        headings_of_lines (length pre + length (line_text line) + 1) doc).
    { intros fuel' Hf' Hpos. destruct doc as [|l' doc'].
      - rewrite Hnil by reflexivity. destruct fuel' as [|fuel']; [lia|]. exists [].
        split; [|reflexivity]. rewrite matches_from_S. cbn [search].
        rewrite headingRegex_miss by (right; exact I). reflexivity.
      - rewrite Hcons in * by done.
        rewrite matches_from_skip_char by (apply headingRegex_miss; right; reflexivity).
        destruct (IH fuel' (LF :: rev (line_text line) ++ pre) Hdoc' eq_refl)
          as (ms & Hms & Hh); [simpl in Hf'; simpl; lia|].
        exists ms. split; [exact Hms|]. rewrite Hh. f_equal.
        simpl. rewrite length_app, length_rev. lia. }
    destruct line as [level spaces body|l]; cbn [headings_of_lines].
    + destruct (headingRegex_line pre level spaces body tail Hbol Hline Htail)
        as (e & He & Ce & Re & G1 & G2).
      destruct fuel as [|fuel]; [lia|].
      rewrite matches_from_S, (search_hit _ _ _ _ He).
      change (last (mk_match pre e)) with e. rewrite Ce, Re.
      destruct (Hrest fuel) as (ms & Hms & Hh).
      * lia.
      * destruct Hline as ((Hl1 & _) & _). cbn [line_text] in Hf.
        rewrite length_app, length_replicate in Hf. lia.
      * exists (mk_match pre e :: ms). rewrite Hms. split; [reflexivity|].
        cbn [map]. rewrite Hh. cbn [app]. f_equal.
        unfold heading_of.
        change (group 1 (mk_match pre e)) with (get_capture 1 e).
        change (group 2 (mk_match pre e)) with (get_capture 2 e).
        rewrite G1, G2. cbn [default from_option id index mk_match].
        rewrite length_replicate. reflexivity.
    + destruct Hline as [Hstop Hdot]. cbn [line_text] in *.
      rewrite skip_plain_line; [|exact Hdot|right].
      * destruct (Hrest fuel) as (ms & Hms & Hh); [lia..|]. exists ms. auto.
      * destruct l as [|a l]; [|exact Hstop].
        destruct Htail as [->|[t ->]]; [exact I|reflexivity].
Qed.

(** X17.  In a document whose lines are heading lines (1 to 6 hash marks,
    blanks, a body that starts with a character other than white space) and
    lines that do not start with a hash mark, the headings reported are
    those of the heading lines, in order: the level is the number of hash
    marks, the text the trimmed body, the position the offset of the line
    in the text. *)
Theorem document_headings (doc : list Line) :
  Forall well_formed_line doc ->
  exists report,
    analyze_document_structure (text_only (join_lines (map line_text doc))) =
      Returns (StructureResult report) /\
    StructureReport.headings report = headings_of_lines 0 doc.
Proof.
  intros Hdoc.
  destruct (analyze_report (text_only (join_lines (map line_text doc))) _ eq_refl)
    as (hs & ps & bs & ns & ts & ws & Hh & _ & _ & _ & _ & _ & ->).
  eexists. split; [reflexivity|]. simpl.
  destruct (matches_from_document doc (S (length (join_lines (map line_text doc)))) []
              Hdoc eq_refl ltac:(lia)) as (ms & Hms & Hexp).
  unfold exec_loop in Hh.
  rewrite (exec_while_fold_found _ _ (fun m hs => hs ++ [heading_of m])) in Hh.
  - rewrite Hms, foldl_snoc_map in Hh. injection Hh as <-. exact Hexp.
  - intros pre rest m a H. eapply collect_heading_found, H.
Qed.

Lemma document_headings_witness :
  Forall well_formed_line readme /\
  exists report,
    analyze_document_structure (text_only (join_lines (map line_text readme))) =
      Returns (StructureResult report) /\
    StructureReport.headings report = headings_of_lines 0 readme.
Proof.
  assert (H : Forall well_formed_line readme).
  { repeat constructor; try discriminate; try lia; eexists _, _; split; reflexivity. }
  split; [exact H|]. exact (document_headings readme H).
Defined.

(** ** Tables, line by line *)

(** X18.  A text whose lines are all table rows (a bar, cells free of line
    terminators, a bar, blanks), however many the rows and the cells, has as
    many table rows as lines. *)
Theorem table_lines_counted (rows : list JsString) :
  rows <> [] -> Forall bar_line rows ->
  exists report,
    analyze_document_structure (text_only (join_lines rows)) =
      Returns (StructureResult report) /\
    StructureReport.tableRowCount report = length rows.
Proof.
  intros Hne Hrows.
  destruct (analyze_report (text_only (join_lines rows)) _ eq_refl)
    as (hs & ps & bs & ns & ts & ws & _ & _ & _ & _ & Hts & _ & ->).
  eexists. split; [reflexivity|]. simpl.
  rewrite (match_all_rows rows Hne Hrows) in Hts. injection Hts as <-. reflexivity.
Qed.

Lemma table_lines_counted_witness :
  [js "|a|b|c|"; js "|-|-|-| "] <> [] /\
  Forall bar_line [js "|a|b|c|"; js "|-|-|-| "] /\
  exists report,
    analyze_document_structure (text_only (join_lines [js "|a|b|c|"; js "|-|-|-| "])) =
      Returns (StructureResult report) /\
    StructureReport.tableRowCount report = length [js "|a|b|c|"; js "|-|-|-| "].
Proof.
  assert (H1 : bar_line (js "|a|b|c|")).
  { exists (js "a|b|c"), []. split_and!; try reflexivity; try discriminate;
      repeat constructor. }
  assert (H2 : bar_line (js "|-|-|-| ")).
  { exists (js "-|-|-"), [SP]. split_and!; try reflexivity; try discriminate;
      repeat constructor. }
  assert (Hne : [js "|a|b|c|"; js "|-|-|-| "] <> []) by discriminate.
  assert (Hall : Forall bar_line [js "|a|b|c|"; js "|-|-|-| "])
    by (repeat constructor; assumption).
  split_and!; [exact Hne|exact Hall|].
  exact (table_lines_counted _ Hne Hall).
Defined.

(** ** An indented block, extracted *)

Lemma indentedBlock_parts :
  indentedBlock = Cat (opt blankLead) (plus indentedLine).
Proof. reflexivity. Qed.

(** An indented line, cut after its longest run of blanks and tabs. *)
Lemma indented_line_run l :
  indented_line l ->
  exists u t, l = u ++ t ++ [LF] /\ u <> [] /\
    Forall (fun c => one_of [SP; TAB] c = true) u /\
    stops (one_of [SP; TAB]) (t ++ [LF]) /\
    Forall (fun c => none_of [LF] c = true) t.
Proof.
  intros (indent & content & -> & Hne & Hi & Hc).
  destruct (run_of (one_of [SP; TAB]) content) as (c1 & c2 & -> & H1 & H2).
  apply Forall_app in Hc as [Hc1 Hc2].
  exists (indent ++ c1), c2. split_and!.
  - rewrite <- !app_assoc. reflexivity.
  - destruct indent; [done|discriminate].
  - apply Forall_app. auto.
  - destruct c2 as [|a c2]; [reflexivity|exact H2].
  - exact Hc2.
Qed.

(** The regex of a line reads an indented line whole. *)
Lemma indented_line_found (c : cont) pre l rest caps z :
  indented_line l ->
  c (MState (rev l ++ pre) rest caps) = Some z ->
  rmatch indentedLine c (MState pre (l ++ rest) caps) = Some z.
Proof.
  intros (u & t & -> & Hne & Hu & Hstop & Ht)%indented_line_run Hc.
  unfold indentedLine. rewrite rmatch_cat. unfold plus.
  rewrite <- !app_assoc. apply greedy_class_whole.
  - exact Hu.
  - destruct t as [|a t]; [reflexivity|exact Hstop].
  - destruct u; [done|simpl; lia].
  - rewrite rmatch_cat. unfold star. cbn [app]. apply greedy_class_whole.
    + exact Ht.
    + reflexivity.
    + lia.
    + unfold chr. rewrite rmatch_cls_hit by reflexivity.
      rewrite <- Hc. f_equal. f_equal.
      rewrite !rev_app_distr. cbn [rev app]. rewrite <- !app_assoc. reflexivity.
Qed.

Lemma indented_line_nonempty l : indented_line l -> 0 < length l.
Proof.
  intros (indent & content & -> & _). rewrite !length_app. simpl. lia.
Qed.

(** Indented lines to the end of the text: the quantifier reads them
    all. *)
Lemma indented_lines_found : forall lines fuel mn pre caps,
  Forall indented_line lines -> mn <= length lines ->
  length (concat lines) < fuel ->
  repeat_matcher (rmatch indentedLine) (group_ids indentedLine) true fuel mn None Some
    (MState pre (concat lines) caps) =
  Some (MState (rev (concat lines) ++ pre) [] caps).
Proof.
  induction lines as [|l lines IH]; intros fuel mn pre caps Hl Hmn Hf;
    (destruct fuel as [|fuel]; [lia|]).
  - simpl in Hmn. assert (mn = 0) as -> by lia. reflexivity.
  - inversion Hl as [|? ? Hl1 Hl2]; subst. cbn [concat] in *.
    pose proof (indented_line_nonempty l Hl1) as Hlen.
    rewrite length_app in Hf.
    cbn [repeat_matcher].
    change (clear_captures (group_ids indentedLine) (MState pre (l ++ concat lines) caps))
      with (MState pre (l ++ concat lines) caps).
    assert (Hturn : rmatch indentedLine
      (fun y =>
         if (mn =? 0) &&
            (length (remaining y) =?
             length (remaining (MState pre (l ++ concat lines) caps)))
         then None
         else repeat_matcher (rmatch indentedLine) (group_ids indentedLine) true fuel
                (pred mn) (pred <$> None) Some y)
      (MState pre (l ++ concat lines) caps) =
      Some (MState (rev (l ++ concat lines) ++ pre) [] caps)).
    { apply indented_line_found; [exact Hl1|]. cbn [remaining].
      replace (length (concat lines) =? length (l ++ concat lines)) with false
        by (symmetry; apply Nat.eqb_neq; rewrite length_app; lia).
      rewrite andb_false_r. cbn [fmap option_fmap option_map].
      rewrite IH; [|exact Hl2|simpl in Hmn; lia|lia].
      rewrite rev_app_distr, <- app_assoc. reflexivity. }
    rewrite Hturn. destruct (negb (mn =? 0)); reflexivity.
Qed.

Lemma plus_indentedLine_found lines pre caps :
  lines <> [] -> Forall indented_line lines ->
  rmatch (plus indentedLine) Some (MState pre (concat lines) caps) =
  Some (MState (rev (concat lines) ++ pre) [] caps).
Proof.
  intros Hne Hl. unfold plus. rewrite rmatch_rep.
  apply indented_lines_found; [exact Hl|destruct lines; [done|simpl; lia]|].
  unfold repeat_fuel. cbn [remaining]. lia.
Qed.

Lemma plus_indentedLine_empty c pre caps :
  rmatch (plus indentedLine) c (MState pre [] caps) = None.
Proof.
  destruct (rmatch (plus indentedLine) c (MState pre [] caps)) as [z|] eqn:E;
    [|reflexivity].
  apply rmatch_advances in E as (y & n & (w & Hw & R & _) & K & _).
  simpl in R, K. destruct w; [simpl in Hw; lia|discriminate].
Qed.

(** Up to a line feed, a text is cut in one way only. *)
Lemma cut_at_line_feed (a a' b b' : list ascii) :
  a ++ LF :: b = a' ++ LF :: b' ->
  Forall (fun c => none_of [LF] c = true) a ->
  Forall (fun c => none_of [LF] c = true) a' ->
  a = a' /\ b = b'.
Proof.
  revert a'. induction a as [|x a IH]; intros a' E Ha Ha'.
  - destruct a' as [|x' a']; [injection E as <-; auto|].
    injection E as <- _. inversion Ha' as [|? ? H _]. discriminate H.
  - destruct a' as [|x' a'].
    + injection E as -> _. inversion Ha as [|? ? H _]. discriminate H.
    + injection E as <- E. inversion Ha; inversion Ha'; subst.
      destruct (IH a' E) as [-> ->]; auto.
Qed.

Lemma indented_line_cut l :
  indented_line l ->
  exists a, l = a ++ [LF] /\ Forall (fun c => none_of [LF] c = true) a.
Proof.
  intros (indent & content & -> & _ & Hi & Hc). exists (indent ++ content).
  split; [rewrite <- app_assoc; reflexivity|].
  apply Forall_app. split; [|exact Hc].
  eapply Forall_impl; [exact Hi|].
  intros c H. destruct c as [[] [] [] [] [] [] [] []]; try discriminate H; reflexivity.
Qed.

(** The indented alternative on indented lines: the match is the text. *)
Lemma indentedBlock_found lines :
  lines <> [] -> Forall indented_line lines ->
  rmatch indentedBlock Some (MState [] (concat lines) []) =
  Some (MState (rev (concat lines)) [] []).
Proof.
  intros Hne Hl. rewrite indentedBlock_parts, rmatch_cat.
  pose proof (plus_indentedLine_found lines [] [] Hne Hl) as Hall.
  rewrite app_nil_r in Hall.
  destruct (rmatch (opt blankLead) (rmatch (plus indentedLine) Some)
              (MState [] (concat lines) [])) as [z|] eqn:E.
  2: { rewrite rmatch_opt_unfold in E.
       destruct (rmatch blankLead _ _); [discriminate|]. congruence. }
  f_equal. apply rmatch_opt_inv in E as [(d & E & Hd)|E]; [|congruence].
  change (clear_captures (group_ids blankLead) (MState [] (concat lines) []))
    with (MState [] (concat lines) []) in E.
  unfold blankLead in E. rewrite rmatch_cat in E. apply rmatch_bol_inv in E as [_ E].
  rewrite rmatch_cat in E. unfold star in E.
  apply rmatch_class_run in E as (w & y & [R C] & K & Hw & _ & E).
  apply rmatch_cls_inv in E as (a & t & Ra & Ha & E).
  apply Ascii.eqb_eq in Ha. subst a. apply Hd in E.
  destruct lines as [|l lines]; [done|]. inversion Hl as [|? ? Hl1 Hl2]; subst.
  destruct (indented_line_cut l Hl1) as (a & -> & Ha).
  cbn [remaining consumed captures concat] in *.
  rewrite Ra, <- app_assoc in R. cbn [app] in R.
  assert (Hw' : Forall (fun c => none_of [LF] c = true) w).
  { eapply Forall_impl; [exact Hw|].
    intros c H. destruct c as [[] [] [] [] [] [] [] []]; try discriminate H; reflexivity. }
  destruct (cut_at_line_feed _ _ _ _ R Ha Hw') as [-> Ht]. subst t.
  rewrite K, C, app_nil_r in E.
  destruct lines as [|l2 lines].
  - cbn [concat] in E. rewrite plus_indentedLine_empty in E. discriminate E.
  - rewrite plus_indentedLine_found in E by (done || exact Hl2).
    injection E as <-. f_equal.
    cbn [concat]. rewrite !rev_app_distr. cbn [rev app].
    rewrite <- !app_assoc. reflexivity.
Qed.

(** X19.  A text that is a run of indented lines - each one blanks or
    tabs, then any characters but a line feed, then a line feed - makes
    [extract_code] return exactly one block, whatever the lines hold,
    backticks included: its language is ["unknown"] and its code the
    trimmed text. *)
Theorem indented_block_extracted (lines : list JsString) :
  lines <> [] -> Forall indented_line lines ->
  extract_code (text_only (concat lines)) =
  Returns (CodeResult [CodeBlock.Make (js "unknown") (trim (concat lines))] 1).
Proof.
  intros Hne Hl.
  destruct (extract_code_matches (text_only (concat lines))) as (ms & Hms & ->).
  cbn [text_only Params.text ToString] in Hms.
  assert (Hfence : rmatch fencedBlock Some (MState [] (concat lines) []) = None).
  { destruct lines as [|l lines]; [done|]. inversion Hl as [|? ? Hl1 _]; subst.
    destruct Hl1 as (indent & content & -> & Hi & Hsp & _).
    destruct indent as [|a indent]; [done|]. inversion Hsp as [|? ? Ha _]; subst.
    unfold fencedBlock, cat. rewrite rmatch_cat. cbn [concat app].
    apply (rmatch_lit_miss "`" ["`"; "`"]%char).
    destruct a as [[] [] [] [] [] [] [] []]; try discriminate Ha; reflexivity. }
  assert (Hm : match_at codeBlockRegex [] (concat lines) =
               Some (MState (rev (concat lines)) [] [])).
  { unfold match_at, codeBlockRegex. cbn [rmatch]. rewrite Hfence.
    apply indentedBlock_found; assumption. }
  assert (Htext : concat lines <> []).
  { destruct lines as [|l lines]; [done|]. inversion Hl as [|? ? Hl1 _]; subst.
    apply indented_line_nonempty in Hl1. cbn [concat]. intros E.
    apply (f_equal length) in E. rewrite length_app in E. simpl in E. lia. }
  rewrite (all_matches_one _ _ _ ltac:(rewrite codeBlockRegex_min_len; lia) Htext Hm eq_refl)
    in Hms.
  injection Hms as <-.
  change (requested_language _) with (@None JsString).
  rewrite filter_wanted_none. cbn [map length].
  unfold block_of_match, blockLanguage, block_code.
  change (group 1 (mk_match [] (MState (rev (concat lines)) [] []))) with (@None JsString).
  change (group 2 (mk_match [] (MState (rev (concat lines)) [] []))) with (@None JsString).
  cbn [truthy_string].
  rewrite (mk_match_matched [] (concat lines)) by (cbn [consumed]; rewrite app_nil_r; reflexivity).
  reflexivity.
Qed.

Lemma indented_block_extracted_witness :
  [SP :: SP :: js "x = `1`" ++ [LF]; TAB :: js "return x" ++ [LF]] <> [] /\
  Forall indented_line [SP :: SP :: js "x = `1`" ++ [LF]; TAB :: js "return x" ++ [LF]] /\
  extract_code
    (text_only (concat [SP :: SP :: js "x = `1`" ++ [LF]; TAB :: js "return x" ++ [LF]])) =
  Returns (CodeResult
    [CodeBlock.Make (js "unknown")
       (trim (concat [SP :: SP :: js "x = `1`" ++ [LF]; TAB :: js "return x" ++ [LF]]))] 1).
Proof.
  assert (H1 : indented_line (SP :: SP :: js "x = `1`" ++ [LF])).
  { exists [SP; SP], (js "x = `1`"). split_and!; try reflexivity; try discriminate;
      repeat constructor. }
  assert (H2 : indented_line (TAB :: js "return x" ++ [LF])).
  { exists [TAB], (js "return x"). split_and!; try reflexivity; try discriminate;
      repeat constructor. }
  assert (Hne : [SP :: SP :: js "x = `1`" ++ [LF]; TAB :: js "return x" ++ [LF]] <> [])
    by discriminate.
  assert (Hall : Forall indented_line
            [SP :: SP :: js "x = `1`" ++ [LF]; TAB :: js "return x" ++ [LF]])
    by (repeat constructor; assumption).
  split_and!; [exact Hne|exact Hall|].
  exact (indented_block_extracted _ Hne Hall).
Defined.
